(** * Chronos Gaia: a shallow embedding of the capture / timeline / live-bridge code

    The development follows the source files one module at a time:

    - [Js]           the few JavaScript built-ins the code relies on
                     (strings as UTF-16 code units, regular expressions,
                     [Number.prototype.toString], [btoa] / [atob]);
    - [Types]        [types.ts];
    - [GeminiService] the audio helpers of [services/geminiService.ts];
    - [Timeline]     [components/Timeline.tsx];
    - [App]          [App.tsx]: metadata parsing, capture, enrichment, purge;
    - [Scheduler]    [App.tsx] again: the capture scheduler effect over a
                     millisecond timer table;
    - [CameraFeed]   [components/CameraFeed.tsx]: [startCamera];
    - [LiveAudio]    [components/LiveAudio.tsx]: playback scheduling and the
                     session effect with its cleanup;
    - [Chat]         [App.tsx]: the chat form and log, with the transcript
                     window of [components/LiveAudio.tsx];
    - [Playback]     [App.tsx]: the playback effect;
    - [GeminiChat], [GeminiPcm], [GeminiLive]
                     [services/geminiService.ts]: [sendMessage], the PCM
                     helpers and data URLs, the live message handler;
    - [Optics], [CameraStream]
                     [components/CameraFeed.tsx]: zoom and pan, and the
                     camera stream over overlapping calls;
    - [Store], [TimelineView], [Viewer]
                     the timeline over time, its cards, and the main panel.

    The vocabulary of the statements follows the embedding, and the
    properties come last, claim by claim, followed by further properties
    of the code around them.

    Numbers that the source keeps in IEEE doubles are kept exact here:
    integers in [N] / [nat], times in seconds in [Q]. *)

From Stdlib Require Import List NArith ZArith QArith Bool String Ascii Arith Lia.
From Stdlib Require Import Qround DecimalN ZifyNat ZifyN Lqa.
From Stdlib.Strings Require Import Byte.
Import ListNotations.

Set Implicit Arguments.

(* ================================================================== *)
(** * JavaScript built-ins                                             *)
(* ================================================================== *)

Module Js.

Local Open Scope N_scope.

(** A JavaScript string is a sequence of UTF-16 code units. *)
Definition jsstring := list N.

(** ASCII literals of the source, as code units. *)
Definition lit (s : string) : jsstring :=
  map N_of_ascii (list_ascii_of_string s).

Definition jsstring_eqb (a b : jsstring) : bool :=
  if list_eq_dec N.eq_dec a b then true else false.

(** [s.length === 0] / falsiness of a string. *)
Definition is_empty (s : jsstring) : bool :=
  match s with [] => true | _ :: _ => false end.

(** [String.prototype.includes]: [pat] occurs as a contiguous run of [s]. *)
Fixpoint starts_with (pat s : jsstring) : bool :=
  match pat, s with
  | [], _ => true
  | _ :: _, [] => false
  | p :: pat', c :: s' => N.eqb p c && starts_with pat' s'
  end.

Fixpoint includes (s pat : jsstring) : bool :=
  starts_with pat s ||
  match s with
  | [] => false
  | _ :: s' => includes s' pat
  end.

(** ** Character classes of the regular expressions used in the source *)

(** [\d] (no [u] flag): the ten ASCII digits. *)
Definition is_digit (c : N) : bool := (48 <=? c) && (c <=? 57).

(** [\s]: WhiteSpace and LineTerminator code units of ECMAScript. *)
Definition is_space (c : N) : bool :=
  ((9 <=? c) && (c <=? 13)) || (c =? 32) || (c =? 160) || (c =? 5760)
  || ((8192 <=? c) && (c <=? 8202))
  || (c =? 8232) || (c =? 8233) || (c =? 8239) || (c =? 8287)
  || (c =? 12288) || (c =? 65279).

Definition is_upper (c : N) : bool := (65 <=? c) && (c <=? 90).
Definition is_lower (c : N) : bool := (97 <=? c) && (c <=? 122).

(** Upper-casing of one code unit, on the ASCII range.  Under the [i] flag
    (without [u]) a code unit above 127 never canonicalises to an ASCII one,
    so an ASCII pattern character matches exactly its two ASCII cases. *)
Definition upcase (c : N) : N := if is_lower c then c - 32 else c.

(** A literal pattern character under the [i] flag. *)
Definition ci (p c : N) : bool := upcase c =? upcase p.

(** ** A backtracking matcher for the fragment of RegExp the source uses *)

Inductive re : Type :=
| Eps
| Chr (p : N -> bool)
| Seq (a b : re)
| Alt (a b : re)
| Star (a : re)
| Group (a : re).

(** [m r s cap k]: match [r] at the head of [s], then continue with [k] on
    the rest; alternatives are tried left to right and [Star] is greedy, as
    in ECMAScript.  [cap] is the text of the (single) capturing group.  An
    iteration of [Star] that consumes nothing is rejected, which is the
    empty check of RepeatMatcher. *)
Fixpoint m (A : Type) (r : re) (s : jsstring) (cap : option jsstring)
           (k : jsstring -> option jsstring -> option A) {struct r} : option A :=
  match r with
  | Eps => k s cap
  | Chr p =>
      match s with
      | c :: s' => if p c then k s' cap else None
      | [] => None
      end
  | Seq a b => m a s cap (fun s' cap' => m b s' cap' k)
  | Alt a b =>
      match m a s cap k with
      | Some x => Some x
      | None => m b s cap k
      end
  | Star a =>
      (fix loop (fuel : nat) (s : jsstring) (cap : option jsstring) : option A :=
         match fuel with
         | O => k s cap
         | S fuel' =>
             match m a s cap
                     (fun s' cap' =>
                        if (List.length s' <? List.length s)%nat
                        then loop fuel' s' cap' else None) with
             | Some x => Some x
             | None => k s cap
             end
         end) (List.length s) s cap
  | Group a =>
      m a s cap (fun s' _ => k s' (Some (firstn (List.length s - List.length s') s)))
  end.

(** [RegExp.prototype.exec] / [String.prototype.match] without the [g] flag:
    the leftmost start index at which the pattern matches wins.  The result
    is [None] for [null], and otherwise the text of group 1. *)
Fixpoint exec (r : re) (s : jsstring) : option (option jsstring) :=
  match m r s None (fun _ cap => Some cap) with
  | Some cap => Some cap
  | None =>
      match s with
      | [] => None
      | _ :: s' => exec r s'
      end
  end.

(** A run of literal characters. *)
Fixpoint chars (f : N -> N -> bool) (l : jsstring) : re :=
  match l with
  | [] => Eps
  | c :: l' => Seq (Chr (f c)) (chars f l')
  end.

Definition lit_ci (s : string) : re := chars ci (lit s).
Definition plus (a : re) : re := Seq a (Star a).
Definition opt (a : re) : re := Alt a Eps.

(** ** [parseInt] on a run of decimal digits

    The value is kept exact; a double holds it exactly up to 2^53. *)

Definition digit_value (c : N) : N := c - 48.

Definition parseInt (s : jsstring) : N :=
  fold_left (fun acc c => 10 * acc + digit_value c) s 0.

(** ** [Number.prototype.toString] on a non-negative integer *)

Fixpoint uint_units (d : Decimal.uint) : jsstring :=
  match d with
  | Decimal.Nil => []
  | Decimal.D0 d' => 48 :: uint_units d'
  | Decimal.D1 d' => 49 :: uint_units d'
  | Decimal.D2 d' => 50 :: uint_units d'
  | Decimal.D3 d' => 51 :: uint_units d'
  | Decimal.D4 d' => 52 :: uint_units d'
  | Decimal.D5 d' => 53 :: uint_units d'
  | Decimal.D6 d' => 54 :: uint_units d'
  | Decimal.D7 d' => 55 :: uint_units d'
  | Decimal.D8 d' => 56 :: uint_units d'
  | Decimal.D9 d' => 57 :: uint_units d'
  end.

Definition toString (n : N) : jsstring := uint_units (N.to_uint n).

(** ** [btoa] and [atob]

    [btoa] is RFC 4648 base64 with padding over a binary string (it throws
    on a code unit above 255); [atob] is the forgiving-base64 decode of the
    HTML standard.  [None] stands for the exception either one throws. *)

Definition b64_char (v : N) : N :=
  if v <? 26 then 65 + v
  else if v <? 52 then 97 + (v - 26)
  else if v <? 62 then 48 + (v - 52)
  else if v =? 62 then 43
  else 47.

Definition b64_value (c : N) : option N :=
  if is_upper c then Some (c - 65)
  else if is_lower c then Some (c - 97 + 26)
  else if is_digit c then Some (c - 48 + 52)
  else if c =? 43 then Some 62
  else if c =? 47 then Some 63
  else None.

(** The 6-bit groups of a byte sequence, most significant first. *)
Fixpoint to_sextets (l : list N) : list N :=
  match l with
  | [] => []
  | a :: [] => [a / 4; (a mod 4) * 16]
  | a :: b :: [] => [a / 4; (a mod 4) * 16 + b / 16; (b mod 16) * 4]
  | a :: b :: c :: l' =>
      a / 4 :: (a mod 4) * 16 + b / 16 :: (b mod 16) * 4 + c / 64 :: c mod 64
        :: to_sextets l'
  end.

Definition b64_padding (n : nat) : jsstring :=
  repeat 61 ((3 - n mod 3) mod 3)%nat.

Definition btoa (s : jsstring) : option jsstring :=
  if forallb (fun c => c <=? 255) s
  then Some (map b64_char (to_sextets s) ++ b64_padding (List.length s))
  else None.

Definition is_ascii_whitespace (c : N) : bool :=
  (c =? 9) || (c =? 10) || (c =? 12) || (c =? 13) || (c =? 32).

(** "If the length divides by 4 leaving no remainder and the data ends with
    one or two [=], remove them." *)
Definition strip_padding (d : jsstring) : jsstring :=
  if (List.length d mod 4 =? 0)%nat then
    match rev d with
    | c1 :: c2 :: r =>
        if (c1 =? 61) && (c2 =? 61) then rev r
        else if c1 =? 61 then rev (c2 :: r)
        else d
    | c1 :: [] => if c1 =? 61 then [] else d
    | [] => d
    end
  else d.

Fixpoint from_alphabet (d : jsstring) : option (list N) :=
  match d with
  | [] => Some []
  | c :: d' =>
      match b64_value c, from_alphabet d' with
      | Some v, Some vs => Some (v :: vs)
      | _, _ => None
      end
  end.

(** Four sextets give three bytes; a tail of three gives two bytes and a
    tail of two gives one, the surplus bits being discarded. *)
Fixpoint from_sextets (v : list N) : list N :=
  match v with
  | a :: b :: c :: d :: v' =>
      a * 4 + b / 16 :: (b mod 16) * 16 + c / 4 :: (c mod 4) * 64 + d
        :: from_sextets v'
  | a :: b :: c :: [] => [a * 4 + b / 16; (b mod 16) * 16 + c / 4]
  | a :: b :: [] => [a * 4 + b / 16]
  | _ => []
  end.

Definition atob (s : jsstring) : option jsstring :=
  let d := strip_padding (filter (fun c => negb (is_ascii_whitespace c)) s) in
  if (List.length d mod 4 =? 1)%nat then None
  else option_map from_sextets (from_alphabet d).

End Js.

Import Js.

(* ================================================================== *)
(** * types.ts                                                         *)
(* ================================================================== *)

Module Types.

Inductive HealthStatus : Type := HEALTHY | STRESSED | CRITICAL.

(** [interface CapturedImage]; an optional field is an [option]. *)
Record CapturedImage : Type := {
  id : jsstring;
  timestamp : N;
  dataUrl : jsstring;
  analysis : option jsstring;
  confidence : option N;
  growthStage : option jsstring;
  eventTags : option (list jsstring);
  healthStatus : option HealthStatus;
  advice : option jsstring
}.

End Types.

Import Types.

(* ================================================================== *)
(** * services/geminiService.ts: the audio helpers                     *)
(* ================================================================== *)

Module GeminiService.

(** A [Uint8Array] is a list of bytes; storing a number into it keeps the
    number modulo 256. *)
Definition to_uint8 (n : N) : byte :=
  match Byte.of_N (n mod 256) with
  | Some b => b
  | None => x00
  end.

Definition fromCharCode (b : byte) : N := Byte.to_N b.

(** [encodeAudio]: the loop appends one character per byte, then [btoa]. *)
Definition encodeAudio (bytes : list byte) : option jsstring :=
  let binary := fold_left (fun binary b => binary ++ [fromCharCode b]) bytes [] in
  btoa binary.

(** [decodeAudio]: [atob], then one array slot per character. *)
Definition decodeAudio (base64 : jsstring) : option (list byte) :=
  match atob base64 with
  | Some binaryString => Some (map to_uint8 binaryString)
  | None => None
  end.

End GeminiService.

(* ================================================================== *)
(** * components/Timeline.tsx                                          *)
(* ================================================================== *)

Module Timeline.

Local Open Scope string_scope.

Definition RED : string := "border-red-500 shadow-[0_0_10px_rgba(239,68,68,0.4)]".
Definition YELLOW : string := "border-yellow-500 shadow-[0_0_10px_rgba(234,179,8,0.4)]".
Definition GREEN : string := "border-cyber-accent shadow-[0_0_10px_rgba(132,204,22,0.4)]".
Definition PLAIN : string := "border-cyber-700".

Section GetHealthColor.

(** [String.prototype.toLowerCase] is a built-in with the full Unicode case
    tables behind it; it is a parameter of the embedding. *)
Variable toLowerCase : jsstring -> jsstring.

(** The "fallback legacy analysis": a keyword scan over the lowered text. *)
Definition keywordColor (analysisText : jsstring) : string :=
  let t := toLowerCase analysisText in
  if includes t (lit "dead") || includes t (lit "disease")
     || includes t (lit "pest") || includes t (lit "rot")
     || includes t (lit "critical")
  then RED
  else if includes t (lit "wilt") || includes t (lit "yellow")
          || includes t (lit "dry") || includes t (lit "spot")
  then YELLOW
  else GREEN.

(** [getHealthColor]: explicit metadata first, then the text, then the
    default.  It only reads [img]. *)
Definition getHealthColor (img : CapturedImage) : string :=
  match healthStatus img with
  | Some CRITICAL => RED
  | Some STRESSED => YELLOW
  | Some HEALTHY => GREEN
  | None =>
      match analysis img with
      | None => PLAIN
      | Some a => if is_empty a then PLAIN else keywordColor a
      end
  end.

End GetHealthColor.

End Timeline.

(* ================================================================== *)
(** * App.tsx                                                          *)
(* ================================================================== *)

Module App.

(** ** parseMetaData *)

(** [/\[CONFIDENCE:\s*(\d+)%?\]/i] *)
Definition CONFIDENCE_RE : re :=
  Seq (lit_ci "[CONFIDENCE:")
 (Seq (Star (Chr is_space))
 (Seq (Group (plus (Chr is_digit)))
 (Seq (opt (lit_ci "%"))
      (lit_ci "]")))).

(** [/\[HEALTH:\s*(HEALTHY|STRESSED|CRITICAL)\]/i] *)
Definition HEALTH_RE : re :=
  Seq (lit_ci "[HEALTH:")
 (Seq (Star (Chr is_space))
 (Seq (Group (Alt (lit_ci "HEALTHY") (Alt (lit_ci "STRESSED") (lit_ci "CRITICAL"))))
      (lit_ci "]"))).

(** [match(...)[1]]: group 1 of the match, when there is a match. *)
Definition group1 (r : option (option jsstring)) : option jsstring :=
  match r with
  | Some (Some g) => Some g
  | _ => None
  end.

(** [health[1].toUpperCase()] read at the type ['HEALTHY' | 'STRESSED' |
    'CRITICAL']: the captured text is one of the three words in some mix of
    ASCII cases. *)
Definition toHealthStatus (g : jsstring) : option HealthStatus :=
  let u := map upcase g in
  if jsstring_eqb u (lit "HEALTHY") then Some HEALTHY
  else if jsstring_eqb u (lit "STRESSED") then Some STRESSED
  else if jsstring_eqb u (lit "CRITICAL") then Some CRITICAL
  else None.

Record MetaData : Type := {
  md_confidence : option N;
  md_healthStatus : option HealthStatus
}.

Definition parseMetaData (text : jsstring) : MetaData :=
  let confidence := group1 (exec CONFIDENCE_RE text) in
  let health := group1 (exec HEALTH_RE text) in
  {| md_confidence :=
       match confidence with Some g => Some (parseInt g) | None => None end;
     md_healthStatus :=
       match health with Some g => toHealthStatus g | None => None end |}.

(** ** captureAndProcess and the [images] state *)

(** [{ id: Date.now().toString(), timestamp: Date.now(), dataUrl }]: the
    clock is read twice. *)
Definition newImage (now_id now_ts : N) (url : jsstring) : CapturedImage :=
  {| id := toString now_id;
     timestamp := now_ts;
     dataUrl := url;
     analysis := None;
     confidence := None;
     growthStage := None;
     eventTags := None;
     healthStatus := None;
     advice := None |}.

(** [{ ...img, analysis, ...metadata }] *)
Definition merge (img : CapturedImage) (analysisText : jsstring) (metadata : MetaData)
  : CapturedImage :=
  {| id := id img;
     timestamp := timestamp img;
     dataUrl := dataUrl img;
     analysis := Some analysisText;
     confidence := md_confidence metadata;
     growthStage := growthStage img;
     eventTags := eventTags img;
     healthStatus := md_healthStatus metadata;
     advice := advice img |}.

(** The three updaters handed to [setImages]. *)
Definition append (img : CapturedImage) (prev : list CapturedImage) : list CapturedImage :=
  prev ++ [img].

Definition enrich (newId : jsstring) (analysisText : jsstring) (metadata : MetaData)
                  (prev : list CapturedImage) : list CapturedImage :=
  map (fun img =>
         if jsstring_eqb (id img) newId then merge img analysisText metadata else img)
      prev.

Definition purge (prev : list CapturedImage) : list CapturedImage := [].

(** What the environment supplies to one call of [captureAndProcess]: the
    result of [cameraRef.current.capture()] ([None] when the ref or the
    result is null) and the two clock readings. *)
Record Frame : Type := {
  shot : option jsstring;
  now_id : N;
  now_ts : N
}.

(** [captureAndProcess] up to the [await]: the artifact appended, if any. *)
Definition captured (f : Frame) : option CapturedImage :=
  match shot f with
  | Some url => if is_empty url then None else Some (newImage (now_id f) (now_ts f) url)
  | None => None
  end.

Definition capture_begin (f : Frame) (images : list CapturedImage) : list CapturedImage :=
  match captured f with
  | Some img => append img images
  | None => images
  end.

(** The outcome of [await analyzeImage(...)]: a rejection, or [response.text],
    which may be undefined. *)
Inductive analysis_result : Type :=
| Rejected
| Resolved (text : option jsstring).

(** [captureAndProcess] after the [await], under [settings.autoAnalyze].
    A rejection, and the [TypeError] of [undefined.match], end in the
    [catch], which only logs. *)
Definition capture_finish (img : CapturedImage) (r : analysis_result)
                          (images : list CapturedImage) : list CapturedImage :=
  match r with
  | Resolved (Some text) => enrich (id img) text (parseMetaData text) images
  | Resolved None => images
  | Rejected => images
  end.

(** The prompt [captureAndProcess] sends with the frame. *)
Definition prompt : jsstring :=
  lit "Analyze plant snapshot. [HEALTH: STATUS][STAGE: stage][TAGS: tag1][ADVICE: text][CONFIDENCE: X%]".

(** [captureAndProcess] from end to end, when no other update of [images]
    comes in between its two halves. *)
Definition captureAndProcess (autoAnalyze : bool) (f : Frame) (r : analysis_result)
                             (images : list CapturedImage) : list CapturedImage :=
  match captured f with
  | Some img =>
      if autoAnalyze then capture_finish img r (append img images)
      else append img images
  | None => images
  end.

End App.

(* ================================================================== *)
(** * App.tsx: the capture scheduler effect                            *)
(* ================================================================== *)

Module Scheduler.

Import App.

Local Open Scope nat_scope.

(** ** The timer substrate

    [setTimeout], [setInterval] and [clearInterval] over a clock that
    advances in whole milliseconds.  A timer holds its handle, the clock
    reading at which it is next due and, for an interval, its period.  The
    only callback these timers carry in the effect is [captureAndProcess]. *)

Record timer : Type := {
  handle : nat;
  due : N;
  period : option N
}.

(** The component state the effect reads and writes, the timer table, and
    the log of clock readings at which a timer called [captureAndProcess]. *)
Record Sched : Type := {
  active : bool;
  intervalHours : Q;
  images : list CapturedImage;
  intervalRef : option nat;
  timers : list timer;
  next_handle : nat;
  clock : N;
  fired : list N
}.

(** A delay handed to a timer is truncated to whole milliseconds. *)
Definition delay_ms (d : Q) : N := Z.to_N (Qfloor d).

Definition register (p : option N) (d : Q) (s : Sched) : nat * Sched :=
  let h := next_handle s in
  (h, {| active := active s;
         intervalHours := intervalHours s;
         images := images s;
         intervalRef := intervalRef s;
         timers := timers s ++ [{| handle := h; due := (clock s + delay_ms d)%N; period := p |}];
         next_handle := S h;
         clock := clock s;
         fired := fired s |}).

Definition setTimeout (d : Q) (s : Sched) : nat * Sched := register None d s.

Definition setInterval (d : Q) (s : Sched) : nat * Sched :=
  register (Some (delay_ms d)) d s.

Definition clearInterval (h : option nat) (s : Sched) : Sched :=
  match h with
  | None => s
  | Some h =>
      {| active := active s;
         intervalHours := intervalHours s;
         images := images s;
         intervalRef := intervalRef s;
         timers := filter (fun t => negb (handle t =? h)) (timers s);
         next_handle := next_handle s;
         clock := clock s;
         fired := fired s |}
  end.

Definition set_intervalRef (h : option nat) (s : Sched) : Sched :=
  {| active := active s;
     intervalHours := intervalHours s;
     images := images s;
     intervalRef := h;
     timers := timers s;
     next_handle := next_handle s;
     clock := clock s;
     fired := fired s |}.

Definition set_images (l : list CapturedImage) (s : Sched) : Sched :=
  {| active := active s;
     intervalHours := intervalHours s;
     images := l;
     intervalRef := intervalRef s;
     timers := timers s;
     next_handle := next_handle s;
     clock := clock s;
     fired := fired s |}.

(** ** The effect of [useEffect(..., [active, settings.intervalHours])] *)

Definition intervalMs (s : Sched) : Q := (intervalHours s * 60 * 60 * 1000)%Q.

Definition effect (s : Sched) : Sched :=
  if active s then
    let s1 := if (List.length (images s) =? 0) then snd (setTimeout 1000 s) else s in
    let (h, s2) := setInterval (intervalMs s) s1 in
    set_intervalRef (Some h) s2
  else
    match intervalRef s with
    | Some h => clearInterval (Some h) s
    | None => s
    end.

(** The function the effect returns: [() => clearInterval(intervalRef.current)]. *)
Definition cleanup (s : Sched) : Sched := clearInterval (intervalRef s) s.

(** A change of a dependency: the previous cleanup, then the effect. *)
Definition rerun (s : Sched) : Sched := effect (cleanup s).

(** ** Events *)

(** The snapshot button calls [captureAndProcess] outside any timer. *)
Definition manual_capture (f : Frame) (s : Sched) : Sched :=
  set_images (capture_begin f (images s)) s.

(** One millisecond passes.  Every timer that is due runs its callback
    once; a timeout then leaves the table and an interval is re-armed one
    period later. *)
Definition is_due (now : N) (t : timer) : bool := (due t <=? now)%N.

Definition rearm (now : N) (t : timer) : list timer :=
  if is_due now t then
    match period t with
    | Some p => [{| handle := handle t; due := (now + p)%N; period := Some p |}]
    | None => []
    end
  else [t].

Definition tick (f : Frame) (s : Sched) : Sched :=
  let now := N.succ (clock s) in
  let calls := List.length (filter (is_due now) (timers s)) in
  {| active := active s;
     intervalHours := intervalHours s;
     images := Nat.iter calls (capture_begin f) (images s);
     intervalRef := intervalRef s;
     timers := flat_map (rearm now) (timers s);
     next_handle := next_handle s;
     clock := now;
     fired := fired s ++ repeat now calls |}.

Inductive event : Type :=
| Tick (f : Frame)             (* one millisecond passes *)
| ToggleActive                 (* Start / Stop: [setActive(!active)] *)
| SetIntervalHours (h : Q)     (* the range input *)
| PurgeData                    (* Purge Data, confirmed *)
| ManualCapture (f : Frame).   (* the snapshot button *)

Definition step (e : event) (s : Sched) : Sched :=
  match e with
  | Tick f => tick f s
  | ToggleActive =>
      rerun {| active := negb (active s);
               intervalHours := intervalHours s;
               images := images s;
               intervalRef := intervalRef s;
               timers := timers s;
               next_handle := next_handle s;
               clock := clock s;
               fired := fired s |}
  | SetIntervalHours h =>
      if Qeq_bool h (intervalHours s) then s
      else
        rerun {| active := active s;
                 intervalHours := h;
                 images := images s;
                 intervalRef := intervalRef s;
                 timers := timers s;
                 next_handle := next_handle s;
                 clock := clock s;
                 fired := fired s |}
  | PurgeData => set_images (purge (images s)) s
  | ManualCapture f => manual_capture f s
  end.

Definition run (es : list event) (s : Sched) : Sched :=
  fold_left (fun s e => step e s) es s.

(** The state at mount: inactive, 1.5 h, no images, no timer. *)
Definition init : Sched :=
  {| active := false;
     intervalHours := 3 # 2;
     images := [];
     intervalRef := None;
     timers := [];
     next_handle := 1;
     clock := 0%N;
     fired := [] |}.

End Scheduler.

(* ================================================================== *)
(** * components/CameraFeed.tsx: startCamera                           *)
(* ================================================================== *)

Module CameraFeed.

Local Open Scope string_scope.

(** The [error] state: [{message, type}]. *)
Record CameraError : Type := {
  message : string;
  type : string
}.

Record State : Type := {
  error : option CameraError;
  isInitializing : bool;
  hasTorch : bool;
  srcObject : option nat;       (* [videoRef.current.srcObject], a stream handle *)
  released : list nat           (* streams whose tracks were stopped *)
}.

(** How [navigator.mediaDevices.getUserMedia] (and the few lines after it in
    the [try]) end: with a stream and its torch capability, or with a thrown
    value, of which the [catch] reads [name]. *)
Inductive acquisition : Type :=
| Granted (stream : nat) (torch : bool)
| Thrown (name : jsstring).

(** The [catch] block: [msg] and [type] start at the unknown case and are
    overwritten by the two tests on [err.name]. *)
Definition classify (name : jsstring) : CameraError :=
  if jsstring_eqb name (lit "NotAllowedError")
     || jsstring_eqb name (lit "PermissionDeniedError")
  then {| message := "Camera access denied by user. Check browser settings.";
          type := "permission" |}
  else if jsstring_eqb name (lit "NotFoundError")
          || jsstring_eqb name (lit "DevicesNotFoundError")
  then {| message := "No compatible optics found on this hardware.";
          type := "hardware" |}
  else {| message := "Camera Optics Malfunction. Check Permissions.";
          type := "unknown" |}.

Definition startCamera (a : acquisition) (s : State) : State :=
  (* setError(null); setIsInitializing(true); stop the tracks of the old
     stream; the video element is taken to be mounted *)
  let released' :=
    match srcObject s with
    | Some old => (released s ++ [old])%list
    | None => released s
    end in
  match a with
  | Granted stream torch =>
      {| error := None;
         isInitializing := false;       (* finally *)
         hasTorch := torch;
         srcObject := Some stream;
         released := released' |}
  | Thrown name =>
      {| error := Some (classify name);
         isInitializing := false;       (* finally *)
         hasTorch := hasTorch s;
         srcObject := srcObject s;
         released := released' |}
  end.

(** What the component renders in place of the feed. *)
Inductive view : Type :=
| ErrorPanel (text : string) (retry_disabled : bool)
| VideoFeed.

Definition render (s : State) : view :=
  match error s with
  | Some e => ErrorPanel (message e) (isInitializing s)
  | None => VideoFeed
  end.

(** The Reinitialize button: [onClick={startCamera}]. *)
Definition click_retry (a : acquisition) (s : State) : State := startCamera a s.

End CameraFeed.

(* ================================================================== *)
(** * components/LiveAudio.tsx                                         *)
(* ================================================================== *)

Module LiveAudio.

Local Open Scope nat_scope.

Inductive media : Type := AudioChunk | VideoFrame | ToolResponse.

(** The refs and state of the component, the [cleanup] flags of the effect
    runs, and the platform objects the effect creates, each with the log of
    what was done to it. *)
Record Bridge : Type := {
  streamRef : option nat;
  inputAudioContextRef : option nat;
  outputAudioContextRef : option nat;
  sessionRef : option nat;
  nextStartTimeRef : Q;
  videoIntervalRef : nat;
  isConnected : bool;
  error : option string;
  cleaned : list nat;             (* effect runs whose [cleanup] flag is true *)
  stopped : list nat;             (* one entry per pass [getTracks().forEach(t => t.stop())] *)
  closed : list nat;              (* one entry per [AudioContext.close()] *)
  intervals : list (nat * nat);   (* live [setInterval] handles, with the session in scope *)
  processors : list (nat * nat);  (* script processors: their context, the session in scope *)
  encoding : list nat;            (* [toBlob] calls in flight, with the session in scope *)
  sent : list (nat * media);      (* calls that send to the remote session *)
  started : list (Q * Q);         (* [source.start(startTime)] with the buffer duration *)
  fresh : nat
}.

Definition set_streamRef (v : option nat) (s : Bridge) : Bridge :=
  Build_Bridge v (inputAudioContextRef s) (outputAudioContextRef s)
    (sessionRef s) (nextStartTimeRef s) (videoIntervalRef s) (isConnected s)
    (error s) (cleaned s) (stopped s) (closed s) (intervals s) (processors s)
    (encoding s) (sent s) (started s) (fresh s).

Definition set_inputAudioContextRef (v : option nat) (s : Bridge) : Bridge :=
  Build_Bridge (streamRef s) v (outputAudioContextRef s) (sessionRef s)
    (nextStartTimeRef s) (videoIntervalRef s) (isConnected s) (error s)
    (cleaned s) (stopped s) (closed s) (intervals s) (processors s) (encoding
    s) (sent s) (started s) (fresh s).

Definition set_outputAudioContextRef (v : option nat) (s : Bridge) : Bridge :=
  Build_Bridge (streamRef s) (inputAudioContextRef s) v (sessionRef s)
    (nextStartTimeRef s) (videoIntervalRef s) (isConnected s) (error s)
    (cleaned s) (stopped s) (closed s) (intervals s) (processors s) (encoding
    s) (sent s) (started s) (fresh s).

Definition set_sessionRef (v : option nat) (s : Bridge) : Bridge :=
  Build_Bridge (streamRef s) (inputAudioContextRef s) (outputAudioContextRef
    s) v (nextStartTimeRef s) (videoIntervalRef s) (isConnected s) (error s)
    (cleaned s) (stopped s) (closed s) (intervals s) (processors s) (encoding
    s) (sent s) (started s) (fresh s).

Definition set_nextStartTimeRef (v : Q) (s : Bridge) : Bridge :=
  Build_Bridge (streamRef s) (inputAudioContextRef s) (outputAudioContextRef
    s) (sessionRef s) v (videoIntervalRef s) (isConnected s) (error s)
    (cleaned s) (stopped s) (closed s) (intervals s) (processors s) (encoding
    s) (sent s) (started s) (fresh s).

Definition set_videoIntervalRef (v : nat) (s : Bridge) : Bridge :=
  Build_Bridge (streamRef s) (inputAudioContextRef s) (outputAudioContextRef
    s) (sessionRef s) (nextStartTimeRef s) v (isConnected s) (error s)
    (cleaned s) (stopped s) (closed s) (intervals s) (processors s) (encoding
    s) (sent s) (started s) (fresh s).

Definition set_isConnected (v : bool) (s : Bridge) : Bridge :=
  Build_Bridge (streamRef s) (inputAudioContextRef s) (outputAudioContextRef
    s) (sessionRef s) (nextStartTimeRef s) (videoIntervalRef s) v (error s)
    (cleaned s) (stopped s) (closed s) (intervals s) (processors s) (encoding
    s) (sent s) (started s) (fresh s).

Definition set_error (v : option string) (s : Bridge) : Bridge :=
  Build_Bridge (streamRef s) (inputAudioContextRef s) (outputAudioContextRef
    s) (sessionRef s) (nextStartTimeRef s) (videoIntervalRef s) (isConnected
    s) v (cleaned s) (stopped s) (closed s) (intervals s) (processors s)
    (encoding s) (sent s) (started s) (fresh s).

Definition set_cleaned (v : list nat) (s : Bridge) : Bridge :=
  Build_Bridge (streamRef s) (inputAudioContextRef s) (outputAudioContextRef
    s) (sessionRef s) (nextStartTimeRef s) (videoIntervalRef s) (isConnected
    s) (error s) v (stopped s) (closed s) (intervals s) (processors s)
    (encoding s) (sent s) (started s) (fresh s).

Definition set_stopped (v : list nat) (s : Bridge) : Bridge :=
  Build_Bridge (streamRef s) (inputAudioContextRef s) (outputAudioContextRef
    s) (sessionRef s) (nextStartTimeRef s) (videoIntervalRef s) (isConnected
    s) (error s) (cleaned s) v (closed s) (intervals s) (processors s)
    (encoding s) (sent s) (started s) (fresh s).

Definition set_closed (v : list nat) (s : Bridge) : Bridge :=
  Build_Bridge (streamRef s) (inputAudioContextRef s) (outputAudioContextRef
    s) (sessionRef s) (nextStartTimeRef s) (videoIntervalRef s) (isConnected
    s) (error s) (cleaned s) (stopped s) v (intervals s) (processors s)
    (encoding s) (sent s) (started s) (fresh s).

Definition set_intervals (v : list (nat * nat)) (s : Bridge) : Bridge :=
  Build_Bridge (streamRef s) (inputAudioContextRef s) (outputAudioContextRef
    s) (sessionRef s) (nextStartTimeRef s) (videoIntervalRef s) (isConnected
    s) (error s) (cleaned s) (stopped s) (closed s) v (processors s) (encoding
    s) (sent s) (started s) (fresh s).

Definition set_processors (v : list (nat * nat)) (s : Bridge) : Bridge :=
  Build_Bridge (streamRef s) (inputAudioContextRef s) (outputAudioContextRef
    s) (sessionRef s) (nextStartTimeRef s) (videoIntervalRef s) (isConnected
    s) (error s) (cleaned s) (stopped s) (closed s) (intervals s) v (encoding
    s) (sent s) (started s) (fresh s).

Definition set_encoding (v : list nat) (s : Bridge) : Bridge :=
  Build_Bridge (streamRef s) (inputAudioContextRef s) (outputAudioContextRef
    s) (sessionRef s) (nextStartTimeRef s) (videoIntervalRef s) (isConnected
    s) (error s) (cleaned s) (stopped s) (closed s) (intervals s) (processors
    s) v (sent s) (started s) (fresh s).

Definition set_sent (v : list (nat * media)) (s : Bridge) : Bridge :=
  Build_Bridge (streamRef s) (inputAudioContextRef s) (outputAudioContextRef
    s) (sessionRef s) (nextStartTimeRef s) (videoIntervalRef s) (isConnected
    s) (error s) (cleaned s) (stopped s) (closed s) (intervals s) (processors
    s) (encoding s) v (started s) (fresh s).

Definition set_started (v : list (Q * Q)) (s : Bridge) : Bridge :=
  Build_Bridge (streamRef s) (inputAudioContextRef s) (outputAudioContextRef
    s) (sessionRef s) (nextStartTimeRef s) (videoIntervalRef s) (isConnected
    s) (error s) (cleaned s) (stopped s) (closed s) (intervals s) (processors
    s) (encoding s) (sent s) v (fresh s).

Definition set_fresh (v : nat) (s : Bridge) : Bridge :=
  Build_Bridge (streamRef s) (inputAudioContextRef s) (outputAudioContextRef
    s) (sessionRef s) (nextStartTimeRef s) (videoIntervalRef s) (isConnected
    s) (error s) (cleaned s) (stopped s) (closed s) (intervals s) (processors
    s) (encoding s) (sent s) (started s) v.

(** [Math.max] *)
Definition Math_max (a b : Q) : Q := if Qle_bool a b then b else a.

(** ** handleAudioData

    [now] is [outputAudioContext.currentTime] when the buffer is scheduled;
    [decoded] is the duration of the decoded buffer, or [None] when
    [decodeAudio] / [decodeAudioData] throw (the [catch] only logs). *)
Definition handleAudioData (now : Q) (decoded : option Q) (s : Bridge) : Bridge :=
  match outputAudioContextRef s with
  | None => s
  | Some _ =>
      match decoded with
      | None => s
      | Some duration =>
          let currentTime := now in
          let startTime := Math_max currentTime (nextStartTimeRef s) in
          set_nextStartTimeRef (startTime + duration)%Q
            (set_started (started s ++ [(startTime, duration)]) s)
      end
  end.

(** ** The session effect, one asynchronous step at a time *)

Inductive event : Type :=
| EffectRun (run : nat)
    (* mount, or [facingMode] changed: [initSession] up to [await getUserMedia] *)
| MediaGranted (run stream : nat)
    (* [getUserMedia] resolves: [initSession] up to [connectToLiveAPI] *)
| MediaDenied (run : nat)
    (* [getUserMedia] rejects *)
| SessionOpened (run session : nat)
    (* [sessionPromise] resolves *)
| AudioProcess (ctx : nat)
    (* the audio context [ctx] hands a chunk to its script processors *)
| VideoTick (h : nat) (ready : bool)
    (* the interval [h] is due; [ready]: video and canvas are there and the
       video has enough data *)
| BlobEncoded (ok : bool)
    (* the oldest [toBlob] in flight delivers its blob (or null) *)
| AudioData (now : Q) (decoded : option Q)
    (* [onmessage] with inline audio *)
| ToolCall (session : nat)
    (* [onmessage] with a [captureSnapshot] call *)
| TransportError
    (* [onerror] *)
| TransportClosed (run : nat)
    (* [onclose] *)
| Cleanup (run : nat).
    (* the function the effect returns: unmount, or [facingMode] changed *)

(** [if (ref.current) ref.current.<release>()], logged. *)
Definition release (r : option nat) (log : list nat) : list nat :=
  match r with
  | Some x => log ++ [x]
  | None => log
  end.

Definition step (e : event) (s : Bridge) : Bridge :=
  match e with
  | EffectRun _ =>
      (* startStream: the tracks of the stream still in the ref are stopped *)
      set_stopped (release (streamRef s) (stopped s)) s
  | MediaGranted _ stream =>
      (* no test of [cleanup] here: the refs are filled in any case *)
      let input := fresh s in
      let output := S (fresh s) in
      set_fresh (S (S (fresh s)))
        (set_outputAudioContextRef (Some output)
          (set_inputAudioContextRef (Some input)
            (set_streamRef (Some stream) s)))
  | MediaDenied _ =>
      set_error (Some "Camera/Mic Access Denied"%string) s
  | SessionOpened run session =>
      if existsb (Nat.eqb run) (cleaned s) then s
      else
        let h := fresh s in
        let s1 := set_isConnected true (set_sessionRef (Some session) s) in
        let s2 :=
          match inputAudioContextRef s1 with
          | Some ctx => set_processors (processors s1 ++ [(ctx, session)]) s1
          | None => s1
          end in
        set_fresh (S h)
          (set_intervals (intervals s2 ++ [(h, session)])
            (set_videoIntervalRef h s2))
  | AudioProcess ctx =>
      (* a closed context processes nothing *)
      if existsb (Nat.eqb ctx) (closed s) then s
      else
        match sessionRef s with
        | None => s
        | Some _ =>
            set_sent
              (sent s ++ map (fun p => (snd p, AudioChunk))
                             (filter (fun p => fst p =? ctx) (processors s))) s
        end
  | VideoTick h ready =>
      (* a cleared interval does not fire *)
      match filter (fun p => fst p =? h) (intervals s) with
      | [] => s
      | (_, session) :: _ =>
          match sessionRef s with
          | None => s
          | Some _ =>
              if ready then set_encoding (encoding s ++ [session]) s else s
          end
      end
  | BlobEncoded ok =>
      match encoding s with
      | [] => s
      | session :: rest =>
          let s1 := set_encoding rest s in
          if ok then set_sent (sent s1 ++ [(session, VideoFrame)]) s1 else s1
      end
  | AudioData now decoded => handleAudioData now decoded s
  | ToolCall session =>
      set_sent (sent s ++ [(session, ToolResponse)]) s
  | TransportError =>
      set_error (Some "Connection failed"%string) s
  | TransportClosed run =>
      if existsb (Nat.eqb run) (cleaned s) then s else set_isConnected false s
  | Cleanup run =>
      set_closed (release (outputAudioContextRef s)
                   (release (inputAudioContextRef s) (closed s)))
        (set_stopped (release (streamRef s) (stopped s))
          (set_intervals
             (filter (fun p => negb (fst p =? videoIntervalRef s)) (intervals s))
             (set_cleaned (cleaned s ++ [run]) s)))
  end.

Definition run (es : list event) (s : Bridge) : Bridge :=
  fold_left (fun s e => step e s) es s.

(** The component before its first effect runs. *)
Definition init : Bridge :=
  {| streamRef := None;
     inputAudioContextRef := None;
     outputAudioContextRef := None;
     sessionRef := None;
     nextStartTimeRef := 0;
     videoIntervalRef := 0;
     isConnected := false;
     error := None;
     cleaned := [];
     stopped := [];
     closed := [];
     intervals := [];
     processors := [];
     encoding := [];
     sent := [];
     started := [];
     fresh := 1 |}.

End LiveAudio.

(* ================================================================== *)
(** * App.tsx: the chat log; LiveAudio.tsx: the transcript window      *)
(* ================================================================== *)

Module Chat.

Inductive Role : Type := user | model | system.

(** [interface ChatMessage] *)
Record ChatMessage : Type := {
  id : jsstring;
  role : Role;
  text : jsstring;
  timestamp : N;
  isThinking : option bool;
  groundingUrls : option (list (option jsstring * jsstring))
}.

(** [{ id: Date.now().toString(), role, text, timestamp: Date.now() }] *)
Definition message (r : Role) (t : jsstring) (now_id now_ts : N) : ChatMessage :=
  {| id := toString now_id;
     role := r;
     text := t;
     timestamp := now_ts;
     isThinking := None;
     groundingUrls := None |}.

(** [String.prototype.trim]: white space and line terminators leave both
    ends. *)
Fixpoint trimStart (s : jsstring) : jsstring :=
  match s with
  | [] => []
  | c :: s' => if is_space c then trimStart s' else s
  end.

Definition trim (s : jsstring) : jsstring := rev (trimStart (rev (trimStart s))).

(** The chat part of the component state. *)
Record State : Type := {
  chatMessages : list ChatMessage;
  userInput : jsstring;
  isProcessing : bool
}.

(** The call [sendMessage(chatMessages, newMsg.text)] a submit makes. *)
Record Request : Type := {
  history : list ChatMessage;
  newMessage : jsstring
}.

(** [handleChatSubmit] up to the [await]: the new state and the request
    sent, if any.  The history handed over is the log of the render the
    handler belongs to, without the new message. *)
Definition handleChatSubmit (now_id now_ts : N) (s : State) : State * option Request :=
  if is_empty (trim (userInput s)) then (s, None)
  else
    let newMsg := message user (userInput s) now_id now_ts in
    ({| chatMessages := chatMessages s ++ [newMsg];
        userInput := [];
        isProcessing := true |},
     Some {| history := chatMessages s; newMessage := text newMsg |}).

(** How [await sendMessage(...)] ends: a rejection, or a result whose
    [text] may be undefined. *)
Inductive reply : Type :=
| Failed
| Answered (t : option jsstring).

(** [handleChatSubmit] after the [await]: [result.text], or the empty string in its place, is appended
    as the model's turn; the [catch] only logs; [finally] ends the
    processing state. *)
Definition settle (r : reply) (now_id now_ts : N) (s : State) : State :=
  {| chatMessages :=
       match r with
       | Answered t =>
           chatMessages s
             ++ [message model (match t with Some x => x | None => [] end) now_id now_ts]
       | Failed => chatMessages s
       end;
     userInput := userInput s;
     isProcessing := false |}.

(** The [onTranscript] prop given to [LiveAudio]. *)
Definition onTranscript (t : jsstring) (u : bool) (now_id now_ts : N) (s : State) : State :=
  {| chatMessages :=
       chatMessages s ++ [message (if u then user else model) t now_id now_ts];
     userInput := userInput s;
     isProcessing := isProcessing s |}.

(** [Array.prototype.slice(-n)]: the last [n] elements, or all of them. *)
Definition slice_last (A : Type) (n : nat) (l : list A) : list A :=
  skipn (List.length l - n) l.

(** An entry of the transcript window of [LiveAudio]. *)
Record Transcript : Type := {
  tr_text : jsstring;
  isUser : bool
}.

(** [handleTranscript]: the updater of the window, then the propagation to
    the main app. *)
Definition handleTranscript (t : Transcript) (now_id now_ts : N)
                            (w : list Transcript * State) : list Transcript * State :=
  (slice_last 4 (fst w) ++ [t],
   onTranscript (tr_text t) (isUser t) now_id now_ts (snd w)).

(** The events that touch the chat log. *)
Inductive event : Type :=
| Type_ (input : jsstring)                       (* the input box *)
| Submit (now_id now_ts : N)                     (* the form is submitted *)
| Settle (r : reply) (now_id now_ts : N)         (* a request comes back *)
| Heard (t : Transcript) (now_id now_ts : N).    (* a live transcript arrives *)

Definition step (e : event) (w : list Transcript * State) : list Transcript * State :=
  match e with
  | Type_ input =>
      (fst w, {| chatMessages := chatMessages (snd w);
                 userInput := input;
                 isProcessing := isProcessing (snd w) |})
  | Submit now_id now_ts =>
      (* the submit button is [disabled={isProcessing}] *)
      if isProcessing (snd w) then w
      else (fst w, fst (handleChatSubmit now_id now_ts (snd w)))
  | Settle r now_id now_ts => (fst w, settle r now_id now_ts (snd w))
  | Heard t now_id now_ts => handleTranscript t now_id now_ts w
  end.

Definition run (es : list event) (w : list Transcript * State) : list Transcript * State :=
  fold_left (fun w e => step e w) es w.

Definition init : list Transcript * State :=
  ([], {| chatMessages := []; userInput := []; isProcessing := false |}).

End Chat.

(* ================================================================== *)
(** * App.tsx: the playback effect                                     *)
(* ================================================================== *)

Module Playback.

(** [images.findIndex(img => img.id === selectedImage.id)] *)
Fixpoint findIndex (i : jsstring) (images : list CapturedImage) : option nat :=
  match images with
  | [] => None
  | img :: rest =>
      if jsstring_eqb (Types.id img) i then Some 0%nat
      else option_map S (findIndex i rest)
  end.

(** The index the effect starts from: that of the selected image, and 0
    when nothing is selected or the selection is not in the list. *)
Definition start (images : list CapturedImage) (selectedImage : option CapturedImage) : nat :=
  match selectedImage with
  | Some sel =>
      match findIndex (Types.id sel) images with
      | Some idx => idx
      | None => 0%nat
      end
  | None => 0%nat
  end.

(** One run of the interval callback: [setSelectedImage(images[idx])], then
    [idx = (idx + 1) % images.length]. *)
Definition advance (images : list CapturedImage) (idx : nat)
  : option CapturedImage * nat :=
  (nth_error images idx, ((idx + 1) mod List.length images)%nat).

(** The images shown by [n] runs of the callback from [idx]. *)
Fixpoint shown (images : list CapturedImage) (idx n : nat) : list (option CapturedImage) :=
  match n with
  | O => []
  | S n' =>
      let (img, idx') := advance images idx in
      img :: shown images idx' n'
  end.

(** The effect arms the interval only in playback mode, with images, and
    with auto-advance on (its period is [1000 / settings.playbackFps]);
    [playback ... n] is what the first [n] runs of the callback select. *)
Definition armed (playbackMode autoAdvance : bool) (images : list CapturedImage) : bool :=
  playbackMode && negb (List.length images =? 0)%nat && autoAdvance.

Definition playback (playbackMode autoAdvance : bool) (images : list CapturedImage)
                    (selectedImage : option CapturedImage) (n : nat)
  : list (option CapturedImage) :=
  if armed playbackMode autoAdvance images
  then shown images (start images selectedImage) n
  else [].

End Playback.

(* ================================================================== *)
(** * services/geminiService.ts: sendMessage                           *)
(* ================================================================== *)

Module GeminiChat.

Local Open Scope string_scope.

Definition MODEL_CHAT_PRO : string := "gemini-3-pro-preview".
Definition MODEL_SEARCH : string := "gemini-3-flash-preview".
Definition MODEL_MAPS : string := "gemini-2.5-flash".

Inductive Tool : Type := googleSearch | googleMaps.

Record Location : Type := { lat : Q; lng : Q }.

Record LatLng : Type := { latitude : Q; longitude : Q }.

(** The [config] object handed to [ai.chats.create]; an absent key is
    [None]. *)
Record Config : Type := {
  thinkingBudget : option N;        (* [thinkingConfig.thinkingBudget] *)
  tools : option (list Tool);
  toolConfig : option LatLng;       (* [toolConfig.retrievalConfig.latLng] *)
  systemInstruction : string
}.

Record Content : Type := {
  co_role : string;
  parts : list jsstring
}.

(** What [sendMessage] hands to the SDK: the arguments of
    [ai.chats.create] and of [chat.sendMessage]. *)
Record ChatRequest : Type := {
  model : string;
  config : Config;
  history : list Content;
  message : jsstring
}.

(** The role strings of [ChatMessage]. *)
Definition role_name (r : Chat.Role) : string :=
  match r with
  | Chat.user => "user"
  | Chat.model => "model"
  | Chat.system => "system"
  end.

Definition SYSTEM_INSTRUCTION : string :=
  "You are Gaia, an expert AI botanist. You monitor plant growth, diagnose health issues, and offer gardening advice.".

Definition sendMessage (history : list Chat.ChatMessage) (newMessage : jsstring)
                       (useThinking useSearch useMaps : bool)
                       (location : option Location) : ChatRequest :=
  let '(modelName, budget, tls, tcfg) :=
    if useThinking then (MODEL_CHAT_PRO, Some 32768%N, None, None)
    else if useSearch then (MODEL_SEARCH, None, Some [googleSearch], None)
    else if useMaps then
      (MODEL_MAPS, None, Some [googleMaps],
       match location with
       | Some l => Some {| latitude := lat l; longitude := lng l |}
       | None => None
       end)
    else (MODEL_CHAT_PRO, None, None, None) in
  {| model := modelName;
     config := {| thinkingBudget := budget;
                  tools := tls;
                  toolConfig := tcfg;
                  systemInstruction := SYSTEM_INSTRUCTION |};
     history :=
       map (fun h =>
              {| co_role := if String.eqb (role_name (Chat.role h)) "model"
                            then "model" else "user";
                 parts := [Chat.text h] |})
           history;
     message := newMessage |}.

(** The call made by [handleChatSubmit]: the four optional parameters take
    their defaults. *)
Definition chat_request (r : Chat.Request) : ChatRequest :=
  sendMessage (Chat.history r) (Chat.newMessage r) false false false None.

End GeminiChat.

(* ================================================================== *)
(** * services/geminiService.ts: PCM audio and data URLs               *)
(* ================================================================== *)

Module GeminiPcm.

Import GeminiService.

(** Numbers are exact rationals; a [Float32Array] entry is one of them.
    Storing a number into an [Int16Array] applies [ToInt16]: truncation
    towards zero, then wrap-around modulo 2^16 into [-2^15, 2^15). *)
Definition truncate (x : Q) : Z :=
  if Qle_bool 0 x then Qfloor x else Qceiling x.

Definition ToInt16 (x : Q) : Z :=
  let int16bit := (truncate x mod 65536)%Z in
  if (32768 <=? int16bit)%Z then (int16bit - 65536)%Z else int16bit.

(** [new Uint8Array(int16.buffer)]: two bytes per sample in two's
    complement, low byte first (the byte order of the platforms the
    application runs on). *)
Definition int16_bytes (v : Z) : list byte :=
  let u := (v mod 65536)%Z in
  [to_uint8 (Z.to_N (u mod 256)); to_uint8 (Z.to_N (u / 256))].

Definition int16_of_bytes (lo hi : byte) : Z :=
  let u := (Z.of_N (Byte.to_N lo) + 256 * Z.of_N (Byte.to_N hi))%Z in
  if (32768 <=? u)%Z then (u - 65536)%Z else u.

(** [new Int16Array(data.buffer)]: a [RangeError] when the byte length is
    odd. *)
Fixpoint Int16Array_of (data : list byte) : option (list Z) :=
  match data with
  | [] => Some []
  | lo :: hi :: rest => option_map (cons (int16_of_bytes lo hi)) (Int16Array_of rest)
  | [_] => None
  end.

Record PcmBlob : Type := {
  data : jsstring;
  mimeType : jsstring
}.

(** [createPcmBlob]: [int16[i] = data[i] * 32768], then the bytes of the
    buffer through [encodeAudio]. *)
Definition createPcmBlob (samples : list Q) : option PcmBlob :=
  let int16 := map (fun x => ToInt16 (x * 32768)) samples in
  match encodeAudio (flat_map int16_bytes int16) with
  | Some base64 => Some {| data := base64; mimeType := lit "audio/pcm;rate=16000" |}
  | None => None
  end.

(** A [Uint8Array] is a window onto an [ArrayBuffer]: [byteLength] bytes
    from [byteOffset] on.  An array made by [new Uint8Array(len)], as
    [decodeAudio] makes it, owns its buffer and spans all of it. *)
Record Uint8Array : Type := {
  buffer : list byte;
  byteOffset : nat;
  byteLength : nat
}.

Definition Uint8Array_of (bytes : list byte) : Uint8Array :=
  {| buffer := bytes; byteOffset := 0%nat; byteLength := List.length bytes |}.

(** What [createBuffer] reads of an [AudioContext]: the channel counts and
    the sample rates the implementation supports.  The Web Audio API
    requires every implementation to support up to 32 channels and the
    rates from 8000 to 96000 Hz; beyond that the range is its own. *)
Record AudioContext : Type := {
  maxChannels : nat;
  minRate : Q;
  maxRate : Q;
  supports_channels : (32 <= maxChannels)%nat;
  supports_rates : 0 < minRate /\ minRate <= 8000 /\ 96000 <= maxRate
}.

(** An [AudioBuffer]: [channelData] holds one list of samples per
    channel. *)
Record AudioBuffer : Type := {
  numberOfChannels : nat;
  length : nat;
  sampleRate : Q;
  channelData : list (list Q)
}.

Definition duration (b : AudioBuffer) : Q :=
  inject_Z (Z.of_nat (length b)) / sampleRate b.

(** [ctx.createBuffer]: a silent buffer, or a [NotSupportedError] when
    there is no channel or no frame, or when the channel count or the rate
    is outside the range the context supports. *)
Definition createBuffer (ctx : AudioContext) (numberOfChannels length : nat)
                        (sampleRate : Q) : option AudioBuffer :=
  if (1 <=? numberOfChannels)%nat && (numberOfChannels <=? maxChannels ctx)%nat
     && (1 <=? length)%nat
     && Qle_bool (minRate ctx) sampleRate && Qle_bool sampleRate (maxRate ctx)
  then Some {| numberOfChannels := numberOfChannels;
               length := length;
               sampleRate := sampleRate;
               channelData := repeat (repeat 0 length) numberOfChannels |}
  else None.

(** [decodeAudioData].  The samples are read from the whole of
    [data.buffer], whatever window [data] is, then de-interleaved and
    scaled by 1/32768 into the buffer [createBuffer] made.  [frameCount]
    is the quotient rounded down, as [createBuffer] rounds its length; the
    one further round of the loops that a fractional quotient allows
    writes past the end of the channel, which does nothing. *)
Definition decodeAudioData (data : Uint8Array) (ctx : AudioContext)
                           (sampleRate : Q) (numChannels : nat)
  : option AudioBuffer :=
  match Int16Array_of (buffer data) with
  | None => None
  | Some dataInt16 =>
      let frameCount := (List.length dataInt16 / numChannels)%nat in
      match createBuffer ctx numChannels frameCount sampleRate with
      | None => None
      | Some _ =>
          Some {| numberOfChannels := numChannels;
                  length := frameCount;
                  sampleRate := sampleRate;
                  channelData :=
                    map (fun channel =>
                           map (fun i =>
                                  inject_Z (nth (i * numChannels + channel) dataInt16 0%Z)
                                  / 32768)
                               (seq 0 frameCount))
                        (seq 0 numChannels) |}
      end
  end.

(** The call in [handleAudioData]: [decodeAudioData(decodeAudio(base64), ctx)]
    with the default rate and channel count; [None] when either throws. *)
Definition decode (ctx : AudioContext) (base64 : jsstring) : option AudioBuffer :=
  match decodeAudio base64 with
  | Some audioBytes => decodeAudioData (Uint8Array_of audioBytes) ctx 24000 1
  | None => None
  end.

(** [String.prototype.split] with a one-character separator. *)
Fixpoint split (sep : N) (s : jsstring) : list jsstring :=
  match s with
  | [] => [[]]
  | c :: s' =>
      if (c =? sep)%N then [] :: split sep s'
      else
        match split sep s' with
        | piece :: rest => (c :: piece) :: rest
        | [] => [[c]]
        end
  end.

(** [base64Data.split(',')[1]] in [analyzeImage], [result.split(',')[1]] in
    [blobToBase64]: undefined when there is no comma. *)
Definition payload (dataUrl : jsstring) : option jsstring :=
  nth_error (split 44 dataUrl) 1.

End GeminiPcm.

(* ================================================================== *)
(** * services/geminiService.ts: the live message handler              *)
(* ================================================================== *)

Module GeminiLive.

Record FunctionCall : Type := {
  fc_id : jsstring;
  fc_name : jsstring
}.

(** The parts of a [LiveServerMessage] the handler reads; each is [None]
    when a link of its optional chain is missing.  A [toolCall] without
    [functionCalls] makes the loop throw before any call is made, which is
    the empty list here. *)
Record LiveServerMessage : Type := {
  inlineData : option jsstring;           (* [serverContent.modelTurn.parts[0].inlineData.data] *)
  outputTranscription : option jsstring;  (* [serverContent.outputTranscription.text] *)
  inputTranscription : option jsstring;   (* [serverContent.inputTranscription.text] *)
  toolCall : option (list FunctionCall)   (* [toolCall.functionCalls] *)
}.

(** The calls the handler makes. *)
Inductive action : Type :=
| OnAudioData (base64 : jsstring)
| OnTranscript (text : jsstring) (isUser : bool)
| OnCaptureTrigger
| SendToolResponse (id name result : jsstring).

(** A string test [if (x)]: undefined and the empty string are falsy. *)
Definition truthy (x : option jsstring) : option jsstring :=
  match x with
  | Some s => if is_empty s then None else Some s
  | None => None
  end.

Definition answer (hasCaptureTrigger : bool) (fc : FunctionCall) : list action :=
  if jsstring_eqb (fc_name fc) (lit "captureSnapshot") then
    (if hasCaptureTrigger then [OnCaptureTrigger] else [])
    ++ [SendToolResponse (fc_id fc) (fc_name fc) (lit "Snapshot captured successfully.")]
  else [].

(** [onmessage]; [hasCaptureTrigger] tells whether [onCaptureTrigger] was
    given. *)
Definition onmessage (hasCaptureTrigger : bool) (m : LiveServerMessage) : list action :=
  match truthy (inlineData m) with Some a => [OnAudioData a] | None => [] end
  ++ match truthy (outputTranscription m) with Some t => [OnTranscript t false] | None => [] end
  ++ match truthy (inputTranscription m) with Some t => [OnTranscript t true] | None => [] end
  ++ match toolCall m with
     | Some functionCalls => flat_map (answer hasCaptureTrigger) functionCalls
     | None => []
     end.

End GeminiLive.

(* ================================================================== *)
(** * components/CameraFeed.tsx: zoom and pan                          *)
(* ================================================================== *)

Module Optics.

Record Point : Type := { x : Q; y : Q }.

(** The pan and zoom state; numbers are exact rationals (the wheel factor
    [0.001] is 1/1000). *)
Record State : Type := {
  zoom : Q;
  pan : Point;
  isDragging : bool;
  dragStart : Point
}.

Definition init : State :=
  {| zoom := 1;
     pan := {| x := 0; y := 0 |};
     isDragging := false;
     dragStart := {| x := 0; y := 0 |} |}.

Definition Math_max (a b : Q) : Q := if Qle_bool a b then b else a.
Definition Math_min (a b : Q) : Q := if Qle_bool a b then a else b.

(** [a > b] *)
Definition gt (a b : Q) : bool := negb (Qle_bool a b).

Definition setZoom (f : Q -> Q) (s : State) : State :=
  {| zoom := f (zoom s); pan := pan s;
     isDragging := isDragging s; dragStart := dragStart s |}.

Definition handleWheel (active : bool) (deltaY : Q) (s : State) : State :=
  if negb active then s
  else
    let delta := - deltaY * (1 # 1000) in
    setZoom (fun z => Math_min (Math_max 1 (z + delta)) 5) s.

Definition handleMouseDown (clientX clientY : Q) (s : State) : State :=
  if gt (zoom s) 1 then
    {| zoom := zoom s; pan := pan s;
       isDragging := true;
       dragStart := {| x := clientX - x (pan s); y := clientY - y (pan s) |} |}
  else s.

Definition handleMouseMove (clientX clientY : Q) (s : State) : State :=
  if isDragging s && gt (zoom s) 1 then
    {| zoom := zoom s;
       pan := {| x := clientX - x (dragStart s); y := clientY - y (dragStart s) |};
       isDragging := isDragging s; dragStart := dragStart s |}
  else s.

Definition handleMouseUp (s : State) : State :=
  {| zoom := zoom s; pan := pan s; isDragging := false; dragStart := dragStart s |}.

(** What the pointer can do to the feed.  The three buttons sit in the zoom
    hub, which is rendered while the feed is active and shows no error; a
    disabled or unrendered button does nothing. *)
Inductive event : Type :=
| Wheel (deltaY : Q)
| MouseDown (clientX clientY : Q)
| MouseMove (clientX clientY : Q)
| MouseUp
| MouseLeave
| ClickZoomIn
| ClickZoomOut
| ClickReset.

Definition step (active errored : bool) (e : event) (s : State) : State :=
  let hub := active && negb errored in
  match e with
  | Wheel deltaY => handleWheel active deltaY s
  | MouseDown cx cy => handleMouseDown cx cy s
  | MouseMove cx cy => handleMouseMove cx cy s
  | MouseUp | MouseLeave => handleMouseUp s
  | ClickZoomIn =>
      (* [disabled={zoom >= 5}] *)
      if hub && negb (Qle_bool 5 (zoom s))
      then setZoom (fun z => Math_min 5 (z + (1 # 2))) s else s
  | ClickZoomOut =>
      (* [disabled={zoom <= 1}] *)
      if hub && negb (Qle_bool (zoom s) 1)
      then setZoom (fun z => Math_max 1 (z - (1 # 2))) s else s
  | ClickReset =>
      (* rendered under [zoom > 1] *)
      if hub && gt (zoom s) 1
      then {| zoom := 1; pan := {| x := 0; y := 0 |};
              isDragging := isDragging s; dragStart := dragStart s |}
      else s
  end.

(** An event together with the [active] prop and the presence of an error
    at the time it happens. *)
Definition run (es : list (bool * bool * event)) (s : State) : State :=
  fold_left (fun s e => step (fst (fst e)) (snd (fst e)) (snd e) s) es s.

End Optics.

(* ================================================================== *)
(** * components/CameraFeed.tsx: the stream over time                  *)
(* ================================================================== *)

Module CameraStream.

Import CameraFeed.

(** One instance of the component, from its mount to its unmount and
    after.  [video] is [videoRef.current]: [None] while no video element is
    rendered (the error panel is shown, or the component is unmounted),
    else the element with its [srcObject].  [released] logs the streams
    whose tracks were stopped. *)
Record State : Type := {
  mounted : bool;
  error : option CameraError;
  isInitializing : bool;
  hasTorch : bool;
  video : option (option nat);
  released : list nat
}.

(** The stream the video element shows, if there is an element and it
    shows one. *)
Definition srcObject (s : State) : option nat :=
  match video s with
  | Some (Some stream) => Some stream
  | _ => None
  end.

(** React renders again once a handler or a continuation has run, so
    before a pending [getUserMedia] settles: the video element is there
    exactly while the component is mounted and has no error, and an element
    that is rendered anew shows nothing. *)
Definition rerender (s : State) : State :=
  {| mounted := mounted s;
     error := error s;
     isInitializing := isInitializing s;
     hasTorch := hasTorch s;
     video :=
       match error s with
       | None =>
           if mounted s then
             match video s with
             | Some v => Some v
             | None => Some None
             end
           else None
       | Some _ => None
       end;
     released := released s |}.

(** [startCamera] up to [await getUserMedia]: the tracks of the stream in
    the video element are stopped, if there is an element and it has
    one. *)
Definition startCamera_begin (s : State) : State :=
  rerender
    {| mounted := mounted s;
       error := None;
       isInitializing := true;
       hasTorch := hasTorch s;
       video := video s;
       released :=
         match srcObject s with
         | Some old => (released s ++ [old])%list
         | None => released s
         end |}.

(** [startCamera] from the point where [getUserMedia] settles: a granted
    stream is attached if there is a video element, and dropped as it is
    otherwise. *)
Definition startCamera_end (a : acquisition) (s : State) : State :=
  rerender
    match a with
    | Granted stream torch =>
        {| mounted := mounted s;
           error := error s;
           isInitializing := false;
           hasTorch := torch;
           video :=
             match video s with
             | Some _ => Some (Some stream)
             | None => None
             end;
           released := released s |}
    | Thrown name =>
        {| mounted := mounted s;
           error := Some (classify name);
           isInitializing := false;
           hasTorch := hasTorch s;
           video := video s;
           released := released s |}
    end.

(** The effect on [active], inactive branch: the tracks of the current
    stream are stopped and the video element is emptied. *)
Definition deactivate (s : State) : State :=
  match srcObject s with
  | Some stream =>
      {| mounted := mounted s;
         error := error s;
         isInitializing := isInitializing s;
         hasTorch := hasTorch s;
         video := Some None;
         released := (released s ++ [stream])%list |}
  | None => s
  end.

(** The component is unmounted, as [App] does while it shows a playback
    frame.  The effect returns no cleanup: nothing is stopped, and the
    video element goes with whatever it shows. *)
Definition unmount (s : State) : State :=
  rerender
    {| mounted := false;
       error := error s;
       isInitializing := isInitializing s;
       hasTorch := hasTorch s;
       video := video s;
       released := released s |}.

Inductive event : Type :=
| Begin                      (* the effect, or the retry button, calls [startCamera] *)
| End_ (a : acquisition)     (* a pending [getUserMedia] settles *)
| Deactivate                 (* the effect runs with [active] false *)
| Unmount.                   (* the component leaves the tree *)

(** After the unmount no effect and no button is left to run, the state
    setters do nothing and [videoRef.current] is null, so a call that
    settles then changes nothing and its stream is dropped as it is. *)
Definition step (e : event) (s : State) : State :=
  if mounted s then
    match e with
    | Begin => startCamera_begin s
    | End_ a => startCamera_end a s
    | Deactivate => deactivate s
    | Unmount => unmount s
    end
  else s.

Definition run (es : list event) (s : State) : State :=
  fold_left (fun s e => step e s) es s.

(** The component at mount: the video element is rendered and empty. *)
Definition init : State :=
  {| mounted := true; error := None; isInitializing := false; hasTorch := false;
     video := Some None; released := [] |}.

End CameraStream.

(* ================================================================== *)
(** * App.tsx: the timeline over time; Timeline.tsx: the cards         *)
(* ================================================================== *)

Module Store.

Import App.

(** What changes [images]: a capture appends, the analysis of an earlier
    capture comes back, the purge button empties the list. *)
Inductive event : Type :=
| Capture (f : Frame)
| Analysed (f : Frame) (r : analysis_result)
| Purge.

Definition step (e : event) (images : list CapturedImage) : list CapturedImage :=
  match e with
  | Capture f => capture_begin f images
  | Analysed f r =>
      match captured f with
      | Some img => capture_finish img r images
      | None => images
      end
  | Purge => purge images
  end.

Definition run (es : list event) (images : list CapturedImage) : list CapturedImage :=
  fold_left (fun images e => step e images) es images.

End Store.

Module TimelineView.

Import Timeline.

Inductive StageIcon : Type := Sprout | Flower | Sun | Leaf | HelpCircle.

Section Render.

Variable toLowerCase : jsstring -> jsstring.

(** [getStageIcon]; [None] is the [null] returned for a missing or empty
    stage. *)
Definition getStageIcon (stage : option jsstring) : option StageIcon :=
  match stage with
  | None => None
  | Some st =>
      if is_empty st then None
      else
        let s := toLowerCase st in
        if includes s (lit "germinat") || includes s (lit "seed")
           || includes s (lit "sprout") then Some Sprout
        else if includes s (lit "flower") || includes s (lit "bloom")
                || includes s (lit "bud") then Some Flower
        else if includes s (lit "fruit") || includes s (lit "harvest")
                || includes s (lit "mature") then Some Sun
        else if includes s (lit "veg") || includes s (lit "leaf") then Some Leaf
        else Some HelpCircle
  end.

(** One card of the strip (the time label, a locale rendering of
    [img.timestamp], is left out). *)
Record Card : Type := {
  key : jsstring;                         (* [key={img.id}] *)
  selects : CapturedImage;                (* [onClick={() => onSelect(img)}] *)
  color : string;                         (* [getHealthColor(img)] *)
  src : jsstring;                         (* [src={img.dataUrl}] *)
  analysed : bool;                        (* the analysis indicator *)
  stageBadge : option (option StageIcon); (* the stage badge and its icon *)
  label : jsstring                        (* [ID-{img.id.slice(-4)}] *)
}.

Definition card (img : CapturedImage) : Card :=
  {| key := Types.id img;
     selects := img;
     color := getHealthColor toLowerCase img;
     src := dataUrl img;
     analysed :=
       match analysis img with
       | Some a => negb (is_empty a)
       | None => false
       end;
     stageBadge :=
       match growthStage img with
       | Some st => if is_empty st then None else Some (getStageIcon (growthStage img))
       | None => None
       end;
     label := lit "ID-" ++ Chat.slice_last 4 (Types.id img) |}.

(** The component: the placeholder for an empty list, else the cards of
    [[...images].reverse()]. *)
Inductive view : Type :=
| NoSnapshots
| Strip (cards : list Card).

Definition render (images : list CapturedImage) : view :=
  if (List.length images =? 0)%nat then NoSnapshots
  else Strip (map card (rev images)).

End Render.

End TimelineView.

(* ================================================================== *)
(** * App.tsx: live feed or playback frame                             *)
(* ================================================================== *)

Module Viewer.

Import App.

(** The state the main panel depends on. *)
Record State : Type := {
  images : list CapturedImage;
  selectedImage : option CapturedImage;
  playbackMode : bool;
  autoAdvance : bool
}.

(** The main panel: [playbackMode && selectedImage ? <img .../> : <CameraFeed .../>]. *)
Inductive panel : Type :=
| SelectedFrame (img : CapturedImage)
| LiveFeed.

Definition render (s : State) : panel :=
  if playbackMode s then
    match selectedImage s with
    | Some img => SelectedFrame img
    | None => LiveFeed
    end
  else LiveFeed.

(** [cameraRef.current] is the handle of the mounted [CameraFeed]; it is
    null while the panel shows a frame. *)
Definition cameraRef_set (s : State) : bool :=
  match render s with
  | LiveFeed => true
  | SelectedFrame _ => false
  end.

Definition set_images (l : list CapturedImage) (s : State) : State :=
  {| images := l; selectedImage := selectedImage s;
     playbackMode := playbackMode s; autoAdvance := autoAdvance s |}.

Inductive event : Type :=
| ClickPlayback                 (* the Playback button *)
| ClickCard (k : nat)           (* the k-th card of the timeline strip *)
| PlaybackTick (idx : nat)      (* the playback interval runs, at index [idx] *)
| Capture (f : Frame)           (* [captureAndProcess] is called: timer, button or voice *)
| Analysed (f : Frame) (r : analysis_result)
| Purge                         (* Purge Data, confirmed *)
| ToggleAutoAdvance.            (* the settings switch *)

Definition step (e : event) (s : State) : State :=
  match e with
  | ClickPlayback =>
      (* [images.length > 0 && setPlaybackMode(!playbackMode)] *)
      if (List.length (images s) =? 0)%nat then s
      else {| images := images s; selectedImage := selectedImage s;
              playbackMode := negb (playbackMode s); autoAdvance := autoAdvance s |}
  | ClickCard k =>
      (* [onSelect]: [setPlaybackMode(false); setSelectedImage(img)] *)
      match nth_error (rev (images s)) k with
      | Some img =>
          {| images := images s; selectedImage := Some img;
             playbackMode := false; autoAdvance := autoAdvance s |}
      | None => s
      end
  | PlaybackTick idx =>
      (* the interval exists only while the effect is armed, and its index
         stays within the list *)
      if Playback.armed (playbackMode s) (autoAdvance s) (images s) then
        match nth_error (images s) idx with
        | Some img =>
            {| images := images s; selectedImage := Some img;
               playbackMode := playbackMode s; autoAdvance := autoAdvance s |}
        | None => s
        end
      else s
  | Capture f =>
      (* [if (cameraRef.current) { ... }] *)
      if cameraRef_set s then set_images (capture_begin f (images s)) s else s
  | Analysed f r =>
      match captured f with
      | Some img => set_images (capture_finish img r (images s)) s
      | None => s
      end
  | Purge => set_images (purge (images s)) s
  | ToggleAutoAdvance =>
      {| images := images s; selectedImage := selectedImage s;
         playbackMode := playbackMode s; autoAdvance := negb (autoAdvance s) |}
  end.

Definition run (es : list event) (s : State) : State :=
  fold_left (fun s e => step e s) es s.

Definition init : State :=
  {| images := []; selectedImage := None; playbackMode := false; autoAdvance := true |}.

End Viewer.

(* ================================================================== *)
(** * Specification vocabulary                                         *)
(* ================================================================== *)

(** ** The language of a regular expression *)

Inductive matches : re -> jsstring -> Prop :=
| M_Eps : matches Eps []
| M_Chr p c : p c = true -> matches (Chr p) [c]
| M_Seq a b u v : matches a u -> matches b v -> matches (Seq a b) (u ++ v)
| M_AltL a b u : matches a u -> matches (Alt a b) u
| M_AltR a b u : matches b u -> matches (Alt a b) u
| M_StarNil a : matches (Star a) []
| M_StarCons a u v :
    matches a u -> matches (Star a) v -> matches (Star a) (u ++ v)
| M_Group a u : matches a u -> matches (Group a) u.

(** The same with the capturing group: [matching r w cap cap'] when [r]
    matches [w] and turns the capture [cap] into [cap']. *)
Inductive matching : re -> jsstring -> option jsstring -> option jsstring -> Prop :=
| MC_Eps c : matching Eps [] c c
| MC_Chr p x c : p x = true -> matching (Chr p) [x] c c
| MC_Seq a b u v c c1 c2 :
    matching a u c c1 -> matching b v c1 c2 -> matching (Seq a b) (u ++ v) c c2
| MC_AltL a b u c c1 : matching a u c c1 -> matching (Alt a b) u c c1
| MC_AltR a b u c c1 : matching b u c c1 -> matching (Alt a b) u c c1
| MC_StarNil a c : matching (Star a) [] c c
| MC_StarCons a u v c c1 c2 :
    matching a u c c1 -> matching (Star a) v c1 c2 ->
    matching (Star a) (u ++ v) c c2
| MC_Group a u c c1 : matching a u c c1 -> matching (Group a) u c (Some u).

Fixpoint group_free (r : re) : bool :=
  match r with
  | Eps | Chr _ => true
  | Seq a b | Alt a b => group_free a && group_free b
  | Star a => group_free a
  | Group _ => false
  end.

(** A continuation that accepts the rest [s] whatever was captured. *)
Definition total_at (A : Type) (k : jsstring -> option jsstring -> option A)
                    (s : jsstring) : Prop :=
  forall cap, k s cap <> None.

(** ** The bracket tags of the analysis text *)

(** [w] spells [word] up to the case of ASCII letters. *)
Definition spells (w : jsstring) (word : string) : Prop :=
  map upcase w = map upcase (lit word).

Definition spaces (w : jsstring) : Prop := Forall (fun c => is_space c = true) w.
Definition digits (w : jsstring) : Prop := Forall (fun c => is_digit c = true) w.

(** A health tag with value [v]: the keyword, optional white space, one of
    the three values, the closing bracket. *)
Definition health_tag_of (v w : jsstring) : Prop :=
  exists kw ws,
    w = kw ++ ws ++ v ++ lit "]" /\
    spells kw "[HEALTH:" /\ spaces ws /\
    (spells v "HEALTHY" \/ spells v "STRESSED" \/ spells v "CRITICAL").

Definition health_tag (w : jsstring) : Prop := exists v, health_tag_of v w.

(** A confidence tag with value [ds]: the keyword, optional white space, at
    least one digit, an optional percent sign, the closing bracket. *)
Definition confidence_tag_of (ds w : jsstring) : Prop :=
  exists kw ws pct,
    w = kw ++ ws ++ ds ++ pct ++ lit "]" /\
    spells kw "[CONFIDENCE:" /\ spaces ws /\
    ds <> [] /\ digits ds /\
    (pct = [] \/ pct = lit "%").

Definition confidence_tag (w : jsstring) : Prop := exists ds, confidence_tag_of ds w.

(** The status a value spells. *)
Definition status_of (v : jsstring) (st : HealthStatus) : Prop :=
  match st with
  | HEALTHY => spells v "HEALTHY"
  | STRESSED => spells v "STRESSED"
  | CRITICAL => spells v "CRITICAL"
  end.

(** [text] carries a tag somewhere. *)
Definition contains (tag : jsstring -> Prop) (text : jsstring) : Prop :=
  exists pre w suf, text = pre ++ w ++ suf /\ tag w.

(** ** The artifacts of a run of captures *)

(** Every artifact ever appended, in order, whatever is purged in between. *)
Definition appended (fs : list App.Frame) : list CapturedImage :=
  flat_map (fun f => match App.captured f with Some img => [img] | None => [] end) fs.

(** ** The error names [startCamera] tells apart *)

Definition permission_names (name : jsstring) : Prop :=
  name = lit "NotAllowedError" \/ name = lit "PermissionDeniedError".

Definition hardware_names (name : jsstring) : Prop :=
  name = lit "NotFoundError" \/ name = lit "DevicesNotFoundError".

(** ** Playback schedules *)

(** The inbound buffers, each with the clock reading at which it is
    scheduled and its duration, handed to [handleAudioData] in order. *)
Definition play (arrivals : list (Q * Q)) (s : LiveAudio.Bridge) : LiveAudio.Bridge :=
  fold_left (fun s a => LiveAudio.handleAudioData (fst a) (Some (snd a)) s) arrivals s.

(** [plays] answers [arrivals] from the watermark [wm] on: each buffer keeps
    its duration, starts neither before the watermark nor before it is
    there, and starts exactly at one of the two; the watermark then moves
    to its end. *)
Fixpoint well_scheduled (wm : Q) (arrivals plays : list (Q * Q)) : Prop :=
  match arrivals, plays with
  | [], [] => True
  | (now, d) :: arrivals', (start, d') :: plays' =>
      d' = d /\ wm <= start /\ now <= start /\
      (start == wm \/ start == now) /\
      well_scheduled (start + d) arrivals' plays'
  | _, _ => False
  end.

(** Every buffer ends before any later buffer starts. *)
Fixpoint no_overlap (plays : list (Q * Q)) : Prop :=
  match plays with
  | [] => True
  | (start, d) :: plays' =>
      Forall (fun p => start + d <= fst p) plays' /\ no_overlap plays'
  end.

(** ** The capture scheduler over time *)

Module SchedulerSpec.

Import Scheduler.

Local Open Scope N_scope.

(** [n] milliseconds pass, with the frames the camera would give. *)
Definition ticks (fs : list App.Frame) : list event := map Tick fs.

(** The period of the interval timer the effect arms, in milliseconds. *)
Definition period_ms (s : Sched) : N := delay_ms (intervalMs s).

Definition period_of (h : Q) : N := delay_ms (h * 60 * 60 * 1000)%Q.

Definition no_images (s : Sched) : bool := (List.length (images s) =? 0)%nat.

(** The one capture an activation with no images schedules 1000 ms ahead:
    it has run once [t] milliseconds have passed, if [t] is at least 1000. *)
Definition immediate (s0 : Sched) (t : N) : nat :=
  if no_images s0 && (1000 <=? t) then 1%nat else 0%nat.

Definition is_interval (t : timer) : bool :=
  match period t with Some _ => true | None => false end.

Definition is_timeout (t : timer) : bool := negb (is_interval t).

(** A timer table with at most one pending timeout, due in [r]
    milliseconds, and at most one interval, due in [d] with period [p]. *)
Definition table (c : N) (rem : option N) (iv : option (N * N)) (h0 h : nat)
  : list timer :=
  match rem with
  | Some r => [{| handle := h0; due := c + r; period := None |}]
  | None => []
  end ++
  match iv with
  | Some (d, p) => [{| handle := h; due := c + d; period := Some p |}]
  | None => []
  end.

Definition table_ok (rem : option N) (iv : option (N * N)) : Prop :=
  match rem with Some r => 1 <= r | None => True end /\
  match iv with Some (d, p) => 1 <= d /\ d <= p | None => True end.

Definition rem_after (n : N) (rem : option N) : option N :=
  match rem with
  | Some r => if r <=? n then None else Some (r - n)
  | None => None
  end.

Definition rem_calls (n : N) (rem : option N) : nat :=
  match rem with
  | Some r => if r <=? n then 1%nat else 0%nat
  | None => 0%nat
  end.

(** The interval [iv] has become [iv'] after [n] milliseconds and [k] runs. *)
Definition iv_after (n : N) (iv iv' : option (N * N)) (k : N) : Prop :=
  match iv, iv' with
  | Some (d, p), Some (d', p') => p' = p /\ k * p + (p - d') = n + (p - d)
  | None, None => k = 0
  | _, _ => False
  end.

End SchedulerSpec.

(** ** The live session over its events *)

Module LiveSpec.

Import LiveAudio.

Local Open Scope nat_scope.

(** A session that comes up in order: the effect runs, the media is
    granted, the remote session opens. *)
Definition opening (r st sess : nat) : list event :=
  [EffectRun r; MediaGranted r st; SessionOpened r sess].

(** What can happen while a session streams, short of a teardown or a new
    effect run. *)
Definition streaming_event (e : event) : bool :=
  match e with
  | AudioProcess _ | VideoTick _ _ | BlobEncoded _ | AudioData _ _
  | ToolCall _ | TransportError | TransportClosed _ => true
  | _ => false
  end.

(** What can still arrive after the cleanup of run [r], as long as no new
    effect run starts. *)
Definition late_event (r : nat) (e : event) : bool :=
  streaming_event e ||
  match e with
  | SessionOpened r' _ => r' =? r
  | _ => false
  end.

(** The sends of the two cadences ([sendRealtimeInput]). *)
Definition realtime (log : list (nat * media)) : list (nat * media) :=
  filter (fun x => match snd x with ToolResponse => false | _ => true end) log.

(** The shape of a streaming session: what the cleanup will have to undo. *)
Definition streaming (st sess : nat) (s : Bridge) : Prop :=
  streamRef s = Some st /\
  inputAudioContextRef s = Some 1 /\
  outputAudioContextRef s = Some 2 /\
  sessionRef s = Some sess /\
  videoIntervalRef s = 3 /\
  intervals s = [(3, sess)] /\
  processors s = [(1, sess)] /\
  stopped s = [] /\ closed s = [] /\ cleaned s = [].

(** The shape after the cleanup of run [r], with no frame in flight. *)
Definition torn_down (r sess : nat) (s : Bridge) : Prop :=
  intervals s = [] /\
  processors s = [(1, sess)] /\
  existsb (Nat.eqb 1) (closed s) = true /\
  existsb (Nat.eqb r) (cleaned s) = true /\
  encoding s = [].

End LiveSpec.

(** ** The chat log and the transcript window *)

Module ChatSpec.

Import Chat.

(** The transcripts an event list delivers, in order. *)
Definition heard (es : list event) : list Transcript :=
  flat_map (fun e => match e with Heard t _ _ => [t] | _ => [] end) es.

(** [m] is the chat message made from the transcript [t]. *)
Definition transcribes (t : Transcript) (m : ChatMessage) : Prop :=
  text m = tr_text t /\ role m = (if isUser t then user else model).

(** A message as the application builds it: a user or model turn without
    the optional fields. *)
Definition plain (m : ChatMessage) : Prop :=
  role m <> system /\ isThinking m = None /\ groundingUrls m = None.

End ChatSpec.


(** ** PCM audio *)

Module PcmSpec.

(** [d] is the sample [x] on the 16-bit grid, rounded towards zero. *)
Definition quantised (x d : Q) : Prop :=
  (0 <= x -> x - 1 / 32768 < d /\ d <= x) /\
  (x <= 0 -> x <= d /\ d < x + 1 / 32768).

(** A sample of a decoded buffer lies in [-1, 1). *)
Definition unit_sample (d : Q) : Prop := -1 <= d /\ d < 1.

(** The inbound audio: each message is answered by [handleAudioData] with
    the buffer [decodeAudio] and [decodeAudioData] make of it. *)
Definition receive (audio : GeminiPcm.AudioContext) (arrivals : list (Q * jsstring))
                   (s : LiveAudio.Bridge) : LiveAudio.Bridge :=
  fold_left
    (fun s a =>
       LiveAudio.handleAudioData (fst a)
         (option_map GeminiPcm.duration (GeminiPcm.decode audio (snd a))) s)
    arrivals s.

End PcmSpec.


(** ** The live message handler *)

Module LiveMessageSpec.

Import GeminiLive.

Definition functionCalls (m : LiveServerMessage) : list FunctionCall :=
  match toolCall m with Some calls => calls | None => [] end.

Definition is_capture (fc : FunctionCall) : bool :=
  jsstring_eqb (fc_name fc) (lit "captureSnapshot").

(** The tool responses among the calls made, as (id, name) pairs. *)
Definition tool_responses (acts : list action) : list (jsstring * jsstring) :=
  flat_map (fun a => match a with
                     | SendToolResponse i n _ => [(i, n)]
                     | _ => []
                     end) acts.

(** The number of invocations of the capture callback. *)
Definition capture_triggers (acts : list action) : nat :=
  List.length (filter (fun a => match a with OnCaptureTrigger => true | _ => false end)
                      acts).

(** The calls that concern the audio and the transcripts. *)
Definition media_actions (acts : list action) : list action :=
  filter (fun a => match a with
                   | OnAudioData _ | OnTranscript _ _ => true
                   | _ => false
                   end) acts.

End LiveMessageSpec.


(** ** Zoom and pan *)

Module OpticsSpec.

Import Optics.

(** A drag: the button goes down at [p0] and the pointer moves along
    [path]. *)
Definition drag (active errored : bool) (p0 : Point) (path : list Point) (s : State)
  : State :=
  run ((active, errored, MouseDown (x p0) (y p0))
         :: map (fun p => (active, errored, MouseMove (x p) (y p))) path) s.

(** An event of the pointer buttons and movement, not of the wheel or the
    zoom hub. *)
Definition is_mouse (e : event) : bool :=
  match e with
  | MouseDown _ _ | MouseMove _ _ | MouseUp | MouseLeave => true
  | _ => false
  end.

End OpticsSpec.

(** ** The camera stream over time *)

Module CameraStreamSpec.

Import CameraFeed CameraStream.

(** The streams [getUserMedia] handed out during [es]. *)
Definition granted (es : list event) : list nat :=
  flat_map (fun e => match e with End_ (Granted stream _) => [stream] | _ => [] end) es.

(** Event lists in which every call of [startCamera] settles before
    anything else happens, and the component stays mounted. *)
Fixpoint sequential (es : list event) : Prop :=
  match es with
  | [] => True
  | Begin :: End_ _ :: es' => sequential es'
  | Deactivate :: es' => sequential es'
  | _ => False
  end.

(** Every stream of [streams] is stopped or is the one the video element
    shows. *)
Definition accounted (streams : list nat) (s : State) : Prop :=
  Forall (fun stream => In stream (released s) \/ srcObject s = Some stream) streams.

(** The stream [stream] runs on with nothing left that refers to it. *)
Definition lost (stream : nat) (s : State) : Prop :=
  ~ In stream (released s) /\ srcObject s <> Some stream.

End CameraStreamSpec.


(** ** The timer table at any moment *)

Module SchedulerInv.

Import Scheduler SchedulerSpec.

Local Open Scope N_scope.

(** The timer table holds no interval while the scheduler is inactive and
    exactly one while it is active: the one [intervalRef] names, with the
    period of the current setting, due within one period. *)
Definition single_interval (s : Sched) : Prop :=
  if active s then
    exists h d,
      filter is_interval (timers s)
        = [{| handle := h; due := d; period := Some (period_ms s) |}] /\
      intervalRef s = Some h /\
      d <= clock s + period_ms s /\
      (1 <= period_ms s -> clock s < d)
  else filter is_interval (timers s) = [].

End SchedulerInv.


(** ** The timeline over time *)

Module StoreSpec.

Import App Store.

(** The artifact as it was when captured: the optional fields unset. *)
Definition as_captured (img : CapturedImage) : CapturedImage :=
  {| id := Types.id img;
     timestamp := timestamp img;
     dataUrl := dataUrl img;
     analysis := None;
     confidence := None;
     growthStage := None;
     eventTags := None;
     healthStatus := None;
     advice := None |}.

(** [img] stems from a capture of [es]. *)
Definition from_capture (es : list event) (img : CapturedImage) : Prop :=
  exists f, In (Capture f) es /\ captured f = Some (as_captured img).

(** What every artifact of the timeline satisfies. *)
Definition sound (img : CapturedImage) : Prop :=
  dataUrl img <> [] /\
  growthStage img = None /\ advice img = None /\ eventTags img = None /\
  match analysis img with
  | None => confidence img = None /\ healthStatus img = None
  | Some a =>
      confidence img = md_confidence (parseMetaData a) /\
      healthStatus img = md_healthStatus (parseMetaData a)
  end.

Definition captures (es : list event) : nat :=
  List.length (filter (fun e => match e with Capture _ => true | _ => false end) es).

(** The colour of an explicit status. *)
Definition status_color (st : HealthStatus) : string :=
  match st with
  | CRITICAL => Timeline.RED
  | STRESSED => Timeline.YELLOW
  | HEALTHY => Timeline.GREEN
  end.

End StoreSpec.


(** ** The cards of the timeline *)

Module TimelineSpec.

Import TimelineView.

Definition cards_of (v : view) : list Card :=
  match v with
  | Strip cards => cards
  | NoSnapshots => []
  end.

End TimelineSpec.


(** ** A live session closed before it came up *)

Module LiveEarlySpec.

Import LiveAudio LiveSpec.

Local Open Scope nat_scope.

(** The effect of run [r] is cleaned up while [getUserMedia] is pending;
    the media and the session arrive afterwards. *)
Definition closed_early (r st sess : nat) : list event :=
  [EffectRun r; Cleanup r; MediaGranted r st; SessionOpened r sess].

(** The stream [st] is held and running, both audio contexts exist and are
    open, and nothing is wired to a session. *)
Definition orphaned (st : nat) (s : Bridge) : Prop :=
  streamRef s = Some st /\
  stopped s = [] /\
  inputAudioContextRef s = Some 1 /\
  outputAudioContextRef s = Some 2 /\
  closed s = [] /\
  sessionRef s = None /\
  intervals s = [] /\ processors s = [] /\ encoding s = [] /\
  realtime (sent s) = [].

End LiveEarlySpec.


(** ** Concrete inputs used to exercise the statements *)

Module Examples.

Import App.

(** Lower-casing on the ASCII range, a possible [toLowerCase]. *)
Definition ascii_lower (s : jsstring) : jsstring :=
  map (fun c => if is_upper c then (c + 32)%N else c) s.

Definition tagged_text : jsstring := lit "[HEALTH: CRITICAL][CONFIDENCE: 87%]".

Definition untagged_text : jsstring := lit "Leaves look Dry, with yellow edges".

Definition full_text : jsstring :=
  lit "[HEALTH: HEALTHY][STAGE: flowering][TAGS: bud][ADVICE: water more][CONFIDENCE: 90%]".

Definition frame_a : Frame :=
  {| shot := Some (lit "data:image/jpeg;base64,AAAA");
     now_id := 1700000000000; now_ts := 1700000000000 |}.

(** A second capture within the same millisecond. *)
Definition frame_b : Frame :=
  {| shot := Some (lit "data:image/jpeg;base64,BBBB");
     now_id := 1700000000000; now_ts := 1700000000001 |}.

Definition frame_c : Frame :=
  {| shot := Some (lit "data:image/jpeg;base64,CCCC");
     now_id := 1700000005000; now_ts := 1700000005000 |}.

(** An audio context that supports just what every implementation must:
    1 to 32 channels, 8000 to 96000 Hz. *)
Definition required_context : GeminiPcm.AudioContext :=
  {| GeminiPcm.maxChannels := 32;
     GeminiPcm.minRate := 8000;
     GeminiPcm.maxRate := 96000;
     GeminiPcm.supports_channels := le_n 32;
     GeminiPcm.supports_rates :=
       conj (eq_refl : 0 < 8000) (conj (Qle_refl 8000) (Qle_refl 96000)) |}.

(** The camera gives nothing (the capture is "silently skipped"). *)
Definition no_frame : Frame := {| shot := None; now_id := 0; now_ts := 0 |}.

End Examples.

(* ================================================================== *)
(** * Properties                                                       *)
(* ================================================================== *)

(** ** The audio codec helpers *)

Section Base64.

Local Open Scope N_scope.

Import GeminiService.

Ltac cases_N :=
  repeat (match goal with
          | |- context [N.ltb ?a ?b] => destruct (N.ltb_spec a b)
          | |- context [N.leb ?a ?b] => destruct (N.leb_spec a b)
          | |- context [N.eqb ?a ?b] => destruct (N.eqb_spec a b)
          | H : context [N.eqb ?a ?b] |- _ => destruct (N.eqb_spec a b)
          end; cbn [andb orb negb] in *).

(** Lists are consumed three bytes at a time. *)
Lemma list_ind3 (A : Type) (P : list A -> Prop) :
  P [] ->
  (forall a, P [a]) ->
  (forall a b, P [a; b]) ->
  (forall a b c l, P l -> P (a :: b :: c :: l)) ->
  forall l, P l.
Proof.
  intros H0 H1 H2 H3.
  fix IH 1.
  intros [|a [|b [|c l]]];
    [exact H0 | apply H1 | apply H2 | apply H3, IH].
Qed.

Lemma b64_value_char v : v < 64 -> b64_value (b64_char v) = Some v.
Proof.
  intros Hv. unfold b64_char.
  cases_N; unfold b64_value, is_upper, is_lower, is_digit;
    cases_N; try (exfalso; lia); f_equal; lia.
Qed.

Lemma b64_char_not_pad v : (b64_char v =? 61) = false.
Proof. unfold b64_char. cases_N; try reflexivity; exfalso; lia. Qed.

Lemma b64_char_not_space v : is_ascii_whitespace (b64_char v) = false.
Proof.
  unfold is_ascii_whitespace, b64_char.
  cases_N; try reflexivity; exfalso; lia.
Qed.

Lemma from_alphabet_chars vs :
  Forall (fun v => v < 64) vs -> from_alphabet (map b64_char vs) = Some vs.
Proof.
  induction 1 as [|v vs Hv _ IH]; simpl; [reflexivity|].
  now rewrite b64_value_char, IH.
Qed.

(** Arithmetic with [/] and [mod] by constants. *)
Ltac dlia := zify; Z.to_euclidean_division_equations; lia.

Lemma to_sextets_bounded l :
  Forall (fun b => b < 256) l -> Forall (fun v => v < 64) (to_sextets l).
Proof.
  induction l as [|a|a b|a b c l IH] using list_ind3; intros H;
    cbn [to_sextets].
  - constructor.
  - inversion_clear H.
    repeat (apply Forall_cons; [dlia|]). constructor.
  - inversion_clear H as [|? ? Ha H']. inversion_clear H' as [|? ? Hb _].
    repeat (apply Forall_cons; [dlia|]). constructor.
  - inversion_clear H as [|? ? Ha H']. inversion_clear H' as [|? ? Hb H''].
    inversion_clear H'' as [|? ? Hc Hl].
    repeat (apply Forall_cons; [dlia|]). auto.
Qed.

Lemma from_to_sextets l :
  Forall (fun b => b < 256) l -> from_sextets (to_sextets l) = l.
Proof.
  induction l as [|a|a b|a b c l IH] using list_ind3; intros H.
  - reflexivity.
  - cbn [to_sextets from_sextets]. f_equal. dlia.
  - inversion_clear H as [|? ? Ha H']. inversion_clear H' as [|? ? Hb _].
    cbn [to_sextets from_sextets]. f_equal; [dlia|]. f_equal. dlia.
  - inversion_clear H as [|? ? Ha H']. inversion_clear H' as [|? ? Hb H''].
    inversion_clear H'' as [|? ? Hc Hl].
    cbn [to_sextets from_sextets]. rewrite (IH Hl).
    f_equal; [dlia|]. f_equal; [dlia|]. f_equal. dlia.
Qed.

Lemma to_sextets_length l :
  exists q,
    (List.length l = 3 * q /\ List.length (to_sextets l) = 4 * q)%nat \/
    (List.length l = 3 * q + 1 /\ List.length (to_sextets l) = 4 * q + 2)%nat \/
    (List.length l = 3 * q + 2 /\ List.length (to_sextets l) = 4 * q + 3)%nat.
Proof.
  induction l as [|a|a b|a b c l IH] using list_ind3.
  - exists 0%nat. left. split; reflexivity.
  - exists 0%nat. right; left. split; reflexivity.
  - exists 0%nat. right; right. split; reflexivity.
  - destruct IH as [q IH]. exists (S q). cbn [to_sextets List.length].
    destruct IH as [[H1 H2]|[[H1 H2]|[H1 H2]]]; rewrite H1, H2;
      [left|right; left|right; right]; split; lia.
Qed.

Lemma encoded_length l :
  (List.length (map b64_char (to_sextets l) ++ b64_padding (List.length l)) mod 4 = 0)%nat.
Proof.
  rewrite length_app, length_map. unfold b64_padding. rewrite repeat_length.
  destruct (to_sextets_length l) as [q [[H1 H2]|[[H1 H2]|[H1 H2]]]];
    rewrite H1, H2; clear; dlia.
Qed.

Lemma sextets_length_not_1 l :
  (List.length (map b64_char (to_sextets l)) mod 4 =? 1)%nat = false.
Proof.
  rewrite length_map. apply Nat.eqb_neq.
  destruct (to_sextets_length l) as [q [[H1 H2]|[[H1 H2]|[H1 H2]]]];
    rewrite H2; clear; dlia.
Qed.

Lemma padding_short n : exists k, b64_padding n = repeat 61 k /\ (k <= 2)%nat.
Proof.
  exists ((3 - n mod 3) mod 3)%nat. split; [reflexivity|]. dlia.
Qed.

Lemma strip_padding_rev rc k :
  Forall (fun c => (c =? 61) = false) rc ->
  (k <= 2)%nat ->
  (List.length (rev rc ++ repeat 61%N k) mod 4 = 0)%nat ->
  strip_padding (rev rc ++ repeat 61 k) = rev rc.
Proof.
  intros Hrc Hk Hlen. unfold strip_padding.
  rewrite Hlen. cbn [Nat.eqb].
  rewrite rev_app_distr, rev_repeat, rev_involutive.
  destruct k as [|[|[|k]]]; [| | |lia]; cbn [repeat app].
  - rewrite app_nil_r.
    destruct rc as [|c1 [|c2 r]]; [reflexivity| |];
      inversion_clear Hrc as [|? ? Hc1 _]; rewrite Hc1; reflexivity.
  - destruct rc as [|c2 r]; [reflexivity|].
    inversion_clear Hrc as [|? ? Hc2 _]. rewrite Hc2. reflexivity.
  - reflexivity.
Qed.

Lemma strip_padding_app core k :
  Forall (fun c => (c =? 61) = false) core ->
  (k <= 2)%nat ->
  (List.length (core ++ repeat 61%N k) mod 4 = 0)%nat ->
  strip_padding (core ++ repeat 61 k) = core.
Proof.
  intros Hcore Hk Hlen.
  rewrite <- (rev_involutive core) in *.
  apply strip_padding_rev; auto.
  apply Forall_rev in Hcore. now rewrite rev_involutive in Hcore.
Qed.

Lemma filter_all (A : Type) (f : A -> bool) (l : list A) :
  Forall (fun x => f x = true) l -> filter f l = l.
Proof.
  induction 1 as [|x l Hx _ IH]; cbn [filter]; [reflexivity|].
  now rewrite Hx, IH.
Qed.

(** [atob] undoes [btoa] on every binary string. *)
Lemma atob_btoa s :
  Forall (fun c => c < 256) s ->
  exists e, btoa s = Some e /\ atob e = Some s.
Proof.
  intros Hs.
  exists (map b64_char (to_sextets s) ++ b64_padding (List.length s)). split.
  - unfold btoa.
    replace (forallb (fun c => c <=? 255) s) with true; [reflexivity|].
    symmetry. apply forallb_forall. intros c Hc.
    rewrite Forall_forall in Hs. apply N.leb_le. specialize (Hs c Hc). lia.
  - unfold atob.
    rewrite filter_all.
    2:{ apply Forall_app. split.
        - apply Forall_map, Forall_forall. intros v _.
          now rewrite b64_char_not_space.
        - unfold b64_padding. apply Forall_forall. intros c Hc.
          apply repeat_spec in Hc. now subst c. }
    destruct (padding_short (List.length s)) as [k [Hpad Hk]].
    pose proof (encoded_length s) as Hlen.
    rewrite Hpad in *.
    rewrite strip_padding_app; auto.
    2:{ apply Forall_map, Forall_forall. intros v _. apply b64_char_not_pad. }
    rewrite sextets_length_not_1.
    rewrite from_alphabet_chars by now apply to_sextets_bounded.
    cbn [option_map]. now rewrite from_to_sextets.
Qed.

Lemma append_loop_is_map (A B : Type) (f : A -> B) (l : list A) (acc : list B) :
  fold_left (fun binary b => binary ++ [f b]) l acc = acc ++ map f l.
Proof.
  revert acc. induction l as [|a l IH]; intros acc; cbn [fold_left map].
  - now rewrite app_nil_r.
  - rewrite IH, <- app_assoc. reflexivity.
Qed.

Lemma to_uint8_fromCharCode b : to_uint8 (fromCharCode b) = b.
Proof.
  unfold to_uint8, fromCharCode.
  pose proof (Byte.to_N_bounded b) as Hb.
  rewrite N.mod_small by lia.
  now rewrite Byte.of_to_N.
Qed.

(** C10.  The audio codec helpers are mutually inverse in the direction the
    application uses them: for every byte array [bytes], [encodeAudio]
    returns a base64 string (its [btoa] does not throw) and [decodeAudio]
    of that string is [bytes] again. *)
Theorem decodeAudio_encodeAudio (bytes : list byte) :
  exists base64,
    encodeAudio bytes = Some base64 /\ decodeAudio base64 = Some bytes.
Proof.
  unfold encodeAudio, decodeAudio.
  rewrite append_loop_is_map. cbn [app].
  destruct (atob_btoa (s := map fromCharCode bytes)) as [e [He1 He2]].
  - apply Forall_map, Forall_forall. intros b _.
    pose proof (Byte.to_N_bounded b). unfold fromCharCode. lia.
  - exists e. split; [exact He1|]. rewrite He2. f_equal.
    rewrite map_map. rewrite <- (map_id bytes) at 2.
    apply map_ext. intros b. apply to_uint8_fromCharCode.
Qed.

End Base64.

(** ** The matcher against the language of its pattern *)

Section Matcher.

Variable A : Type.

Lemma matching_matches r w c c' : matching r w c c' -> matches r w.
Proof. induction 1; econstructor; eassumption. Qed.

Lemma matching_group_free r w c c' :
  group_free r = true -> matching r w c c' -> c' = c.
Proof.
  intros Hr H. induction H; cbn [group_free] in Hr;
    try apply andb_true_iff in Hr; try reflexivity.
  - destruct Hr as [Ha Hb]. rewrite (IHmatching2 Hb). auto.
  - destruct Hr as [Ha Hb]. auto.
  - destruct Hr as [Ha Hb]. auto.
  - rewrite (IHmatching2 Hr). auto.
  - discriminate.
Qed.

Lemma m_sound_cap (r : re) :
  forall s cap (k : jsstring -> option jsstring -> option A) x,
    m r s cap k = Some x ->
    exists w s' cap', s = w ++ s' /\ matching r w cap cap' /\ k s' cap' = Some x.
Proof.
  induction r as [|p|a IHa b IHb|a IHa b IHb|a IHa|a IHa];
    intros s cap k x H; cbn [m] in H.
  - exists [], s, cap. repeat split; [constructor|assumption].
  - destruct s as [|c s']; [discriminate|].
    destruct (p c) eqn:Hp; [|discriminate].
    exists [c], s', cap. repeat split; [now constructor|assumption].
  - apply IHa in H. destruct H as (u & s1 & c1 & -> & Hu & H).
    apply IHb in H. destruct H as (v & s2 & c2 & -> & Hv & H).
    exists (u ++ v), s2, c2. rewrite app_assoc.
    repeat split; [econstructor; eassumption|assumption].
  - destruct (m a s cap k) eqn:Ha.
    + injection H as ->. apply IHa in Ha.
      destruct Ha as (u & s1 & c1 & -> & Hu & H).
      exists u, s1, c1. repeat split; [now apply MC_AltL|assumption].
    + apply IHb in H. destruct H as (u & s1 & c1 & -> & Hu & H).
      exists u, s1, c1. repeat split; [now apply MC_AltR|assumption].
  - revert H. generalize (List.length s) at 1. intros n. revert s cap.
    induction n as [|n IHn]; intros s cap H.
    + exists [], s, cap. repeat split; [constructor|assumption].
    + match type of H with
      | match ?t with _ => _ end = _ => destruct t eqn:Ha
      end.
      * injection H as ->. apply IHa in Ha.
        destruct Ha as (u & s1 & c1 & -> & Hu & H).
        destruct (List.length s1 <? List.length (u ++ s1))%nat; [|discriminate].
        apply IHn in H. destruct H as (v & s2 & c2 & -> & Hv & H).
        exists (u ++ v), s2, c2. rewrite app_assoc.
        repeat split; [eapply MC_StarCons; eassumption|assumption].
      * exists [], s, cap. repeat split; [constructor|assumption].
  - apply IHa in H. destruct H as (u & s1 & c1 & -> & Hu & H).
    exists u, s1, (Some u). repeat split; [econstructor; eassumption|].
    rewrite length_app, Nat.add_sub, firstn_app, Nat.sub_diag, firstn_all in H.
    cbn [firstn] in H. rewrite app_nil_r in H. exact H.
Qed.

Lemma m_complete (r : re) :
  forall w, matches r w ->
  forall s cap (k : jsstring -> option jsstring -> option A),
    total_at k s -> m r (w ++ s) cap k <> None.
Proof.
  induction r as [|p|a IHa b IHb|a IHa b IHb|a IHa|a IHa];
    intros w Hw s cap k Hk.
  - inversion_clear Hw. apply Hk.
  - inversion_clear Hw as [|? c Hp| | | | | |]. cbn [m app]. rewrite Hp. apply Hk.
  - inversion_clear Hw as [| |? ? u v Hu Hv| | | | |].
    cbn [m]. rewrite <- app_assoc. apply IHa; [assumption|].
    intros c1. now apply IHb.
  - cbn [m]. destruct (m a (w ++ s) cap k) eqn:Ha; [discriminate|].
    inversion_clear Hw as [| | |? ? ? Hu|? ? ? Hu| | |].
    + exfalso. revert Ha. now apply IHa.
    + now apply IHb.
  - cbn [m].
    assert (Hloop : forall n cap, (List.length w <= n)%nat ->
      (fix loop (fuel : nat) (s0 : jsstring) (cap0 : option jsstring) : option A :=
         match fuel with
         | O => k s0 cap0
         | S fuel' =>
             match m a s0 cap0
                     (fun s' cap' =>
                        if (List.length s' <? List.length s0)%nat
                        then loop fuel' s' cap' else None) with
             | Some x => Some x
             | None => k s0 cap0
             end
         end) n (w ++ s) cap <> None).
    { remember (Star a) as sa eqn:Esa.
      induction Hw as [| | | | |a'|a' u v Hu _ Hv IHv|]; try discriminate;
        injection Esa as ->; intros n cap' Hn.
      - destruct n; [apply Hk|].
        match goal with
        | |- match ?t with _ => _ end <> _ => destruct t
        end; [discriminate|apply Hk].
      - destruct u as [|c u].
        + apply (IHv eq_refl). exact Hn.
        + destruct n as [|n]; [cbn [List.length app] in Hn; lia|].
          match goal with
          | |- match ?t with _ => _ end <> _ => destruct t eqn:Ha
          end; [discriminate|].
          exfalso. revert Ha. rewrite <- app_assoc.
          apply IHa; [assumption|]. intros c1.
          replace (List.length (v ++ s) <? List.length ((c :: u) ++ v ++ s))%nat
            with true.
          * apply (IHv eq_refl). rewrite length_app in Hn.
            cbn [List.length] in Hn. lia.
          * symmetry. apply Nat.ltb_lt. rewrite !length_app.
            cbn [List.length]. lia. }
    apply Hloop. rewrite length_app. lia.
  - inversion_clear Hw as [| | | | | | |? ? Hu].
    cbn [m]. apply IHa; [assumption|]. intros c1. apply Hk.
Qed.

End Matcher.

Lemma exec_sound_cap r text cap :
  exec r text = Some cap ->
  exists pre w suf, text = pre ++ w ++ suf /\ matching r w None cap.
Proof.
  induction text as [|c text IH]; cbn [exec]; intros H.
  - destruct (m r [] None (fun _ cap0 => Some cap0)) eqn:Hm; [|discriminate].
    injection H as ->.
    apply m_sound_cap in Hm. destruct Hm as (w & s' & c' & E & Hw & Hc).
    injection Hc as ->. exists [], w, s'. now split.
  - destruct (m r (c :: text) None (fun _ cap0 => Some cap0)) eqn:Hm.
    + injection H as ->.
      apply m_sound_cap in Hm. destruct Hm as (w & s' & c' & E & Hw & Hc).
      injection Hc as ->. exists [], w, s'. now split.
    + apply IH in H. destruct H as (pre & w & suf & -> & Hw).
      exists (c :: pre), w, suf. now split.
Qed.

Lemma exec_complete r text :
  contains (matches r) text -> exec r text <> None.
Proof.
  intros (pre & w & suf & -> & Hw).
  induction pre as [|c pre IH].
  - cbn [app].
    assert (Hm : m r (w ++ suf) None (fun _ cap0 => Some cap0) <> None).
    { apply m_complete; [assumption|]. intros cap0. discriminate. }
    destruct (w ++ suf); cbn [exec];
      destruct (m r _ None (fun _ cap0 => Some cap0)); congruence.
  - cbn [app exec].
    destruct (m r _ None (fun _ cap0 => Some cap0)); [discriminate|exact IH].
Qed.

(** ** The two patterns of [parseMetaData] against the tag grammar *)

Section Tags.

Local Open Scope N_scope.

Import App.

Lemma matches_chars_ci l w :
  matches (chars ci l) w <-> map upcase w = map upcase l.
Proof.
  revert w. induction l as [|c l IH]; intros w; cbn [chars map]; split; intros H.
  - inversion_clear H. reflexivity.
  - destruct w; [constructor|discriminate].
  - inversion_clear H as [| |? ? u v Hu Hv| | | | |].
    inversion_clear Hu as [|? x Hx| | | | | |].
    cbn [app map]. unfold ci in Hx. apply N.eqb_eq in Hx.
    f_equal; [assumption|]. now apply IH.
  - destruct w as [|x w]; [discriminate|]. cbn [map] in H.
    injection H as Hx Hw.
    change (x :: w) with ([x] ++ w). constructor.
    + constructor. unfold ci. now apply N.eqb_eq.
    + now apply IH.
Qed.

Lemma matches_lit_ci word w : matches (lit_ci word) w <-> spells w word.
Proof. apply matches_chars_ci. Qed.

Lemma matches_star_class p w :
  matches (Star (Chr p)) w <-> Forall (fun c => p c = true) w.
Proof.
  split.
  - intros H. remember (Star (Chr p)) as r eqn:Er.
    induction H as [| | | | |a|a u v Hu _ Hv IHv|]; try discriminate;
      injection Er as ->.
    + constructor.
    + inversion_clear Hu. cbn [app]. constructor; [assumption|].
      now apply IHv.
  - induction 1 as [|c w Hc _ IH].
    + constructor.
    + change (c :: w) with ([c] ++ w). constructor; [now constructor|exact IH].
Qed.

Lemma matches_plus_class p w :
  matches (plus (Chr p)) w <-> w <> [] /\ Forall (fun c => p c = true) w.
Proof.
  unfold plus. split.
  - intros H. inversion_clear H as [| |? ? u v Hu Hv| | | | |].
    inversion_clear Hu. apply matches_star_class in Hv.
    split; [discriminate|]. cbn [app]. now constructor.
  - intros [Hne H]. destruct w as [|c w]; [congruence|].
    inversion_clear H as [|? ? Hc Hw].
    change (c :: w) with ([c] ++ w). constructor; [now constructor|].
    now apply matches_star_class.
Qed.

Lemma upcase_punct c p :
  is_upper p = false -> is_lower p = false -> upcase c = upcase p -> c = p.
Proof.
  unfold upcase, is_upper, is_lower. intros Hu Hl.
  rewrite Hl. destruct ((97 <=? c) && (c <=? 122)) eqn:Hc; [|auto].
  intros <-. exfalso.
  apply andb_true_iff in Hc. destruct Hc as [H1 H2].
  apply N.leb_le in H1, H2.
  apply andb_false_iff in Hu.
  destruct Hu as [Hu|Hu]; apply N.leb_gt in Hu; lia.
Qed.

Lemma spells_punct w p :
  is_upper p = false -> is_lower p = false ->
  map upcase w = map upcase [p] -> w = [p].
Proof.
  intros Hu Hl H. destruct w as [|c [|c' w]]; try discriminate.
  cbn [map] in H. injection H as H. f_equal. now apply upcase_punct.
Qed.

Ltac inv H := inversion H; subst; clear H.

Ltac split_seq :=
  repeat match goal with
         | H : matching (Seq _ _) _ _ _ |- _ => inv H
         | H : matching (Group _) _ _ _ |- _ => inv H
         end.

Ltac keep_capture :=
  repeat match goal with
         | H : matching ?r _ ?c ?c' |- _ =>
             let E := fresh "E" in
             assert (E : c' = c) by (apply (matching_group_free (r:=r) eq_refl H));
             apply matching_matches in H; try subst c'
         end.

(** What the confidence pattern matches, and what it captures. *)
Lemma confidence_re_capture w cap :
  matching CONFIDENCE_RE w None cap ->
  exists ds, cap = Some ds /\ confidence_tag_of ds w.
Proof.
  unfold CONFIDENCE_RE. intros H. split_seq.
  match goal with
  | H : matching (plus _) ?u _ _ |- _ =>
      exists u; apply matching_matches, matches_plus_class in H;
      destruct H as [Hne Hds]
  end.
  keep_capture.
  match goal with
  | Hkw : matches (lit_ci "[CONFIDENCE:") ?kw,
    Hws : matches (Star _) ?ws,
    Hpct : matches (opt _) ?pct,
    Hcl : matches (lit_ci "]") ?cl |- _ =>
      apply matches_lit_ci in Hkw, Hcl;
      apply matches_star_class in Hws;
      apply spells_punct in Hcl; [|reflexivity|reflexivity]; subst cl;
      split; [reflexivity|]; exists kw, ws, pct;
      repeat split; try assumption;
      unfold opt in Hpct;
      inversion_clear Hpct as [| | |? ? ? Hp|? ? ? Hp| | |]
  end.
  - right. apply matches_lit_ci in Hp.
    apply spells_punct in Hp; [assumption|reflexivity|reflexivity].
  - left. now inversion_clear Hp.
Qed.

Lemma confidence_tag_matches ds w :
  confidence_tag_of ds w -> matches CONFIDENCE_RE w.
Proof.
  unfold CONFIDENCE_RE, opt.
  intros (kw & ws & pct & -> & Hkw & Hws & Hne & Hds & Hpct).
  apply M_Seq; [now apply matches_lit_ci|].
  apply M_Seq; [now apply matches_star_class|].
  apply M_Seq; [apply M_Group; now apply matches_plus_class|].
  apply M_Seq; [|now apply matches_lit_ci].
  destruct Hpct as [->| ->].
  - apply M_AltR. constructor.
  - apply M_AltL. now apply matches_lit_ci.
Qed.

(** What the health pattern matches, and what it captures. *)
Lemma health_re_capture w cap :
  matching HEALTH_RE w None cap ->
  exists v, cap = Some v /\ health_tag_of v w.
Proof.
  unfold HEALTH_RE. intros H. split_seq.
  match goal with
  | H : matching (Alt _ _) ?u _ _ |- _ =>
      exists u; apply matching_matches in H; rename H into Hv
  end.
  keep_capture.
  match goal with
  | Hkw : matches (lit_ci "[HEALTH:") ?kw,
    Hws : matches (Star _) ?ws,
    Hcl : matches (lit_ci "]") ?cl |- _ =>
      apply matches_lit_ci in Hkw, Hcl;
      apply matches_star_class in Hws;
      apply spells_punct in Hcl; [|reflexivity|reflexivity]; subst cl;
      split; [reflexivity|]; exists kw, ws;
      repeat split; try assumption
  end.
  inversion_clear Hv as [| | |? ? ? Hp|? ? ? Hp| | |].
  - left. now apply matches_lit_ci.
  - inversion_clear Hp as [| | |? ? ? Hq|? ? ? Hq| | |].
    + right; left. now apply matches_lit_ci.
    + right; right. now apply matches_lit_ci.
Qed.

Lemma health_tag_matches v w :
  health_tag_of v w -> matches HEALTH_RE w.
Proof.
  unfold HEALTH_RE.
  intros (kw & ws & -> & Hkw & Hws & Hv).
  apply M_Seq; [now apply matches_lit_ci|].
  apply M_Seq; [now apply matches_star_class|].
  apply M_Seq; [apply M_Group|now apply matches_lit_ci].
  destruct Hv as [Hv|[Hv|Hv]].
  - apply M_AltL. now apply matches_lit_ci.
  - apply M_AltR, M_AltL. now apply matches_lit_ci.
  - apply M_AltR, M_AltR. now apply matches_lit_ci.
Qed.

(** A pattern finds a match exactly in the texts that carry its tag, and
    what it captures is the value of a tag of the text. *)
Lemma confidence_found text :
  exec CONFIDENCE_RE text <> None <-> contains confidence_tag text.
Proof.
  split.
  - destruct (exec CONFIDENCE_RE text) as [cap|] eqn:E; [|congruence].
    intros _. apply exec_sound_cap in E.
    destruct E as (pre & w & suf & -> & Hw).
    apply confidence_re_capture in Hw. destruct Hw as (ds & _ & Hw).
    exists pre, w, suf. split; [reflexivity|]. now exists ds.
  - intros (pre & w & suf & -> & ds & Hw). apply exec_complete.
    exists pre, w, suf. split; [reflexivity|].
    eapply confidence_tag_matches, Hw.
Qed.

Lemma health_found text :
  exec HEALTH_RE text <> None <-> contains health_tag text.
Proof.
  split.
  - destruct (exec HEALTH_RE text) as [cap|] eqn:E; [|congruence].
    intros _. apply exec_sound_cap in E.
    destruct E as (pre & w & suf & -> & Hw).
    apply health_re_capture in Hw. destruct Hw as (v & _ & Hw).
    exists pre, w, suf. split; [reflexivity|]. now exists v.
  - intros (pre & w & suf & -> & v & Hw). apply exec_complete.
    exists pre, w, suf. split; [reflexivity|].
    eapply health_tag_matches, Hw.
Qed.

Lemma untagged_unset text :
  ~ contains health_tag text ->
  ~ contains confidence_tag text ->
  parseMetaData text = {| md_confidence := None; md_healthStatus := None |}.
Proof.
  intros Hh Hc. unfold parseMetaData.
  destruct (exec CONFIDENCE_RE text) eqn:Ec.
  { exfalso. apply Hc, confidence_found. congruence. }
  destruct (exec HEALTH_RE text) eqn:Eh.
  { exfalso. apply Hh, health_found. congruence. }
  reflexivity.
Qed.

Lemma spells_upper v word :
  spells v word -> map upcase (lit word) = lit word ->
  jsstring_eqb (map upcase v) (lit word) = true.
Proof.
  unfold spells. intros -> ->. unfold jsstring_eqb.
  destruct (list_eq_dec N.eq_dec (lit word) (lit word)); congruence.
Qed.

Lemma toHealthStatus_spelled v :
  spells v "HEALTHY" \/ spells v "STRESSED" \/ spells v "CRITICAL" ->
  exists st, toHealthStatus v = Some st /\ status_of v st.
Proof.
  unfold toHealthStatus.
  intros [H|[H|H]].
  - exists HEALTHY. rewrite (spells_upper H eq_refl). now split.
  - exists STRESSED. split; [|exact H].
    unfold spells in H. rewrite H. reflexivity.
  - exists CRITICAL. split; [|exact H].
    unfold spells in H. rewrite H. reflexivity.
Qed.

(** With a confidence tag in the text, [confidence] is the number written in
    a confidence tag of the text; with a health tag, [healthStatus] is the
    status spelled in a health tag of the text. *)
Lemma tagged_set text :
  (contains confidence_tag text ->
   exists ds,
     contains (confidence_tag_of ds) text /\
     md_confidence (parseMetaData text) = Some (parseInt ds)) /\
  (contains health_tag text ->
   exists v st,
     contains (health_tag_of v) text /\ status_of v st /\
     md_healthStatus (parseMetaData text) = Some st).
Proof.
  split; intros H.
  - apply confidence_found in H.
    destruct (exec CONFIDENCE_RE text) as [cap|] eqn:E; [|congruence].
    pose proof (exec_sound_cap _ _ E) as (pre & w & suf & Et & Hw).
    apply confidence_re_capture in Hw. destruct Hw as (ds & -> & Hw).
    exists ds. split; [now exists pre, w, suf|].
    unfold parseMetaData. rewrite E. reflexivity.
  - apply health_found in H.
    destruct (exec HEALTH_RE text) as [cap|] eqn:E; [|congruence].
    pose proof (exec_sound_cap _ _ E) as (pre & w & suf & Et & Hw).
    apply health_re_capture in Hw. destruct Hw as (v & -> & Hw).
    destruct Hw as (kw & ws & Ew & Hkw & Hws & Hv).
    destruct (toHealthStatus_spelled Hv) as (st & Hst & Hsp).
    exists v, st. split; [|split; [exact Hsp|]].
    + exists pre, w, suf. split; [exact Et|]. now exists kw, ws.
    + unfold parseMetaData. rewrite E. cbn [group1 md_healthStatus]. exact Hst.
Qed.

End Tags.

(** ** parseMetaData and the display colour *)

Section MetaData.

Import App Timeline Examples.

(** C2.  On ["[HEALTH: CRITICAL][CONFIDENCE: 87%]"] the parser returns
    health CRITICAL and confidence 87.  On a text that carries neither a
    health tag (with one of the three values) nor a confidence tag it leaves
    both fields unset; the artifact merged from such a text has both fields
    unset as well, and the keyword scan over the raw text only decides the
    colour [getHealthColor] returns.  A field that is set comes from a tag:
    with a confidence tag in the text, [confidence] is the number written in
    a confidence tag of the text, and likewise for the health status.
    [toLowerCase] is any function. *)
Theorem parseMetaData_tags (toLowerCase : jsstring -> jsstring) :
  parseMetaData tagged_text
    = {| md_confidence := Some 87%N; md_healthStatus := Some CRITICAL |}
  /\
  (forall text,
      ~ contains health_tag text ->
      ~ contains confidence_tag text ->
      parseMetaData text = {| md_confidence := None; md_healthStatus := None |}
      /\
      forall img,
        let img' := merge img text (parseMetaData text) in
        confidence img' = None /\
        healthStatus img' = None /\
        getHealthColor toLowerCase img'
          = if is_empty text then PLAIN else keywordColor toLowerCase text)
  /\
  (forall text,
      (contains confidence_tag text ->
       exists ds,
         contains (confidence_tag_of ds) text /\
         md_confidence (parseMetaData text) = Some (parseInt ds)) /\
      (contains health_tag text ->
       exists v st,
         contains (health_tag_of v) text /\ status_of v st /\
         md_healthStatus (parseMetaData text) = Some st)).
Proof.
  split; [vm_compute; reflexivity|]. split; [|apply tagged_set].
  intros text Hh Hc.
  pose proof (untagged_unset Hh Hc) as E.
  split; [exact E|].
  intros img img'. subst img'. rewrite E.
  unfold getHealthColor. cbn. repeat split; reflexivity.
Qed.

Lemma parseMetaData_tags_witness :
  ~ contains health_tag untagged_text /\
  ~ contains confidence_tag untagged_text /\
  parseMetaData untagged_text = {| md_confidence := None; md_healthStatus := None |} /\
  getHealthColor ascii_lower
    (merge (newImage 1 1 (lit "data:,")) untagged_text (parseMetaData untagged_text))
    = YELLOW /\
  contains confidence_tag tagged_text /\
  contains health_tag tagged_text /\
  (exists ds, md_confidence (parseMetaData tagged_text) = Some (parseInt ds)) /\
  (exists st, md_healthStatus (parseMetaData tagged_text) = Some st).
Proof.
  assert (Hh : ~ contains health_tag untagged_text).
  { intros H. apply health_found in H. apply H. vm_compute. reflexivity. }
  assert (Hc : ~ contains confidence_tag untagged_text).
  { intros H. apply confidence_found in H. apply H. vm_compute. reflexivity. }
  assert (Tc : contains confidence_tag tagged_text).
  { apply confidence_found. vm_compute. discriminate. }
  assert (Th : contains health_tag tagged_text).
  { apply health_found. vm_compute. discriminate. }
  split; [exact Hh|]. split; [exact Hc|].
  destruct (parseMetaData_tags ascii_lower) as (_ & H & Hset).
  destruct (H untagged_text Hh Hc) as [E Himg].
  split; [exact E|].
  destruct (Himg (newImage 1 1 (lit "data:,"))) as (_ & _ & Hcol).
  split; [rewrite Hcol; vm_compute; reflexivity|].
  split; [exact Tc|]. split; [exact Th|].
  destruct (Hset tagged_text) as [Hsc Hsh].
  destruct (Hsc Tc) as (ds & _ & Hds).
  destruct (Hsh Th) as (v & st & _ & _ & Hst).
  split; [now exists ds|now exists st].
Defined.

End MetaData.

(** ** The timeline: enrichment, purge, identifiers *)

Section TimelineStore.

Import App Examples.

Lemma jsstring_eqb_eq a b : jsstring_eqb a b = true <-> a = b.
Proof.
  unfold jsstring_eqb. destruct (list_eq_dec N.eq_dec a b); split;
    congruence.
Qed.

Lemma jsstring_eqb_neq a b : jsstring_eqb a b = false <-> a <> b.
Proof.
  unfold jsstring_eqb. destruct (list_eq_dec N.eq_dec a b); split;
    congruence.
Qed.

Lemma enrich_absent i text md images :
  ~ In i (map id images) -> enrich i text md images = images.
Proof.
  unfold enrich. induction images as [|img images IH]; cbn [map In]; intros H.
  - reflexivity.
  - replace (jsstring_eqb (id img) i) with false.
    + f_equal. apply IH. tauto.
    + symmetry. apply jsstring_eqb_neq. tauto.
Qed.

(** C3.  The enrichment merge goes by identifier.  When no entry of the
    timeline has the identifier (the entry was purged while the analysis
    was in flight), the timeline is returned as it is: nothing is
    reintroduced, and the functions involved are total.  When entries have
    it, the list keeps its length and order, an entry with another
    identifier is unchanged, and an entry with the identifier is merged. *)
Theorem enrich_by_identifier (i text : jsstring) (md : MetaData)
        (images : list CapturedImage) :
  (~ In i (map id images) -> enrich i text md images = images)
  /\ enrich i text md (purge images) = []
  /\ (forall img r, capture_finish img r (purge (append img images)) = [])
  /\ List.length (enrich i text md images) = List.length images
  /\ (forall k img,
        nth_error images k = Some img ->
        (id img <> i -> nth_error (enrich i text md images) k = Some img) /\
        (id img = i ->
         nth_error (enrich i text md images) k = Some (merge img text md))).
Proof.
  split; [apply enrich_absent|].
  split; [reflexivity|].
  split; [intros img [|[t|]]; reflexivity|].
  split; [apply length_map|].
  intros k img Hk. unfold enrich. rewrite nth_error_map, Hk. cbn [option_map].
  split; intros Hid.
  - apply jsstring_eqb_neq in Hid. now rewrite Hid.
  - apply jsstring_eqb_eq in Hid. now rewrite Hid.
Qed.

Lemma enrich_by_identifier_witness :
  let images := capture_begin frame_c (capture_begin frame_a []) in
  let gone := toString 1699999990000 in
  let there := toString 1700000000000 in
  let md := parseMetaData tagged_text in
  ~ In gone (map id images) /\
  enrich gone tagged_text md images = images /\
  (forall img, nth_error images 1 = Some img ->
     nth_error (enrich there tagged_text md images) 1 = Some img) /\
  (forall img, nth_error images 0 = Some img ->
     nth_error (enrich there tagged_text md images) 0
       = Some (merge img tagged_text md)).
Proof.
  intros images gone there md.
  assert (Habs : ~ In gone (map id images)).
  { vm_compute. intros [H|[H|[]]]; discriminate H. }
  split; [exact Habs|].
  split; [|split].
  - apply (enrich_by_identifier gone tagged_text md images). exact Habs.
  - intros img Himg.
    apply (enrich_by_identifier there tagged_text md images); [exact Himg|].
    vm_compute in Himg. injection Himg as <-. vm_compute. discriminate.
  - intros img Himg.
    apply (enrich_by_identifier there tagged_text md images); [exact Himg|].
    vm_compute in Himg. injection Himg as <-. vm_compute. reflexivity.
Defined.

(** *** Identifiers *)

Lemma uint_units_inj d d' : uint_units d = uint_units d' -> d = d'.
Proof.
  revert d'. induction d; destruct d'; cbn [uint_units]; intros H;
    try discriminate H; try reflexivity;
    injection H as H; f_equal; auto.
Qed.

Lemma toString_inj n n' : toString n = toString n' -> n = n'.
Proof.
  unfold toString. intros H.
  apply DecimalN.Unsigned.to_uint_inj, uint_units_inj, H.
Qed.

Lemma captured_id f img : captured f = Some img -> id img = toString (now_id f).
Proof.
  unfold captured. destruct (shot f) as [url|]; [|discriminate].
  destruct (is_empty url); [discriminate|].
  intros H. injection H as <-. reflexivity.
Qed.

Lemma appended_ids fs :
  incl (map id (appended fs)) (map (fun f => toString (now_id f)) fs).
Proof.
  induction fs as [|f fs IH]; cbn [appended flat_map map]; [apply incl_refl|].
  fold (appended fs). rewrite map_app.
  apply incl_app.
  - destruct (captured f) as [img|] eqn:E; cbn [map]; [|apply incl_nil_l].
    rewrite (captured_id _ E). intros x [<-|[]]. now left.
  - now apply incl_tl.
Qed.

(** C6 as stated fails: two captures that read the same millisecond give
    two different artifacts with one identifier. *)
Lemma same_millisecond_same_id :
  exists a b,
    capture_begin frame_b (capture_begin frame_a []) = [a; b] /\
    a <> b /\ id a = id b.
Proof.
  eexists _, _. split; [reflexivity|]. split; [|reflexivity].
  intros H. apply (f_equal dataUrl) in H. vm_compute in H. discriminate H.
Qed.

(** C6, amended.  The identifier of an artifact is the decimal text of the
    clock reading taken when it is built, so two artifacts share an
    identifier exactly when those readings coincide; a run of captures
    whose readings are pairwise different appends artifacts with pairwise
    different identifiers. *)
Theorem identifiers_follow_clock :
  (forall f1 f2 img1 img2,
      captured f1 = Some img1 -> captured f2 = Some img2 ->
      (id img1 = id img2 <-> now_id f1 = now_id f2))
  /\
  (forall fs, NoDup (map now_id fs) -> NoDup (map id (appended fs))).
Proof.
  split.
  - intros f1 f2 img1 img2 H1 H2.
    rewrite (captured_id _ H1), (captured_id _ H2).
    split; [apply toString_inj|congruence].
  - induction fs as [|f fs IH]; cbn [map appended flat_map]; intros Hnd.
    + constructor.
    + fold (appended fs). inversion_clear Hnd as [|? ? Hf Hfs].
      destruct (captured f) as [img|] eqn:E; cbn [app map]; [|auto].
      constructor; [|auto].
      intros Hin. apply appended_ids in Hin.
      rewrite (captured_id _ E) in Hin.
      apply in_map_iff in Hin. destruct Hin as (g & Hg & Hgin).
      apply toString_inj in Hg. apply Hf.
      rewrite <- Hg. now apply in_map.
Qed.

Lemma identifiers_follow_clock_witness :
  NoDup (map now_id [frame_a; frame_c]) /\
  NoDup (map id (appended [frame_a; frame_c])) /\
  (id (newImage 5 6 (lit "data:x")) = id (newImage 5 9 (lit "data:y")) <-> 5%N = 5%N).
Proof.
  assert (Hnd : NoDup (map now_id [frame_a; frame_c])).
  { cbn. repeat constructor; cbn; intuition discriminate. }
  split; [exact Hnd|].
  split.
  - apply (proj2 identifiers_follow_clock). exact Hnd.
  - apply (proj1 identifiers_follow_clock
             {| shot := Some (lit "data:x"); now_id := 5; now_ts := 6 |}
             {| shot := Some (lit "data:y"); now_id := 5; now_ts := 9 |});
      reflexivity.
Defined.

(** C7, at the code.  The merge takes [confidence] and [healthStatus] from
    the tags and leaves [growthStage] and [advice] as they were.  The prompt
    asks the model for a stage tag and an advice tag; on an answer in the
    very format of the prompt, the artifact [captureAndProcess] leaves in
    the timeline has confidence 90 and health HEALTHY, and neither a growth
    stage nor an advice. *)
Theorem merge_ignores_stage_and_advice :
  (forall img text,
      let img' := merge img text (parseMetaData text) in
      growthStage img' = growthStage img /\ advice img' = advice img)
  /\
  (includes prompt (lit "[STAGE:") = true /\
   includes prompt (lit "[ADVICE:") = true)
  /\
  (exists img',
     captureAndProcess true frame_a (Resolved (Some full_text)) [] = [img'] /\
     confidence img' = Some 90%N /\
     healthStatus img' = Some HEALTHY /\
     growthStage img' = None /\
     advice img' = None).
Proof.
  split; [|split].
  - intros img text. split; reflexivity.
  - split; vm_compute; reflexivity.
  - eexists. split; [vm_compute; reflexivity|]. repeat split; reflexivity.
Qed.

End TimelineStore.

(** ** Camera acquisition *)

Section Camera.

Import CameraFeed.

Local Open Scope string_scope.

Lemma classify_type name :
  (type (classify name) = "permission" <-> permission_names name) /\
  (type (classify name) = "hardware" <-> hardware_names name) /\
  (type (classify name) = "unknown" <->
     ~ permission_names name /\ ~ hardware_names name).
Proof.
  unfold classify, permission_names, hardware_names, jsstring_eqb.
  repeat match goal with
         | |- context [list_eq_dec N.eq_dec name ?l] =>
             destruct (list_eq_dec N.eq_dec name l)
         end;
    cbn [orb type]; subst;
    repeat match goal with
           | H : lit _ = lit _ |- _ => vm_compute in H; discriminate H
           end;
    repeat split; intros; try discriminate; try tauto;
    try (exfalso; tauto).
Qed.

(** C8.  Acquiring the camera ends in a live stream or in a typed failure.
    A failure is put in exactly one of three classes by the name of the
    thrown error: permission for the two permission names, hardware for the
    two not-found names, unknown for anything else.  It becomes the
    [error] state, rendered as a panel whose retry button is enabled;
    [startCamera] returns in every case with [isInitializing] off, and a
    retry that is granted brings the feed back. *)
Theorem startCamera_outcomes (s : State) :
  (forall stream torch,
      let s' := startCamera (Granted stream torch) s in
      error s' = None /\ srcObject s' = Some stream /\
      isInitializing s' = false /\ render s' = VideoFeed)
  /\
  (forall name,
      let s' := startCamera (Thrown name) s in
      error s' = Some (classify name) /\
      (type (classify name) = "permission" \/
       type (classify name) = "hardware" \/
       type (classify name) = "unknown") /\
      (type (classify name) = "permission" <-> permission_names name) /\
      (type (classify name) = "hardware" <-> hardware_names name) /\
      (type (classify name) = "unknown" <->
         ~ permission_names name /\ ~ hardware_names name) /\
      isInitializing s' = false /\
      render s' = ErrorPanel (message (classify name)) false /\
      (forall stream torch,
          render (click_retry (Granted stream torch) s') = VideoFeed)).
Proof.
  split.
  - intros stream torch. cbn. repeat split; reflexivity.
  - intros name s'.
    destruct (classify_type name) as (Hp & Hh & Hu).
    split; [reflexivity|].
    split.
    { unfold classify.
      destruct (_ || _)%bool; [now left|].
      destruct (_ || _)%bool; [right; now left|right; now right]. }
    split; [exact Hp|]. split; [exact Hh|]. split; [exact Hu|].
    split; [reflexivity|]. split; [reflexivity|].
    intros stream torch. reflexivity.
Qed.

End Camera.

(** ** Playback scheduling *)

Section Playback.

Import LiveAudio.

Lemma Math_max_spec a b :
  b <= Math_max a b /\ a <= Math_max a b /\
  (Math_max a b == b \/ Math_max a b == a).
Proof.
  unfold Math_max. destruct (Qle_bool a b) eqn:E.
  - apply Qle_bool_iff in E.
    split; [lra|]. split; [lra|]. left. reflexivity.
  - assert (~ a <= b) by (rewrite <- Qle_bool_iff; congruence).
    split; [lra|]. split; [lra|]. right. reflexivity.
Qed.

Lemma play_cons now d arrivals s :
  play ((now, d) :: arrivals) s = play arrivals (handleAudioData now (Some d) s).
Proof. reflexivity. Qed.

Lemma play_scheduled arrivals :
  forall s ctx,
    outputAudioContextRef s = Some ctx ->
    exists plays,
      started (play arrivals s) = started s ++ plays /\
      well_scheduled (nextStartTimeRef s) arrivals plays /\
      outputAudioContextRef (play arrivals s) = Some ctx.
Proof.
  induction arrivals as [|[now d] arrivals IH]; intros s ctx Hctx.
  - exists []. cbn. rewrite app_nil_r. auto.
  - rewrite play_cons.
    set (s1 := handleAudioData now (Some d) s).
    assert (Hctx1 : outputAudioContextRef s1 = Some ctx).
    { subst s1. unfold handleAudioData. rewrite Hctx. exact Hctx. }
    destruct (IH s1 ctx Hctx1) as (plays & Hst & Hws & Hout).
    exists ((Math_max now (nextStartTimeRef s), d) :: plays).
    assert (E1 : started s1 = started s ++ [(Math_max now (nextStartTimeRef s), d)]).
    { subst s1. unfold handleAudioData. rewrite Hctx. reflexivity. }
    assert (E2 : nextStartTimeRef s1 = Math_max now (nextStartTimeRef s) + d).
    { subst s1. unfold handleAudioData. rewrite Hctx. reflexivity. }
    split; [|split; [|exact Hout]].
    + rewrite Hst, E1, <- app_assoc. reflexivity.
    + cbn [well_scheduled]. rewrite E2 in Hws.
      destruct (Math_max_spec now (nextStartTimeRef s)) as (H1 & H2 & H3).
      repeat split; assumption.
Qed.

Lemma well_scheduled_after wm arrivals :
  forall plays,
    Forall (fun a => 0 <= snd a) arrivals ->
    well_scheduled wm arrivals plays ->
    Forall (fun p => wm <= fst p) plays.
Proof.
  revert wm. induction arrivals as [|[now d] arrivals IH];
    intros wm [|[start d'] plays] Hd H; cbn [well_scheduled] in H;
    try contradiction; [constructor|].
  destruct H as (-> & Hwm & _ & _ & H).
  inversion_clear Hd as [|? ? Hd0 Hds]. cbn [snd] in Hd0.
  constructor; [exact Hwm|].
  apply IH in H; [|assumption].
  eapply Forall_impl; [|exact H]. cbn. intros p Hp. lra.
Qed.

Lemma well_scheduled_no_overlap wm arrivals :
  forall plays,
    Forall (fun a => 0 <= snd a) arrivals ->
    well_scheduled wm arrivals plays ->
    no_overlap plays.
Proof.
  revert wm. induction arrivals as [|[now d] arrivals IH];
    intros wm [|[start d'] plays] Hd H; cbn [well_scheduled] in H;
    try contradiction; [exact I|].
  destruct H as (-> & _ & _ & _ & H).
  inversion_clear Hd as [|? ? Hd0 Hds].
  cbn [no_overlap]. split.
  - eapply well_scheduled_after; eassumption.
  - eapply IH; eassumption.
Qed.

(** Within one output context.  Each inbound buffer is started at the larger
    of the current time and the watermark, and the watermark moves to the
    end of that buffer.
    So, for every sequence of arrivals, each buffer starts at the end of the
    one before it or on its own arrival, whichever is later (no gap that the
    arrival times do not force), and, the durations being non-negative, no
    buffer starts before an earlier one has ended.  Buffers of 0.5 s that
    arrive at 0, 0.2 and 1.5 start at 0, 0.5 and 1.5. *)
Theorem playback_watermark (s : Bridge) (ctx : nat) (arrivals : list (Q * Q)) :
  outputAudioContextRef s = Some ctx ->
  (forall now d,
      let s' := handleAudioData now (Some d) s in
      let startTime := Math_max now (nextStartTimeRef s) in
      started s' = started s ++ [(startTime, d)] /\
      nextStartTimeRef s' = startTime + d)
  /\
  (exists plays,
      started (play arrivals s) = started s ++ plays /\
      well_scheduled (nextStartTimeRef s) arrivals plays /\
      (Forall (fun a => 0 <= snd a) arrivals -> no_overlap plays))
  /\
  map fst (started (play [(0, 1 # 2); (1 # 5, 1 # 2); (3 # 2, 1 # 2)]
                         (run [EffectRun 1; MediaGranted 1 7] init)))
    = [0; 1 # 2; 3 # 2].
Proof.
  intros Hctx. split; [|split].
  - intros now d. cbn. unfold handleAudioData. rewrite Hctx. split; reflexivity.
  - destruct (play_scheduled arrivals s Hctx) as (plays & Hst & Hws & _).
    exists plays. repeat split; [assumption..|].
    intros Hd. eapply well_scheduled_no_overlap; eassumption.
  - vm_compute. reflexivity.
Qed.

Lemma playback_watermark_witness :
  let s := run [EffectRun 1; MediaGranted 1 7] init in
  let arrivals := [(0, 1 # 2); (1 # 5, 1 # 2); (3 # 2, 1 # 2)] in
  outputAudioContextRef s = Some 2%nat /\
  Forall (fun a => 0 <= snd a) arrivals /\
  exists plays,
    started (play arrivals s) = started s ++ plays /\
    well_scheduled (nextStartTimeRef s) arrivals plays /\
    no_overlap plays.
Proof.
  intros s arrivals.
  assert (Hctx : outputAudioContextRef s = Some 2%nat) by reflexivity.
  assert (Hd : Forall (fun a => 0 <= snd a) arrivals).
  { repeat constructor; cbn; discriminate. }
  split; [exact Hctx|]. split; [exact Hd|].
  destruct (playback_watermark s arrivals Hctx)
    as (_ & (plays & Hst & Hws & Hno) & _).
  exists plays. split; [exact Hst|]. split; [exact Hws|exact (Hno Hd)].
Defined.

(** C1.  The watermark outlives the audio context it was computed in.
    [nextStartTimeRef] is set once, at mount, and nothing resets it, while
    every run of the session effect closes the contexts of the run before
    and makes new ones, whose clock starts again at 0.  So after a camera
    switch the schedule is not the one the watermark rule promises: with
    10 s of audio played in the first session, buffers of 0.5 s that arrive
    at 0, 0.2 and 1.5 on the new context's clock start at 10, 10.5 and 11,
    not at 0, 0.5 and 1.5: a gap of ten seconds that no arrival forces. *)
Theorem stale_watermark_after_camera_switch :
  let before :=
    run [EffectRun 1; MediaGranted 1 7; SessionOpened 1 9; AudioData 0 (Some 10)] init in
  let after :=
    run [Cleanup 1; EffectRun 2; MediaGranted 2 8; SessionOpened 2 10] before in
  let plays := started (play [(0, 1 # 2); (1 # 5, 1 # 2); (3 # 2, 1 # 2)] after) in
  outputAudioContextRef before = Some 2%nat /\
  started before = [(0, 10)] /\
  closed after = [1%nat; 2%nat] /\
  outputAudioContextRef after = Some 5%nat /\
  nextStartTimeRef after = 10 /\
  Forall2 Qeq (map fst (skipn 1 plays)) [10; 21 # 2; 11] /\
  ~ Forall2 Qeq (map fst (skipn 1 plays)) [0; 1 # 2; 3 # 2].
Proof.
  cbv zeta. split; [vm_compute; reflexivity|]. split; [vm_compute; reflexivity|].
  split; [vm_compute; reflexivity|]. split; [vm_compute; reflexivity|].
  split; [vm_compute; reflexivity|].
  split.
  - vm_compute. repeat constructor.
  - vm_compute. intros H. inversion H as [|? ? ? ? H0 _]. discriminate H0.
Qed.

End Playback.

(** ** The capture scheduler *)

Section SchedulerFacts.

Import App Scheduler SchedulerSpec Examples.

Local Open Scope N_scope.

Lemma run_cons e es s : run (e :: es) s = run es (step e s).
Proof. reflexivity. Qed.

Lemma rem_after_ok n rem :
  match rem_after n rem with Some r => 1 <= r | None => True end.
Proof.
  destruct rem as [r|]; cbn; [|exact I].
  destruct (N.leb_spec r n); [exact I|lia].
Qed.

Lemma tick_table f s rem iv h0 h :
  timers s = table (clock s) rem iv h0 h ->
  table_ok rem iv ->
  exists iv' k,
    timers (tick f s) = table (clock s + 1) (rem_after 1 rem) iv' h0 h /\
    table_ok (rem_after 1 rem) iv' /\
    iv_after 1 iv iv' k /\
    fired (tick f s)
      = fired s ++ repeat (clock s + 1) (rem_calls 1 rem + N.to_nat k).
Proof.
  intros Ht [Hr Hi].
  unfold tick. cbn [timers fired]. rewrite Ht. unfold table.
  rewrite flat_map_app, filter_app, length_app, repeat_app.
  rewrite <- N.add_1_r.
  assert (Hrem :
    flat_map (rearm (clock s + 1))
      match rem with
      | Some r => [{| handle := h0; due := clock s + r; period := None |}]
      | None => []
      end
    = match rem_after 1 rem with
      | Some r => [{| handle := h0; due := clock s + 1 + r; period := None |}]
      | None => []
      end /\
    List.length (filter (is_due (clock s + 1))
      match rem with
      | Some r => [{| handle := h0; due := clock s + r; period := None |}]
      | None => []
      end) = rem_calls 1 rem).
  { destruct rem as [r|]; [|split; reflexivity].
    cbn [flat_map filter rem_after rem_calls]. unfold rearm, is_due.
    cbn [due period handle].
    destruct (N.leb_spec r 1), (N.leb_spec (clock s + r) (clock s + 1));
      try lia; cbn [app List.length]; split; try reflexivity.
    do 2 f_equal. lia. }
  destruct Hrem as [Hrem1 Hrem2]. rewrite Hrem1, Hrem2.
  pose proof (rem_after_ok 1 rem) as Hr'.
  destruct iv as [[d p]|].
  - destruct Hi as [Hd Hp].
    destruct (N.eq_dec d 1) as [->|Hd1].
    + exists (Some (p, p)), 1.
      cbn [flat_map filter]. unfold rearm, is_due. cbn [due period handle].
      replace (clock s + 1 <=? clock s + 1) with true
        by (symmetry; apply N.leb_le; lia).
      cbn [app List.length].
      split; [reflexivity|]. split; [split; [exact Hr'|lia]|].
      split; [split; lia|]. rewrite repeat_app. reflexivity.
    + exists (Some (d - 1, p)), 0.
      cbn [flat_map filter]. unfold rearm, is_due. cbn [due period handle].
      replace (clock s + d <=? clock s + 1) with false
        by (symmetry; apply N.leb_gt; lia).
      cbn [app List.length].
      split; [do 3 f_equal; lia|]. split; [split; [exact Hr'|lia]|].
      split; [split; lia|]. rewrite repeat_app. reflexivity.
  - exists None, 0. cbn [flat_map filter app List.length].
    split; [reflexivity|]. split; [split; [exact Hr'|exact I]|].
    split; [reflexivity|]. rewrite repeat_app. reflexivity.
Qed.

Lemma rem_after_add n rem :
  rem_after n (rem_after 1 rem) = rem_after (1 + n) rem.
Proof.
  destruct rem as [r|]; cbn [rem_after]; [|reflexivity].
  destruct (N.leb_spec r 1); cbn [rem_after].
  - destruct (N.leb_spec r (1 + n)); [reflexivity|lia].
  - destruct (N.leb_spec (r - 1) n), (N.leb_spec r (1 + n)); try lia;
      [reflexivity|f_equal; lia].
Qed.

Lemma rem_calls_add n rem :
  match rem with Some r => 1 <= r | None => True end ->
  (rem_calls 1 rem + rem_calls n (rem_after 1 rem))%nat = rem_calls (1 + n) rem.
Proof.
  destruct rem as [r|]; cbn [rem_after rem_calls]; [|reflexivity].
  intros Hr.
  destruct (N.leb_spec r 1); cbn [rem_calls].
  - destruct (N.leb_spec r (1 + n)); [reflexivity|lia].
  - destruct (N.leb_spec (r - 1) n), (N.leb_spec r (1 + n)); try lia;
      reflexivity.
Qed.

Lemma iv_after_add n iv iv1 iv' k1 k2 :
  iv_after 1 iv iv1 k1 -> iv_after n iv1 iv' k2 ->
  iv_after (1 + n) iv iv' (k1 + k2).
Proof.
  destruct iv as [[d p]|], iv1 as [[d1 p1]|], iv' as [[d' p']|];
    cbn [iv_after]; try tauto.
  - intros [-> H1] [-> H2]. split; [reflexivity|]. lia.
  - intros -> ->. reflexivity.
Qed.

(** The table, the clock and the log after any number of milliseconds;
    nothing else of the scheduler state moves. *)
Lemma ticks_table fs :
  forall s rem iv h0 h,
    timers s = table (clock s) rem iv h0 h ->
    table_ok rem iv ->
    let n := N.of_nat (List.length fs) in
    let s' := run (ticks fs) s in
    exists iv' k,
      timers s' = table (clock s') (rem_after n rem) iv' h0 h /\
      table_ok (rem_after n rem) iv' /\
      iv_after n iv iv' k /\
      List.length (fired s')
        = (List.length (fired s) + rem_calls n rem + N.to_nat k)%nat /\
      clock s' = clock s + n /\
      active s' = active s /\
      intervalHours s' = intervalHours s /\
      intervalRef s' = intervalRef s /\
      next_handle s' = next_handle s.
Proof.
  induction fs as [|f fs IH]; intros s rem iv h0 h Ht Hok n s'.
  - subst n s'. cbn [ticks map run fold_left List.length N.of_nat].
    exists iv, 0. rewrite N.add_0_r.
    assert (Hrem : rem_after 0 rem = rem).
    { destruct rem as [r|]; cbn; [|reflexivity].
      destruct Hok as [Hr _]. destruct (N.leb_spec r 0); [lia|].
      f_equal. lia. }
    assert (Hcalls : rem_calls 0 rem = 0%nat).
    { destruct rem as [r|]; cbn; [|reflexivity].
      destruct Hok as [Hr _]. destruct (N.leb_spec r 0); [lia|reflexivity]. }
    rewrite Hrem, Hcalls.
    split; [exact Ht|]. split; [exact Hok|]. split.
    { destruct iv as [[d p]|]; cbn; [split; [reflexivity|lia]|reflexivity]. }
    split; [cbn; lia|]. repeat split.
  - destruct (tick_table f s h0 h Ht Hok) as (iv1 & k1 & Ht1 & Hok1 & Hiv1 & Hf1).
    assert (Hc1 : clock (tick f s) = clock s + 1).
    { cbn. lia. }
    rewrite <- Hc1 in Ht1.
    destruct (IH (tick f s) (rem_after 1 rem) iv1 h0 h Ht1 Hok1)
      as (iv' & k2 & Ht' & Hok' & Hiv' & Hf' & Hc' & Ha' & Hh' & Hr' & Hn').
    subst s'. cbn [ticks map]. rewrite run_cons. cbn [step].
    fold (ticks fs).
    assert (En : n = 1 + N.of_nat (List.length fs)).
    { subst n. cbn [List.length]. lia. }
    exists iv', (k1 + k2). rewrite En.
    rewrite <- !rem_after_add.
    split; [exact Ht'|]. split; [exact Hok'|].
    split; [eapply iv_after_add; eassumption|].
    split.
    { rewrite Hf', Hf1, length_app, repeat_length.
      rewrite <- (rem_calls_add (N.of_nat (List.length fs)) rem (proj1 Hok)).
      lia. }
    split; [rewrite Hc', Hc1; lia|].
    rewrite Ha', Hh', Hr', Hn'. repeat split.
Qed.

Lemma delay_ms_1000 : delay_ms 1000 = 1000.
Proof. reflexivity. Qed.

(** Start: the effect arms the interval and, with no images, the timeout. *)
Lemma activate_table s0 :
  active s0 = false -> timers s0 = [] ->
  let s1 := step ToggleActive s0 in
  exists h0 h,
    h0 <> h /\
    timers s1 = table (clock s0)
                  (if no_images s0 then Some 1000 else None)
                  (Some (period_ms s0, period_ms s0)) h0 h /\
    intervalRef s1 = Some h /\
    active s1 = true /\
    clock s1 = clock s0 /\
    fired s1 = fired s0 /\
    images s1 = images s0 /\
    intervalHours s1 = intervalHours s0.
Proof.
  intros Ha Ht s1. subst s1.
  unfold step, rerun, cleanup, effect, no_images.
  rewrite Ha. cbn [negb active].
  destruct (List.length (images s0) =? 0)%nat eqn:Hi.
  - exists (next_handle s0), (S (next_handle s0)).
    split; [lia|].
    destruct (intervalRef s0) as [r|];
      cbn [clearInterval intervalRef active timers images];
      rewrite Ht, Hi; cbn; unfold table; cbn [app];
      rewrite ?delay_ms_1000; repeat split.
  - exists (S (next_handle s0)), (next_handle s0).
    split; [lia|].
    destruct (intervalRef s0) as [r|];
      cbn [clearInterval intervalRef active timers images];
      rewrite Ht, Hi; cbn; unfold table; cbn [app]; repeat split.
Qed.

(** Stop: the cleanup clears the interval; a pending timeout stays. *)
Lemma deactivate_table s rem iv h0 h :
  active s = true ->
  timers s = table (clock s) rem iv h0 h ->
  intervalRef s = Some h -> h0 <> h ->
  let s' := step ToggleActive s in
  timers s' = table (clock s) rem None h0 h /\
  active s' = false /\ clock s' = clock s /\ fired s' = fired s.
Proof.
  intros Ha Ht Hr Hh s'. subst s'.
  unfold step, rerun, cleanup, effect.
  rewrite Ha. cbn [negb active intervalRef]. rewrite Hr.
  cbn [clearInterval intervalRef active timers fired clock].
  rewrite Ht. unfold table.
  apply Nat.eqb_neq in Hh.
  destruct rem as [r|], iv as [[d p]|]; cbn [app filter handle negb];
    rewrite ?Hh, ?Nat.eqb_refl; cbn [negb filter handle];
    rewrite ?Hh; cbn [negb]; repeat split.
Qed.

(** A new interval while active, with images in the timeline: the old
    interval leaves the table before the new one enters it, and no timeout
    is added. *)
Lemma change_table s rem d p h0 h h' :
  active s = true ->
  timers s = table (clock s) rem (Some (d, p)) h0 h ->
  intervalRef s = Some h -> h0 <> h ->
  Qeq_bool h' (intervalHours s) = false ->
  no_images s = false ->
  let s' := step (SetIntervalHours h') s in
  timers s' = table (clock s) rem (Some (period_of h', period_of h')) h0 (next_handle s) /\
  active s' = true /\ clock s' = clock s /\ fired s' = fired s.
Proof.
  intros Ha Ht Hr Hh Hq Hi s'. subst s'.
  unfold step. rewrite Hq.
  unfold rerun, cleanup, effect, no_images in *.
  cbn [intervalRef]. rewrite Hr.
  cbn [clearInterval intervalRef active timers fired clock images].
  rewrite Ha, Hi, Ht. unfold table.
  apply Nat.eqb_neq in Hh.
  destruct rem as [r|]; cbn [app filter handle negb];
    rewrite ?Hh, ?Nat.eqb_refl; cbn [negb filter handle];
    cbn; repeat split.
Qed.

(** The same change with no image in the timeline: the effect also sets
    the 1000 ms timeout, as on activation. *)
Lemma change_table_empty s rem d p h0 h h' :
  active s = true ->
  timers s = table (clock s) rem (Some (d, p)) h0 h ->
  intervalRef s = Some h -> h0 <> h ->
  Qeq_bool h' (intervalHours s) = false ->
  no_images s = true ->
  let s' := step (SetIntervalHours h') s in
  timers s'
    = table (clock s) rem None h0 h
      ++ [{| handle := next_handle s; due := clock s + 1000; period := None |};
          {| handle := S (next_handle s); due := clock s + period_of h';
             period := Some (period_of h') |}] /\
  fired s' = fired s.
Proof.
  intros Ha Ht Hr Hh Hq Hi s'. subst s'.
  unfold step. rewrite Hq.
  unfold rerun, cleanup, effect, no_images in *.
  cbn [intervalRef]. rewrite Hr.
  cbn [clearInterval intervalRef active timers fired clock images].
  rewrite Ha, Hi, Ht. unfold table.
  apply Nat.eqb_neq in Hh.
  destruct rem as [r|]; cbn [app filter handle negb];
    rewrite ?Hh, ?Nat.eqb_refl; cbn [negb filter handle];
    cbn; rewrite ?delay_ms_1000; repeat split.
Qed.

Lemma rem_calls_split n m rem :
  (rem_calls n rem + rem_calls m (rem_after n rem))%nat = rem_calls (n + m) rem.
Proof.
  destruct rem as [r|]; cbn [rem_after rem_calls]; [|reflexivity].
  destruct (N.leb_spec r n); cbn [rem_calls].
  - destruct (N.leb_spec r (n + m)); [reflexivity|lia].
  - destruct (N.leb_spec (r - n) m), (N.leb_spec r (n + m)); try lia;
      reflexivity.
Qed.

Lemma rem_calls_immediate s0 t :
  rem_calls t (if no_images s0 then Some 1000 else None) = immediate s0 t.
Proof.
  unfold immediate. destruct (no_images s0); reflexivity.
Qed.

(** An interval armed [p] milliseconds ahead has run [n / p] times after
    [n] milliseconds. *)
Lemma iv_after_div n p iv' k rem :
  1 <= p ->
  iv_after n (Some (p, p)) iv' k -> table_ok rem iv' ->
  k = n / p /\ exists d', iv' = Some (d', p).
Proof.
  intros Hp H [_ Hok]. destruct iv' as [[d' p']|]; cbn [iv_after] in H;
    [|contradiction].
  destruct H as [-> H]. destruct Hok as [Hd1 Hd2].
  split; [|now exists d'].
  apply (N.div_unique n p k (p - d')); lia.
Qed.

Lemma iv_after_none n iv' k : iv_after n None iv' k -> k = 0.
Proof. destruct iv' as [[d' p']|]; cbn; tauto. Qed.

(** One activation from a state with no timer pending.  For every interval
    of at least one millisecond: pressing Start arms the periodic timer and,
    when the history is empty, one capture 1000 ms ahead.  After [n] milliseconds of running,
    [captureAndProcess] has been called by the timers exactly [n / I] times
    for the cadence, plus once for the immediate capture when the history was
    empty and [n] has reached 1000; with a non-empty history there is only
    the cadence.  Pressing Stop ends the cadence: from then on the count only
    moves by the immediate capture, if it was still pending. *)
Theorem capture_cadence (s0 : Sched) (fs gs : list Frame) :
  active s0 = false -> timers s0 = [] ->
  1 <= period_ms s0 ->
  let s1 := step ToggleActive s0 in
  let n := N.of_nat (List.length fs) in
  let m := N.of_nat (List.length gs) in
  let running := run (ticks fs) s1 in
  let stopped := step ToggleActive running in
  active running = true /\
  List.length (fired running)
    = (List.length (fired s0) + immediate s0 n + N.to_nat (n / period_ms s0))%nat /\
  active stopped = false /\
  List.length (fired (run (ticks gs) stopped))
    = (List.length (fired s0) + immediate s0 (n + m)
       + N.to_nat (n / period_ms s0))%nat.
Proof.
  intros Ha Ht Hp s1 n m running stopped.
  destruct (activate_table s0 Ha Ht)
    as (h0 & h & Hh & Ht1 & Hr1 & Ha1 & Hc1 & Hf1 & Hi1 & Hq1).
  fold s1 in Ht1, Hr1, Ha1, Hc1, Hf1, Hi1, Hq1.
  rewrite <- Hc1 in Ht1.
  assert (Hok1 : table_ok (if no_images s0 then Some 1000 else None)
                          (Some (period_ms s0, period_ms s0))).
  { split; [destruct (no_images s0); cbn; lia|cbn; lia]. }
  destruct (ticks_table fs s1 h0 h Ht1 Hok1)
    as (iv2 & k & Ht2 & Hok2 & Hiv2 & Hf2 & Hc2 & Ha2 & _ & Hr2 & _).
  fold running n in Ht2, Hok2, Hiv2, Hf2, Hc2, Ha2, Hr2.
  destruct (@iv_after_div _ _ _ _ _ Hp Hiv2 Hok2) as [-> _].
  rewrite rem_calls_immediate, Hf1 in Hf2.
  split; [congruence|]. split; [exact Hf2|].
  assert (Ha2' : active running = true) by congruence.
  assert (Hr2' : intervalRef running = Some h) by congruence.
  destruct (@deactivate_table running _ _ h0 h Ha2' Ht2 Hr2' Hh)
    as (Ht3 & Ha3 & Hc3 & Hf3).
  fold stopped in Ht3, Ha3, Hc3, Hf3.
  split; [exact Ha3|].
  rewrite <- Hc3 in Ht3.
  assert (Hok3 : table_ok (rem_after n (if no_images s0 then Some 1000 else None)) None).
  { split; [apply Hok2|exact I]. }
  destruct (ticks_table gs stopped h0 h Ht3 Hok3)
    as (iv4 & k4 & _ & _ & Hiv4 & Hf4 & _).
  fold m in Hiv4, Hf4.
  apply iv_after_none in Hiv4. subst k4.
  rewrite Hf4, Hf3, Hf2.
  rewrite <- (rem_calls_immediate s0 (n + m)), <- (rem_calls_split n m).
  rewrite (rem_calls_immediate s0 n). cbn. lia.
Qed.

Lemma capture_cadence_witness :
  let fs := repeat frame_a 2500 in
  let gs := repeat no_frame 700 in
  period_ms init = 5400000 /\
  List.length (fired (run (ticks fs) (step ToggleActive init))) = 1%nat /\
  List.length
    (fired (run (ticks gs) (step ToggleActive (run (ticks fs) (step ToggleActive init)))))
    = 1%nat.
Proof.
  intros fs gs.
  assert (Hp : 1 <= period_ms init) by (vm_compute; discriminate).
  destruct (capture_cadence init fs gs eq_refl eq_refl Hp)
    as (_ & H1 & _ & H2).
  split; [reflexivity|]. split.
  - rewrite H1. vm_compute. reflexivity.
  - rewrite H2. vm_compute. reflexivity.
Defined.

(** C4.  The immediate capture is not tied to the activation that
    scheduled it: the timeout is set without keeping its handle, and the
    cleanup of the effect clears the interval only.  On an empty history,
    Start followed by Stop after 500 ms still calls [captureAndProcess] at
    1000 ms, while the scheduler is inactive; and Start, Stop at 300 ms,
    Start at 600 ms calls it at 1000 ms and again at 1600 ms, two immediate
    captures for the one running activation. *)
Theorem immediate_capture_outlives_stop :
  let half := repeat no_frame 500 in
  let third := repeat no_frame 300 in
  let stopped :=
    run ([ToggleActive] ++ ticks half ++ [ToggleActive]) init in
  let restarted :=
    run ([ToggleActive] ++ ticks third ++ [ToggleActive] ++ ticks third
           ++ [ToggleActive]) init in
  (active stopped = false /\ clock stopped = 500 /\ fired stopped = [] /\
   filter is_interval (timers stopped) = [] /\
   fired (run (ticks half) stopped) = [1000] /\
   active (run (ticks half) stopped) = false) /\
  (active restarted = true /\ clock restarted = 600 /\ fired restarted = [] /\
   List.length (images restarted) = 0%nat /\
   fired (run (ticks (repeat no_frame 1000)) restarted) = [1000; 1600]).
Proof.
  cbv zeta. split.
  - split; [vm_compute; reflexivity|]. split; [vm_compute; reflexivity|].
    split; [vm_compute; reflexivity|]. split; [vm_compute; reflexivity|].
    split; vm_compute; reflexivity.
  - split; [vm_compute; reflexivity|]. split; [vm_compute; reflexivity|].
    split; [vm_compute; reflexivity|]. split; vm_compute; reflexivity.
Qed.

(** C5 as stated fails: with no image in the timeline, a change of the
    interval schedules one more capture 1000 ms ahead.  Changed 500 ms
    after Start, the timers call [captureAndProcess] at 1000 and at 1500,
    where without the change there is the one call at 1000.  Changed after
    a purge at 1200, they call it at 1000 and at 2200.  The second call
    belongs to no cadence: the new period is two hours. *)
Lemma interval_change_extra_capture :
  fired (run (ToggleActive :: ticks (repeat no_frame 500)
                ++ SetIntervalHours 2 :: ticks (repeat no_frame 1200)) init)
    = [1000; 1500] /\
  fired (run (ToggleActive :: ticks (repeat no_frame 1700)) init) = [1000] /\
  fired (run (ToggleActive :: ticks (repeat frame_a 1200)
                ++ PurgeData :: SetIntervalHours 2
                :: ticks (repeat frame_c 1200)) init)
    = [1000; 2200] /\
  period_of 2 = 7200000.
Proof. vm_compute. repeat split; reflexivity. Qed.

(** C5, amended.  Changing the interval while the scheduler runs re-runs
    the effect, its cleanup first: the old interval timer has left the table
    when the new one is armed, one full new period ahead, so the table holds
    exactly one interval timer and the change itself calls nothing.  With at
    least one image in the timeline the change adds no timeout, and over the
    whole run the timers call [captureAndProcess] [n / I] times before the
    change and [m / I'] times after it, plus the one immediate capture of
    the activation if the history was empty then.  With no image in the
    timeline the change also sets the 1000 ms timeout of an activation. *)
Theorem interval_change_restarts (s0 : Sched) (fs gs : list Frame) (h' : Q) :
  active s0 = false -> timers s0 = [] ->
  1 <= period_ms s0 -> 1 <= period_of h' ->
  let running := run (ticks fs) (step ToggleActive s0) in
  Qeq_bool h' (intervalHours s0) = false ->
  let changed := step (SetIntervalHours h') running in
  let n := N.of_nat (List.length fs) in
  let m := N.of_nat (List.length gs) in
  fired changed = fired running /\
  (exists hn,
      filter is_interval (timers changed)
        = [{| handle := hn;
              due := clock running + period_of h';
              period := Some (period_of h') |}]) /\
  (no_images running = false ->
   filter is_timeout (timers changed) = filter is_timeout (timers running) /\
   List.length (fired (run (ticks gs) changed))
     = (List.length (fired s0) + immediate s0 (n + m)
        + N.to_nat (n / period_ms s0) + N.to_nat (m / period_of h'))%nat) /\
  (no_images running = true ->
   filter is_timeout (timers changed)
     = filter is_timeout (timers running)
       ++ [{| handle := next_handle running;
              due := clock running + 1000;
              period := None |}]).
Proof.
  intros Ha Ht Hp Hp' running Hq changed n m.
  destruct (activate_table s0 Ha Ht)
    as (h0 & h & Hh & Ht1 & Hr1 & Ha1 & Hc1 & Hf1 & Hi1 & Hq1).
  rewrite <- Hc1 in Ht1.
  assert (Hok1 : table_ok (if no_images s0 then Some 1000 else None)
                          (Some (period_ms s0, period_ms s0))).
  { split; [destruct (no_images s0); cbn; lia|cbn; lia]. }
  destruct (ticks_table fs (step ToggleActive s0) h0 h Ht1 Hok1)
    as (iv2 & k & Ht2 & Hok2 & Hiv2 & Hf2 & Hc2 & Ha2 & Hq2 & Hr2 & _).
  fold running n in Ht2, Hok2, Hiv2, Hf2, Hc2, Ha2, Hq2, Hr2.
  destruct (@iv_after_div _ _ _ _ _ Hp Hiv2 Hok2) as [-> [d' ->]].
  rewrite rem_calls_immediate, Hf1 in Hf2.
  assert (Ha2' : active running = true) by congruence.
  assert (Hr2' : intervalRef running = Some h) by congruence.
  assert (Hq2' : Qeq_bool h' (intervalHours running) = false) by congruence.
  set (rem := rem_after n (if no_images s0 then Some 1000 else None)) in *.
  destruct (no_images running) eqn:Hi.
  - destruct (@change_table_empty running _ _ _ h0 h h' Ha2' Ht2 Hr2' Hh Hq2' Hi)
      as (Ht3 & Hf3).
    fold changed in Ht3, Hf3.
    split; [exact Hf3|].
    split.
    { exists (S (next_handle running)). rewrite Ht3. unfold table.
      destruct rem; reflexivity. }
    split; [discriminate|]. intros _.
    rewrite Ht3, Ht2. unfold table. destruct rem; reflexivity.
  - destruct (@change_table running _ _ _ h0 h h' Ha2' Ht2 Hr2' Hh Hq2' Hi)
      as (Ht3 & Ha3 & Hc3 & Hf3).
    fold changed in Ht3, Ha3, Hc3, Hf3.
    split; [exact Hf3|].
    split.
    { exists (next_handle running). rewrite Ht3. unfold table.
      destruct rem; reflexivity. }
    split; [|discriminate]. intros _.
    split.
    { rewrite Ht3, Ht2. unfold table. destruct rem; reflexivity. }
    rewrite <- Hc3 in Ht3.
    assert (Hok3 : table_ok rem (Some (period_of h', period_of h'))).
    { split; [apply Hok2|cbn; lia]. }
    destruct (ticks_table gs changed h0 (next_handle running) Ht3 Hok3)
      as (iv4 & k4 & _ & Hok4 & Hiv4 & Hf4 & _).
    fold m in Hok4, Hiv4, Hf4.
    destruct (@iv_after_div _ _ _ _ _ Hp' Hiv4 Hok4) as [-> _].
    rewrite Hf4, Hf3, Hf2. subst rem.
    rewrite <- (rem_calls_immediate s0 (n + m)), <- (rem_calls_split n m).
    rewrite (rem_calls_immediate s0 n). lia.
Qed.

Lemma interval_change_restarts_witness :
  let h' : Q := 1 # 3600 in
  let running := run (ticks (repeat frame_a 1500)) (step ToggleActive init) in
  let early := run (ticks (repeat no_frame 500)) (step ToggleActive init) in
  period_of h' = 1000 /\
  no_images running = false /\
  List.length
    (fired (run (ticks (repeat frame_c 2500)) (step (SetIntervalHours h') running)))
    = 3%nat /\
  no_images early = true /\
  filter is_timeout (timers (step (SetIntervalHours h') early))
    = [{| handle := 1; due := 1000; period := None |};
       {| handle := 3; due := 1500; period := None |}].
Proof.
  intros h' running early.
  assert (Hp : 1 <= period_ms init) by (vm_compute; discriminate).
  assert (Hp' : 1 <= period_of h') by (vm_compute; discriminate).
  assert (Hi : no_images running = false) by (vm_compute; reflexivity).
  assert (He : no_images early = true) by (vm_compute; reflexivity).
  destruct (interval_change_restarts init (repeat frame_a 1500) (repeat frame_c 2500)
              h' eq_refl eq_refl Hp Hp' eq_refl)
    as (_ & _ & H & _).
  destruct (interval_change_restarts init (repeat no_frame 500) []
              h' eq_refl eq_refl Hp Hp' eq_refl)
    as (_ & _ & _ & H').
  destruct (H Hi) as [_ Hn].
  split; [reflexivity|]. split; [exact Hi|].
  split; [etransitivity; [exact Hn|]; vm_compute; reflexivity|].
  split; [exact He|].
  etransitivity; [exact (H' He)|]. vm_compute. reflexivity.
Defined.

End SchedulerFacts.

(** ** The live session bridge *)

Section LiveSession.

Import LiveAudio LiveSpec.

Local Open Scope nat_scope.

Lemma live_run_cons e es s : run (e :: es) s = run es (step e s).
Proof. reflexivity. Qed.

Lemma live_run_app es1 es2 s : run (es1 ++ es2) s = run es2 (run es1 s).
Proof. apply fold_left_app. Qed.

Lemma opening_streaming r st sess : streaming st sess (run (opening r st sess) init).
Proof. repeat split. Qed.

Ltac step_cases :=
  repeat match goal with
         | |- context [match ?x with _ => _ end] => destruct x eqn:?
         end.

Lemma streaming_step st sess e s :
  streaming_event e = true -> streaming st sess s -> streaming st sess (step e s).
Proof.
  intros He H.
  destruct H as (H1 & H2 & H3 & H4 & H5 & H6 & H7 & H8 & H9 & H10).
  destruct e; try discriminate He; unfold step, handleAudioData;
    step_cases; unfold streaming; cbn; repeat split; congruence.
Qed.

Lemma streaming_run st sess es :
  forall s,
    forallb streaming_event es = true ->
    streaming st sess s -> streaming st sess (run es s).
Proof.
  induction es as [|e es IH]; intros s Hes H; [exact H|].
  cbn [forallb] in Hes. apply andb_true_iff in Hes. destruct Hes as [He Hes].
  rewrite live_run_cons. apply IH; [exact Hes|].
  now apply streaming_step.
Qed.

Lemma realtime_app l1 l2 : realtime (l1 ++ l2) = realtime l1 ++ realtime l2.
Proof. apply filter_app. Qed.

Lemma torn_down_step r sess e s :
  late_event r e = true -> torn_down r sess s ->
  torn_down r sess (step e s) /\ realtime (sent (step e s)) = realtime (sent s).
Proof.
  intros He (H1 & H2 & H3 & H4 & H5).
  unfold torn_down.
  destruct e as [r0|r0 st0|r0|r0 sess0|ctx|h ready|ok|now decoded|sess0| |r0|r0];
    try discriminate He; unfold step.
  - (* SessionOpened, late *)
    cbn in He. apply Nat.eqb_eq in He. subst r0.
    rewrite H4. repeat split; assumption.
  - (* AudioProcess *)
    destruct (existsb (Nat.eqb ctx) (closed s)) eqn:Hc;
      [repeat split; assumption|].
    destruct (sessionRef s); [|repeat split; assumption].
    rewrite H2. cbn [filter fst].
    destruct (Nat.eqb_spec 1 ctx) as [<-|_]; [congruence|].
    cbn [map]. rewrite app_nil_r. cbn. repeat split; assumption.
  - (* VideoTick *)
    rewrite H1. cbn. repeat split; assumption.
  - (* BlobEncoded *)
    rewrite H5. repeat split; assumption.
  - (* AudioData *)
    unfold handleAudioData.
    destruct (outputAudioContextRef s); [|repeat split; assumption].
    destruct decoded; cbn; repeat split; assumption.
  - (* ToolCall *)
    cbn. rewrite realtime_app. cbn. rewrite app_nil_r.
    repeat split; assumption.
  - (* TransportError *)
    cbn. repeat split; assumption.
  - (* TransportClosed *)
    destruct (existsb (Nat.eqb r0) (cleaned s)); cbn; repeat split; assumption.
Qed.

Lemma torn_down_run r sess es :
  forall s,
    forallb (late_event r) es = true ->
    torn_down r sess s ->
    realtime (sent (run es s)) = realtime (sent s).
Proof.
  induction es as [|e es IH]; intros s Hes H; [reflexivity|].
  cbn [forallb] in Hes. apply andb_true_iff in Hes. destruct Hes as [He Hes].
  rewrite live_run_cons.
  destruct (torn_down_step e He H) as [H' Hs].
  rewrite (IH _ Hes H'). exact Hs.
Qed.

(** C9 as stated fails, three times over.  A transport error runs no
    teardown: nothing is stopped or closed, and the next video frame is
    still sent.  A frame whose encoding is in flight when the cleanup runs
    is sent after it.  On a camera switch the old stream is stopped by the
    cleanup and again by the restart. *)
Lemma teardown_not_as_stated :
  let live := run (opening 1 7 9) init in
  (let s := run [TransportError; VideoTick 3 true; BlobEncoded true] live in
   stopped s = [] /\ closed s = [] /\ intervals s = [(3, 9)] /\
   sent s = [(9, VideoFrame)])
  /\
  (sent (run [VideoTick 3 true; Cleanup 1] live) = [] /\
   sent (run [VideoTick 3 true; Cleanup 1; BlobEncoded true] live)
     = [(9, VideoFrame)])
  /\
  stopped (run [Cleanup 1; EffectRun 2] live) = [7; 7].
Proof. cbv. repeat split; reflexivity. Qed.

(** C9, amended.  The teardown is the cleanup of the session effect.  It has
    no early exit: in any state it clears the interval in
    [videoIntervalRef], stops the stream in [streamRef] and closes the
    contexts in the two context refs, whenever they are set.  For a session
    that came up in order and has been streaming, the cleanup stops the
    media stream exactly once, closes both audio contexts and leaves no
    interval; after it, with no frame encoding in flight at that moment,
    neither cadence sends anything more, whatever arrives.  If the effect
    then runs again (a camera switch), the restart stops the same stream
    once more.  A transport error is not a teardown: it leaves the stream,
    the contexts and the interval as they are. *)
Theorem cleanup_releases (r r' st sess : nat) (es rest : list event) :
  (forall s x,
      (streamRef s = Some x -> In x (stopped (step (Cleanup r) s))) /\
      (inputAudioContextRef s = Some x -> In x (closed (step (Cleanup r) s))) /\
      (outputAudioContextRef s = Some x -> In x (closed (step (Cleanup r) s))) /\
      (forall sess', ~ In (videoIntervalRef s, sess') (intervals (step (Cleanup r) s))))
  /\
  (forallb streaming_event es = true ->
   let s := run (opening r st sess ++ es) init in
   let s' := step (Cleanup r) s in
   stopped s = [] /\ stopped s' = [st] /\
   (exists ci co,
       inputAudioContextRef s = Some ci /\ outputAudioContextRef s = Some co /\
       closed s = [] /\ closed s' = [ci; co]) /\
   intervals s <> [] /\ intervals s' = [] /\
   (encoding s = [] ->
    forallb (late_event r) rest = true ->
    realtime (sent (run rest s')) = realtime (sent s')) /\
   stopped (step (EffectRun r') s') = [st; st] /\
   (let e := step TransportError s in
    stopped e = [] /\ closed e = [] /\ intervals e = intervals s)).
Proof.
  split.
  - intros s x. cbn. unfold release. repeat split.
    + intros ->. rewrite in_app_iff. cbn [In]. tauto.
    + intros ->. destruct (outputAudioContextRef s);
        rewrite ?in_app_iff; cbn [In]; tauto.
    + intros ->. destruct (inputAudioContextRef s);
        rewrite ?in_app_iff; cbn [In]; tauto.
    + intros sess' Hin. apply filter_In in Hin. destruct Hin as [_ Hin].
      cbn in Hin. rewrite Nat.eqb_refl in Hin. discriminate Hin.
  - intros Hes s s'.
    assert (H : streaming st sess s).
    { subst s. rewrite live_run_app. apply streaming_run; [exact Hes|].
      apply opening_streaming. }
    clearbody s.
    destruct H as (H1 & H2 & H3 & H4 & H5 & H6 & H7 & H8 & H9 & H10).
    assert (Hstop : stopped s' = [st]).
    { subst s'. cbn. rewrite H1, H8. reflexivity. }
    assert (Hclosed : closed s' = [1; 2]).
    { subst s'. cbn. rewrite H2, H3, H9. reflexivity. }
    assert (Hint : intervals s' = []).
    { subst s'. cbn. rewrite H5, H6. reflexivity. }
    split; [exact H8|]. split; [exact Hstop|].
    split; [exists 1, 2; repeat split; assumption|].
    split; [rewrite H6; discriminate|]. split; [exact Hint|].
    split; [|split].
    + intros Henc Hrest. apply (@torn_down_run r sess); [exact Hrest|].
      repeat split.
      * exact Hint.
      * subst s'. cbn. exact H7.
      * rewrite Hclosed. reflexivity.
      * subst s'. cbn. rewrite H10. cbn. now rewrite Nat.eqb_refl.
      * subst s'. cbn. exact Henc.
    + cbn [step stopped set_stopped]. rewrite Hstop.
      subst s'. cbn. rewrite H1. reflexivity.
    + cbn. repeat split; assumption.
Qed.

Lemma cleanup_releases_witness :
  let es := [AudioProcess 1; VideoTick 3 true; BlobEncoded true;
             AudioData 0 (Some (1 # 2)); ToolCall 9] in
  let rest := [AudioProcess 1; VideoTick 3 true; BlobEncoded true;
               SessionOpened 1 9; ToolCall 9] in
  let s := run (opening 1 7 9 ++ es) init in
  let s' := step (Cleanup 1) s in
  forallb streaming_event es = true /\
  encoding s = [] /\
  forallb (late_event 1) rest = true /\
  stopped s' = [7] /\
  realtime (sent (run rest s')) = realtime (sent s').
Proof.
  intros es rest s s'.
  assert (Hes : forallb streaming_event es = true) by reflexivity.
  assert (Henc : encoding s = []) by reflexivity.
  assert (Hrest : forallb (late_event 1) rest = true) by reflexivity.
  destruct (cleanup_releases 1 2 7 9 es rest) as [_ H].
  destruct (H Hes) as (_ & Hstop & _ & _ & _ & Hsend & _).
  split; [exact Hes|]. split; [exact Henc|]. split; [exact Hrest|].
  split; [exact Hstop|]. exact (Hsend Henc Hrest).
Defined.

End LiveSession.

(** ** The chat log and the transcript window *)

Section ChatLog.

Import Chat ChatSpec.

Lemma trimStart_blank s : forallb is_space s = true -> trimStart s = [].
Proof.
  induction s as [|c s IH]; cbn; [reflexivity|].
  destruct (is_space c); cbn; [exact IH | discriminate].
Qed.

Lemma trimStart_keeps s :
  forallb is_space s = false -> forallb is_space (trimStart s) = false.
Proof.
  induction s as [|c s IH]; cbn; [discriminate|].
  destruct (is_space c) eqn:Hc; cbn; [exact IH|].
  intros _. now rewrite Hc.
Qed.

Lemma forallb_rev (A : Type) (f : A -> bool) (l : list A) :
  forallb f (rev l) = forallb f l.
Proof.
  induction l as [|a l IH]; cbn; [reflexivity|].
  rewrite forallb_app, IH. cbn. rewrite andb_true_r. apply andb_comm.
Qed.

Lemma trim_empty s : is_empty (trim s) = forallb is_space s.
Proof.
  unfold trim.
  destruct (forallb is_space s) eqn:Hs.
  - rewrite (trimStart_blank _ Hs). reflexivity.
  - apply trimStart_keeps in Hs.
    rewrite <- forallb_rev in Hs. apply trimStart_keeps in Hs.
    rewrite <- forallb_rev in Hs.
    destruct (rev (trimStart (rev (trimStart s)))); [discriminate|reflexivity].
Qed.

(** X1.  A chat submit whose input consists of white space only (the empty
    input included) changes nothing and sends no request.  Any other input
    appends exactly one user message carrying the input as typed (not
    trimmed), clears the input box, starts the processing state, and sends
    the input together with the log as it was before the submit, so the
    history never contains the message being sent. *)
Theorem handleChatSubmit_blank_or_sent (now_id now_ts : N) (s : State) :
  (forallb is_space (userInput s) = true ->
     handleChatSubmit now_id now_ts s = (s, None)) /\
  (forallb is_space (userInput s) = false ->
     exists msg,
       handleChatSubmit now_id now_ts s =
         ({| chatMessages := chatMessages s ++ [msg];
             userInput := [];
             isProcessing := true |},
          Some {| history := chatMessages s; newMessage := userInput s |}) /\
       role msg = user /\ text msg = userInput s /\
       id msg = toString now_id /\ timestamp msg = now_ts).
Proof.
  unfold handleChatSubmit. rewrite trim_empty. split; intros H; rewrite H.
  - reflexivity.
  - eexists. split; [reflexivity|]. cbn. auto.
Qed.

Lemma handleChatSubmit_blank_or_sent_witness :
  handleChatSubmit 7 7
    {| chatMessages := []; userInput := lit "  "; isProcessing := false |}
  = ({| chatMessages := []; userInput := lit "  "; isProcessing := false |}, None)
  /\ exists msg,
       fst (handleChatSubmit 7 7
              {| chatMessages := []; userInput := lit " hi "; isProcessing := false |})
       = {| chatMessages := [msg]; userInput := []; isProcessing := true |}
       /\ text msg = lit " hi ".
Proof.
  split.
  - apply (proj1 (handleChatSubmit_blank_or_sent 7 7
             {| chatMessages := []; userInput := lit "  "; isProcessing := false |})).
    vm_compute. reflexivity.
  - destruct (proj2 (handleChatSubmit_blank_or_sent 7 7
             {| chatMessages := []; userInput := lit " hi "; isProcessing := false |}))
      as (msg & Heq & _ & Htext & _).
    + vm_compute. reflexivity.
    + exists msg. split; [rewrite Heq; reflexivity | exact Htext].
Defined.

(** The transcripts an event list carries, in order. *)
Lemma chat_run_app es1 es2 w : run (es1 ++ es2) w = run es2 (run es1 w).
Proof. unfold run. apply fold_left_app. Qed.

Lemma slice_last_snoc (A : Type) (l : list A) (t : A) :
  slice_last 4 l ++ [t] = slice_last 5 (l ++ [t]).
Proof.
  unfold slice_last. rewrite length_app. cbn [List.length].
  replace (List.length l + 1 - 5)%nat with (List.length l - 4)%nat by lia.
  rewrite skipn_app.
  replace (List.length l - 4 - List.length l)%nat with 0%nat by lia.
  reflexivity.
Qed.

Lemma heard_app es1 es2 : heard (es1 ++ es2) = heard es1 ++ heard es2.
Proof. unfold heard. apply flat_map_app. Qed.

Lemma window_step e w :
  (List.length (fst w) <= 5)%nat ->
  fst (step e w) = slice_last 5 (fst w ++ heard [e]).
Proof.
  intros Hw.
  assert (Hid : fst w = slice_last 5 (fst w ++ [])).
  { rewrite app_nil_r. unfold slice_last.
    replace (List.length (fst w) - 5)%nat with 0%nat by lia. reflexivity. }
  destruct e as [input|i t|r i t|tr i t]; cbn [step heard flat_map app].
  - exact Hid.
  - destruct (isProcessing (snd w)); exact Hid.
  - exact Hid.
  - unfold handleTranscript. cbn [fst]. apply slice_last_snoc.
Qed.

Lemma slice_last_length (A : Type) (n : nat) (l : list A) :
  (List.length (slice_last n l) <= n)%nat.
Proof. unfold slice_last. rewrite length_skipn. lia. Qed.

Lemma slice_last_slice_app (A : Type) (l1 l2 : list A) :
  slice_last 5 (slice_last 5 l1 ++ l2) = slice_last 5 (l1 ++ l2).
Proof.
  unfold slice_last. rewrite !length_app, length_skipn.
  destruct (Nat.le_gt_cases (List.length l1) 5) as [H|H].
  - replace (List.length l1 - 5)%nat with 0%nat by lia. cbn [skipn].
    f_equal. lia.
  - rewrite !skipn_app.
    replace (List.length l1 - (List.length l1 - 5) + List.length l2 - 5)%nat
      with (List.length l2) by lia.
    rewrite length_skipn.
    replace (List.length l2 - (List.length l1 - (List.length l1 - 5)))%nat
      with (List.length l2 - 5)%nat by lia.
    replace (List.length l1 + List.length l2 - 5 - List.length l1)%nat
      with (List.length l2 - 5)%nat by lia.
    destruct (Nat.le_gt_cases (List.length l2) 5) as [H2|H2].
    + replace (List.length l2 - 5)%nat with 0%nat by lia. cbn [skipn].
      rewrite skipn_skipn. f_equal. f_equal. lia.
    + rewrite (skipn_all2 (skipn _ l1)) by (rewrite length_skipn; lia).
      rewrite (skipn_all2 l1) by lia. reflexivity.
Qed.

Lemma window_run es :
  forall w,
    (List.length (fst w) <= 5)%nat ->
    fst (run es w) = slice_last 5 (fst w ++ heard es).
Proof.
  induction es as [|e es IH] using rev_ind; intros w Hw.
  - cbn. rewrite app_nil_r. unfold slice_last.
    replace (List.length (fst w) - 5)%nat with 0%nat by lia. reflexivity.
  - rewrite chat_run_app. cbn [run fold_left].
    rewrite window_step.
    + fold (run es w). rewrite (IH w Hw), heard_app, app_assoc.
      apply slice_last_slice_app.
    + fold (run es w). rewrite (IH w Hw). apply slice_last_length.
Qed.

Lemma log_step e w :
  exists more,
    chatMessages (snd (step e w)) = chatMessages (snd w) ++ more /\
    Forall plain more /\
    Forall (fun t => exists m, In m more /\ transcribes t m) (heard [e]).
Proof.
  destruct e as [input|i t|r i t|tr i t]; cbn [step heard flat_map app].
  - exists []. cbn. rewrite app_nil_r. auto.
  - destruct (isProcessing (snd w)).
    + exists []. rewrite app_nil_r. auto.
    + unfold handleChatSubmit.
      destruct (is_empty (trim (userInput (snd w)))); cbn.
      * exists []. rewrite app_nil_r. auto.
      * eexists. split; [reflexivity|]. split; [|constructor].
        repeat constructor. discriminate.
  - destruct r as [|a]; cbn.
    + exists []. rewrite app_nil_r. auto.
    + eexists. split; [reflexivity|]. split; [|constructor].
      repeat constructor. discriminate.
  - cbn. eexists. split; [reflexivity|]. split.
    + repeat constructor. cbn. destruct (isUser tr); discriminate.
    + constructor; [|constructor]. eexists. split; [left; reflexivity|].
      split; reflexivity.
Qed.

Lemma log_run es :
  forall w,
  exists more,
    chatMessages (snd (run es w)) = chatMessages (snd w) ++ more /\
    Forall plain more /\
    Forall (fun t => exists m, In m more /\ transcribes t m) (heard es).
Proof.
  induction es as [|e es IH]; intros w.
  - exists []. cbn. rewrite app_nil_r. auto.
  - cbn [run fold_left]. fold (run es (step e w)).
    destruct (log_step e w) as (m1 & H1 & P1 & T1).
    destruct (IH (step e w)) as (m2 & H2 & P2 & T2).
    exists (m1 ++ m2). split; [|split].
    + rewrite H2, H1, app_assoc. reflexivity.
    + apply Forall_app. auto.
    + change (e :: es) with ([e] ++ es). rewrite heard_app.
      apply Forall_app. split.
      * eapply Forall_impl; [|exact T1]. cbn. intros t (m & Hin & Ht).
        exists m. split; [apply in_or_app; auto | exact Ht].
      * eapply Forall_impl; [|exact T2]. cbn. intros t (m & Hin & Ht).
        exists m. split; [apply in_or_app; auto | exact Ht].
Qed.

(** X2.  The transcript window of the live view, started empty, always
    holds the last five transcripts delivered, in order (all of them while
    there are at most five), whatever else happens in the chat; every
    transcript delivered, also those that left the window, is a message of
    the chat log with its text and with role user or model by [isUser]. *)
Theorem transcript_window_last_five (es : list event) (s : State) :
  fst (run es ([], s)) = slice_last 5 (heard es) /\
  (List.length (fst (run es ([], s))) <= 5)%nat /\
  Forall (fun t => exists m, In m (chatMessages (snd (run es ([], s)))) /\
                             transcribes t m)
         (heard es).
Proof.
  assert (Hw : fst (run es ([], s)) = slice_last 5 (heard es)).
  { rewrite window_run by (cbn; lia). reflexivity. }
  split; [exact Hw|]. split.
  - rewrite Hw. apply slice_last_length.
  - destruct (log_run es ([], s)) as (more & Hlog & _ & Ht).
    eapply Forall_impl; [|exact Ht]. cbn. intros t (m & Hin & Htr).
    exists m. split; [|exact Htr]. rewrite Hlog. apply in_or_app. auto.
Qed.

(** X3.  The chat log is append-only: over any sequence of typing, submits,
    replies and live transcripts, the log at the start is a prefix of the
    log at the end, and every message added is a user or model turn whose
    [isThinking] and [groundingUrls] fields are unset (the grounding
    metadata [sendMessage] returns is not stored). *)
Theorem chat_log_append_only (es : list event) (w : list Transcript * State) :
  exists more,
    chatMessages (snd (run es w)) = chatMessages (snd w) ++ more /\
    Forall plain more.
Proof.
  destruct (log_run es w) as (more & Hlog & Hp & _).
  exists more. auto.
Qed.

End ChatLog.

(** ** The playback effect *)

Section FramePlayback.

Import Playback.

Local Open Scope nat_scope.

Lemma findIndex_found i images k :
  findIndex i images = Some k ->
  exists img, nth_error images k = Some img /\ Types.id img = i /\
    forall j img', j < k -> nth_error images j = Some img' -> Types.id img' <> i.
Proof.
  revert k. induction images as [|img rest IH]; intros k; cbn [findIndex].
  - discriminate.
  - destruct (jsstring_eqb (Types.id img) i) eqn:Hid.
    + intros [= <-]. exists img. split; [reflexivity|]. split.
      * now apply jsstring_eqb_eq.
      * intros j img' Hj. lia.
    + destruct (findIndex i rest) as [k'|]; [|discriminate].
      intros [= <-]. destruct (IH k' eq_refl) as (im & Hn & He & Hfirst).
      exists im. split; [exact Hn|]. split; [exact He|].
      intros [|j] img' Hj; cbn [nth_error].
      * intros [= <-]. intros Heq. apply jsstring_eqb_eq in Heq. congruence.
      * apply Hfirst. lia.
Qed.

Lemma findIndex_missing i images :
  findIndex i images = None -> Forall (fun img => Types.id img <> i) images.
Proof.
  induction images as [|img rest IH]; cbn [findIndex]; [constructor|].
  destruct (jsstring_eqb (Types.id img) i) eqn:Hid; [discriminate|].
  destruct (findIndex i rest); [discriminate|]. intros _.
  constructor; [|now apply IH].
  intros Heq. apply jsstring_eqb_eq in Heq. congruence.
Qed.

Lemma start_in_bounds images sel : images <> [] -> start images sel < List.length images.
Proof.
  intros Hne.
  assert (H0 : 0 < List.length images) by (destruct images; [congruence | cbn; lia]).
  unfold start. destruct sel as [sel|]; [|exact H0].
  destruct (findIndex (Types.id sel) images) as [k|] eqn:Hk; [|exact H0].
  destruct (findIndex_found _ _ Hk) as (img & Hn & _).
  apply nth_error_Some. congruence.
Qed.

Lemma shown_cycle images :
  forall n idx,
    idx < List.length images ->
    shown images idx n =
    map (fun k => nth_error images ((idx + k) mod List.length images)) (seq 0 n).
Proof.
  induction n as [|n IH]; intros idx Hidx; [reflexivity|].
  cbn [shown advance seq map]. f_equal.
  - rewrite Nat.add_0_r, Nat.mod_small by exact Hidx. reflexivity.
  - rewrite IH by (apply Nat.mod_upper_bound; lia).
    rewrite <- seq_shift, map_map. apply map_ext. intros k.
    rewrite Nat.Div0.add_mod_idemp_l. f_equal. f_equal. lia.
Qed.

(** X4.  While the playback interval is armed (playback mode, auto-advance
    and a non-empty timeline), the frame index never leaves the timeline:
    the effect starts at the first image with the identifier of the selected
    one, or at the oldest image when nothing is selected or the selection is
    no longer in the timeline, and the k-th run of the callback selects image
    [(start + k) mod length], so playback wraps around to the oldest image
    and never selects an undefined one. *)
Theorem playback_cycles (playbackMode autoAdvance : bool)
    (images : list CapturedImage) (selectedImage : option CapturedImage) (n : nat) :
  armed playbackMode autoAdvance images = true ->
  let idx := start images selectedImage in
  idx < List.length images /\
  (forall sel, selectedImage = Some sel ->
     (exists img, nth_error images idx = Some img /\ Types.id img = Types.id sel /\
        forall j img', j < idx -> nth_error images j = Some img' ->
                       Types.id img' <> Types.id sel)
     \/ (idx = 0 /\ Forall (fun img => Types.id img <> Types.id sel) images)) /\
  (selectedImage = None -> idx = 0) /\
  playback playbackMode autoAdvance images selectedImage n =
    map (fun k => nth_error images ((idx + k) mod List.length images)) (seq 0 n) /\
  Forall (fun shown => exists img, shown = Some img /\ In img images)
         (playback playbackMode autoAdvance images selectedImage n).
Proof.
  intros Harmed idx.
  assert (Hne : images <> []).
  { unfold armed in Harmed. destruct images; [|congruence].
    cbn in Harmed. rewrite andb_false_r in Harmed. discriminate. }
  assert (Hidx : idx < List.length images) by (apply start_in_bounds; exact Hne).
  assert (Hplay : playback playbackMode autoAdvance images selectedImage n =
    map (fun k => nth_error images ((idx + k) mod List.length images)) (seq 0 n)).
  { unfold playback. rewrite Harmed. apply shown_cycle. exact Hidx. }
  split; [exact Hidx|]. split; [|split; [|split]].
  - intros sel ->. subst idx. unfold start.
    destruct (findIndex (Types.id sel) images) as [k|] eqn:Hk.
    + left. apply findIndex_found. exact Hk.
    + right. split; [reflexivity|]. apply findIndex_missing. exact Hk.
  - intros ->. reflexivity.
  - exact Hplay.
  - rewrite Hplay. apply Forall_map, Forall_forall. intros k _.
    destruct (nth_error images ((idx + k) mod List.length images)) as [img|] eqn:Hn.
    + exists img. split; [reflexivity|]. eapply nth_error_In. exact Hn.
    + apply nth_error_None in Hn.
      pose proof (Nat.mod_upper_bound (idx + k) (List.length images)). lia.
Qed.

Lemma playback_cycles_witness :
  playback true true
    [App.newImage 1 1 (lit "a"); App.newImage 2 2 (lit "b"); App.newImage 3 3 (lit "c")]
    (Some (App.newImage 2 2 (lit "b"))) 4
  = [Some (App.newImage 2 2 (lit "b")); Some (App.newImage 3 3 (lit "c"));
     Some (App.newImage 1 1 (lit "a")); Some (App.newImage 2 2 (lit "b"))].
Proof.
  destruct (@playback_cycles true true
              [App.newImage 1 1 (lit "a"); App.newImage 2 2 (lit "b");
               App.newImage 3 3 (lit "c")]
              (Some (App.newImage 2 2 (lit "b"))) 4 eq_refl) as (_ & _ & _ & H & _).
  rewrite H. vm_compute. reflexivity.
Defined.

End FramePlayback.

(** ** The base64 text of a byte array *)

Section Codec.

Import GeminiService.

Local Open Scope N_scope.

Lemma b64_char_not_comma v : b64_char v <> 44.
Proof.
  unfold b64_char.
  destruct (v <? 26) eqn:H1; [lia|].
  destruct (v <? 52) eqn:H2; [lia|].
  destruct (v <? 62) eqn:H3; [lia|].
  destruct (v =? 62); lia.
Qed.

Lemma btoa_no_comma s e : btoa s = Some e -> Forall (fun c => c <> 44) e.
Proof.
  unfold btoa. destruct (forallb _ s); [|discriminate]. intros [= <-].
  apply Forall_app. split.
  - apply Forall_map, Forall_forall. intros v _. apply b64_char_not_comma.
  - unfold b64_padding. apply Forall_forall. intros c Hc.
    apply repeat_spec in Hc. subst c. discriminate.
Qed.

Lemma encode_round_trip (bytes : list byte) :
  exists base64,
    encodeAudio bytes = Some base64 /\ decodeAudio base64 = Some bytes /\
    Forall (fun c => c <> 44) base64.
Proof.
  unfold encodeAudio, decodeAudio.
  rewrite append_loop_is_map. cbn [app].
  destruct (atob_btoa (s := map fromCharCode bytes)) as [e [He1 He2]].
  - apply Forall_map, Forall_forall. intros b _.
    pose proof (Byte.to_N_bounded b). unfold fromCharCode. lia.
  - exists e. split; [exact He1|]. split; [|eapply btoa_no_comma; exact He1].
    rewrite He2. f_equal.
    rewrite map_map. rewrite <- (map_id bytes) at 2.
    apply map_ext. intros b. apply to_uint8_fromCharCode.
Qed.

End Codec.

(** ** PCM audio: [createPcmBlob], [decodeAudioData] *)

Section Pcm.

Import GeminiService GeminiPcm PcmSpec.

Local Ltac dlia := zify; Z.to_euclidean_division_equations; lia.

Local Ltac qlra :=
  unfold Qdiv in *; change (/ 32768) with (1 # 32768) in *; lra.

Lemma to_N_to_uint8 n : (n < 256)%N -> Byte.to_N (to_uint8 n) = n.
Proof.
  intros Hn. unfold to_uint8. rewrite N.mod_small by exact Hn.
  destruct (Byte.of_N n) as [b|] eqn:Hb.
  - now apply Byte.to_of_N.
  - apply Byte.of_N_None_iff in Hb. lia.
Qed.

Lemma ToInt16_range x : (-32768 <= ToInt16 x < 32768)%Z.
Proof.
  unfold ToInt16.
  pose proof (Z.mod_pos_bound (truncate x) 65536 eq_refl) as Hm.
  destruct (32768 <=? truncate x mod 65536)%Z eqn:Hc;
    [apply Z.leb_le in Hc | apply Z.leb_gt in Hc]; lia.
Qed.

Lemma int16_of_int16_bytes v rest :
  (-32768 <= v < 32768)%Z ->
  Int16Array_of (int16_bytes v ++ rest) = option_map (cons v) (Int16Array_of rest).
Proof.
  intros Hv. unfold int16_bytes. cbn [app Int16Array_of]. f_equal. f_equal.
  unfold int16_of_bytes.
  rewrite !to_N_to_uint8 by dlia.
  rewrite !Z2N.id by dlia.
  destruct (32768 <=? v mod 65536 mod 256 + 256 * (v mod 65536 / 256))%Z eqn:Hc;
    [apply Z.leb_le in Hc | apply Z.leb_gt in Hc]; dlia.
Qed.

Lemma Int16Array_of_bytes l :
  Forall (fun v => (-32768 <= v < 32768)%Z) l ->
  Int16Array_of (flat_map int16_bytes l) = Some l.
Proof.
  induction 1 as [|v l Hv _ IH]; [reflexivity|].
  cbn [flat_map]. rewrite int16_of_int16_bytes by exact Hv.
  rewrite IH. reflexivity.
Qed.

Lemma mono_channel (f : Z -> Q) (l : list Z) :
  map (fun i => f (nth (i * 1 + 0) l 0%Z)) (seq 0 (List.length l / 1)) = map f l.
Proof.
  rewrite Nat.div_1_r.
  apply nth_ext with (d := f 0%Z) (d' := f 0%Z).
  - now rewrite !length_map, length_seq.
  - intros n Hn. rewrite length_map, length_seq in Hn.
    rewrite (nth_indep _ (f 0%Z) ((fun i => f (nth (i * 1 + 0) l 0%Z)) 0%nat))
      by (now rewrite length_map, length_seq).
    rewrite (map_nth (fun i => f (nth (i * 1 + 0) l 0%Z))).
    rewrite seq_nth by exact Hn. cbn [Nat.add].
    rewrite Nat.mul_1_r, Nat.add_0_r. now rewrite (map_nth f).
Qed.

Lemma Qle_bool_false a b : Qle_bool a b = false <-> b < a.
Proof.
  split.
  - intros H. apply Qnot_le_lt. intros Hle. apply Qle_bool_iff in Hle. congruence.
  - intros H. destruct (Qle_bool a b) eqn:E; [|reflexivity].
    apply Qle_bool_iff in E. exfalso. eapply Qlt_not_le; eassumption.
Qed.

Lemma createBuffer_None ctx nc len rate :
  createBuffer ctx nc len rate = None <->
  nc = 0%nat \/ (maxChannels ctx < nc)%nat \/ len = 0%nat \/
  rate < minRate ctx \/ maxRate ctx < rate.
Proof.
  unfold createBuffer.
  destruct (1 <=? nc)%nat eqn:H1;
    [apply Nat.leb_le in H1 | apply Nat.leb_gt in H1].
  2:{ cbn [andb]. split; [intros _; left; lia | reflexivity]. }
  destruct (nc <=? maxChannels ctx)%nat eqn:H2;
    [apply Nat.leb_le in H2 | apply Nat.leb_gt in H2].
  2:{ cbn [andb]. split; [intros _; right; left; exact H2 | reflexivity]. }
  destruct (1 <=? len)%nat eqn:H3;
    [apply Nat.leb_le in H3 | apply Nat.leb_gt in H3].
  2:{ cbn [andb]. split; [intros _; right; right; left; lia | reflexivity]. }
  destruct (Qle_bool (minRate ctx) rate) eqn:H4.
  2:{ cbn [andb]. apply Qle_bool_false in H4.
      split; [intros _; right; right; right; left; exact H4 | reflexivity]. }
  destruct (Qle_bool rate (maxRate ctx)) eqn:H5.
  2:{ cbn [andb]. apply Qle_bool_false in H5.
      split; [intros _; right; right; right; right; exact H5 | reflexivity]. }
  cbn [andb]. apply Qle_bool_iff in H4, H5.
  split; [discriminate|].
  intros [H|[H|[H|[H|H]]]]; exfalso; try lia.
  - eapply Qlt_not_le; eassumption.
  - eapply Qlt_not_le; eassumption.
Qed.

(** Every context supports the defaults of [decodeAudioData]. *)
Lemma createBuffer_default ctx len :
  (1 <= len)%nat ->
  createBuffer ctx 1 len 24000 <> None.
Proof.
  intros Hlen H. apply createBuffer_None in H.
  pose proof (supports_channels ctx) as Hc.
  destruct (supports_rates ctx) as (_ & Hlo & Hhi).
  destruct H as [H|[H|[H|[H|H]]]]; try lia.
  - assert (8000 < 24000) by reflexivity. lra.
  - assert (24000 < 96000) by reflexivity. lra.
Qed.

Lemma pcm_pipeline ctx samples :
  samples <> [] ->
  exists blob buf,
    createPcmBlob samples = Some blob /\
    decode ctx (data blob) = Some buf /\
    numberOfChannels buf = 1%nat /\
    GeminiPcm.length buf = List.length samples /\
    channelData buf =
      [map (fun x => inject_Z (ToInt16 (x * 32768)) / 32768) samples].
Proof.
  intros Hne. unfold createPcmBlob.
  set (int16 := map (fun x => ToInt16 (x * 32768)) samples).
  destruct (encode_round_trip (flat_map int16_bytes int16)) as (b64 & He & Hd & _).
  rewrite He. eexists. eexists. split; [reflexivity|].
  cbn [data]. unfold decode. rewrite Hd. unfold decodeAudioData.
  cbn [buffer Uint8Array_of].
  rewrite Int16Array_of_bytes.
  2:{ subst int16. apply Forall_map, Forall_forall. intros x _. apply ToInt16_range. }
  assert (Hlen : List.length int16 = List.length samples)
    by (subst int16; apply length_map).
  rewrite Nat.div_1_r.
  destruct (createBuffer ctx 1 (List.length int16) 24000) eqn:Hb.
  2:{ exfalso. revert Hb. apply createBuffer_default.
      rewrite Hlen. destruct samples; [congruence | cbn; lia]. }
  split; [reflexivity|]. cbn [numberOfChannels GeminiPcm.length channelData].
  split; [reflexivity|]. split; [exact Hlen|].
  cbn [seq map].
  pose proof (mono_channel (fun v => inject_Z v / 32768) int16) as Hm.
  rewrite Nat.div_1_r in Hm. rewrite Hm.
  subst int16. rewrite map_map. reflexivity.
Qed.

Lemma truncate_pos x :
  0 <= x -> inject_Z (truncate x) <= x /\ x < inject_Z (truncate x) + 1.
Proof.
  intros Hx. unfold truncate.
  destruct (Qle_bool 0 x) eqn:Hc.
  - split; [apply Qfloor_le|].
    pose proof (Qlt_floor x) as H. rewrite inject_Z_plus in H. exact H.
  - exfalso. apply Qle_bool_iff in Hx. congruence.
Qed.

Lemma truncate_neg x :
  x <= 0 -> x <= inject_Z (truncate x) /\ inject_Z (truncate x) < x + 1.
Proof.
  intros Hx. unfold truncate.
  destruct (Qle_bool 0 x) eqn:Hc.
  - apply Qle_bool_iff in Hc.
    pose proof (Qfloor_le x) as Hf.
    pose proof (Qfloor_resp_le _ _ Hc) as H0. cbn in H0.
    rewrite Zle_Qle in H0. change (inject_Z 0) with 0 in H0. split; lra.
  - split; [apply Qle_ceiling|].
    pose proof (Qceiling_lt x) as H.
    unfold Z.sub in H. rewrite inject_Z_plus in H.
    rewrite inject_Z_opp in H. change (inject_Z 1) with 1 in H. lra.
Qed.

Lemma truncate_in_range y :
  -32768 <= y -> y < 32768 -> (-32768 <= truncate y < 32768)%Z.
Proof.
  intros Hlo Hhi. destruct (Qlt_le_dec y 0) as [Hneg|Hpos].
  - destruct (truncate_neg (x := y)) as [H1 H2]; [lra|].
    rewrite Zle_Qle, Zlt_Qlt.
    change (inject_Z (-32768)) with (-32768 # 1).
    change (inject_Z 32768) with (32768 # 1). split; lra.
  - destruct (truncate_pos Hpos) as [H1 H2].
    assert (H0 : (0 <= truncate y)%Z).
    { unfold truncate. apply Qle_bool_iff in Hpos. rewrite Hpos.
      apply Qle_bool_iff in Hpos. apply (Qfloor_resp_le 0 y Hpos). }
    split; [lia|]. rewrite Zlt_Qlt.
    change (inject_Z 32768) with (32768 # 1). lra.
Qed.

Lemma truncate_overdriven y :
  32768 <= y -> y < 65536 -> (32768 <= truncate y < 65536)%Z.
Proof.
  intros Hlo Hhi.
  assert (Hpos : 0 <= y) by lra.
  destruct (truncate_pos Hpos) as [H1 H2].
  split.
  - unfold truncate. apply Qle_bool_iff in Hpos. rewrite Hpos.
    apply (Qfloor_resp_le 32768 y Hlo).
  - rewrite Zlt_Qlt. change (inject_Z 65536) with (65536 # 1). lra.
Qed.

Lemma ToInt16_in_range y :
  -32768 <= y -> y < 32768 -> ToInt16 y = truncate y.
Proof.
  intros Hlo Hhi. pose proof (truncate_in_range Hlo Hhi) as Ht.
  unfold ToInt16.
  destruct (32768 <=? truncate y mod 65536)%Z eqn:Hc;
    [apply Z.leb_le in Hc | apply Z.leb_gt in Hc]; dlia.
Qed.

Lemma ToInt16_overdriven y :
  32768 <= y -> y < 65536 -> ToInt16 y = (truncate y - 65536)%Z.
Proof.
  intros Hlo Hhi. pose proof (truncate_overdriven Hlo Hhi) as Ht.
  unfold ToInt16.
  destruct (32768 <=? truncate y mod 65536)%Z eqn:Hc;
    [apply Z.leb_le in Hc | apply Z.leb_gt in Hc]; dlia.
Qed.

Lemma sample_quantised x :
  -1 <= x -> x < 1 ->
  quantised x (inject_Z (ToInt16 (x * 32768)) / 32768).
Proof.
  intros Hlo Hhi.
  rewrite ToInt16_in_range by lra.
  unfold quantised. split; intros Hx.
  - destruct (truncate_pos (x := x * 32768)) as [H1 H2]; [lra|].
    split; qlra.
  - destruct (truncate_neg (x := x * 32768)) as [H1 H2]; [lra|].
    split; qlra.
Qed.

Lemma sample_wraps x :
  1 <= x -> x < 2 ->
  let d := inject_Z (ToInt16 (x * 32768)) / 32768 in
  x - 2 - 1 / 32768 < d /\ d <= x - 2.
Proof.
  intros Hlo Hhi d. subst d.
  rewrite ToInt16_overdriven by lra.
  destruct (truncate_pos (x := x * 32768)) as [H1 H2]; [lra|].
  unfold Z.sub. rewrite inject_Z_plus, inject_Z_opp.
  change (inject_Z 65536) with (65536 # 1). split; qlra.
Qed.

Lemma Forall2_map_r (A B : Type) (P : A -> Prop) (R : A -> B -> Prop) (f : A -> B) l :
  (forall x, P x -> R x (f x)) -> Forall P l -> Forall2 R l (map f l).
Proof.
  intros HR. induction 1 as [|x l Hx _ IH]; cbn; constructor; auto.
Qed.

(** X5.  A non-empty microphone buffer whose samples lie in [-1, 1) goes
    through [createPcmBlob] and comes back through [decodeAudio] and
    [decodeAudioData], on any audio context, as one channel of as many
    samples, each the original rounded towards zero onto the 16-bit grid
    (a multiple of 1/32768 less than 1/32768 away from it); neither
    direction throws. *)
Theorem createPcmBlob_round_trip (ctx : AudioContext) (samples : list Q) :
  samples <> [] ->
  Forall unit_sample samples ->
  exists blob buf ch,
    createPcmBlob samples = Some blob /\
    decode ctx (data blob) = Some buf /\
    channelData buf = [ch] /\
    GeminiPcm.length buf = List.length samples /\
    Forall2 (fun x d => quantised x d /\ exists k : Z, d = inject_Z k / 32768)
            samples ch.
Proof.
  intros Hne Hunit.
  destruct (pcm_pipeline ctx Hne) as (blob & buf & Hb & Hd & _ & Hlen & Hch).
  exists blob, buf. eexists. split; [exact Hb|]. split; [exact Hd|].
  split; [exact Hch|]. split; [exact Hlen|].
  eapply Forall2_map_r; [|exact Hunit].
  intros x [Hlo Hhi]. split; [now apply sample_quantised|].
  eexists. reflexivity.
Qed.

Lemma createPcmBlob_round_trip_witness :
  exists blob buf,
    createPcmBlob [1 # 2; -(1 # 3); 0] = Some blob /\
    decode Examples.required_context (data blob) = Some buf /\
    GeminiPcm.length buf = 3%nat.
Proof.
  destruct (@createPcmBlob_round_trip Examples.required_context [1 # 2; -(1 # 3); 0])
    as (blob & buf & ch & Hb & Hd & _ & Hlen & _).
  - discriminate.
  - repeat constructor; cbn; discriminate.
  - exists blob, buf. auto.
Defined.

(** X6.  [createPcmBlob] does not clamp: a sample [x] with 1 <= x < 2 is
    stored by wrap-around and comes back negative, as the 16-bit value
    just below [x - 2]; full scale 1.0 comes back as -1. *)
Theorem createPcmBlob_wraps_overdrive (ctx : AudioContext) (samples : list Q) :
  samples <> [] ->
  Forall (fun x => 1 <= x /\ x < 2) samples ->
  exists blob buf ch,
    createPcmBlob samples = Some blob /\
    decode ctx (data blob) = Some buf /\
    channelData buf = [ch] /\
    Forall2 (fun x d => x - 2 - 1 / 32768 < d /\ d <= x - 2 /\ d < 0) samples ch.
Proof.
  intros Hne Hover.
  destruct (pcm_pipeline ctx Hne) as (blob & buf & Hb & Hd & _ & _ & Hch).
  exists blob, buf. eexists. split; [exact Hb|]. split; [exact Hd|].
  split; [exact Hch|].
  eapply Forall2_map_r; [|exact Hover].
  intros x [Hlo Hhi]. cbn beta.
  destruct (sample_wraps Hlo Hhi) as [H1 H2]. repeat split; [exact H1|exact H2|lra].
Qed.

Lemma createPcmBlob_wraps_overdrive_witness :
  exists blob buf,
    createPcmBlob [1] = Some blob /\
    decode Examples.required_context (data blob) = Some buf /\
    channelData buf = [[-32768 # 32768]].
Proof.
  destruct (@createPcmBlob_wraps_overdrive Examples.required_context [1])
    as (blob & buf & ch & Hb & Hd & Hch & _).
  - discriminate.
  - repeat constructor; cbn; discriminate.
  - exists blob, buf. split; [exact Hb|]. split; [exact Hd|].
    vm_compute in Hb. injection Hb as <-.
    vm_compute in Hd. injection Hd as <-. reflexivity.
Defined.

Lemma list_ind_pairs (A : Type) (P : list A -> Prop) :
  P [] -> (forall a, P [a]) -> (forall a b l, P l -> P (a :: b :: l)) ->
  forall l, P l.
Proof.
  intros H0 H1 H2.
  fix IH 1. intros [|a [|b l]]; [exact H0 | apply H1 | apply H2, IH].
Qed.

Lemma int16_of_bytes_range lo hi : (-32768 <= int16_of_bytes lo hi < 32768)%Z.
Proof.
  unfold int16_of_bytes.
  pose proof (Byte.to_N_bounded lo). pose proof (Byte.to_N_bounded hi).
  destruct (32768 <=? Z.of_N (Byte.to_N lo) + 256 * Z.of_N (Byte.to_N hi))%Z eqn:Hc;
    [apply Z.leb_le in Hc | apply Z.leb_gt in Hc]; lia.
Qed.

Lemma Int16Array_of_spec (bytes : list byte) :
  match Int16Array_of bytes with
  | None => Nat.odd (List.length bytes) = true
  | Some l =>
      Nat.odd (List.length bytes) = false /\
      List.length l = (List.length bytes / 2)%nat /\
      Forall (fun v => (-32768 <= v < 32768)%Z) l
  end.
Proof.
  induction bytes as [| a | a b l IH] using list_ind_pairs.
  - cbn. auto.
  - reflexivity.
  - cbn [Int16Array_of].
    change (List.length (a :: b :: l)) with (2 + List.length l)%nat.
    change (Nat.odd (2 + List.length l)) with (Nat.odd (List.length l)).
    destruct (Int16Array_of l) as [l'|]; cbn [option_map]; [|exact IH].
    destruct IH as (Hodd & Hlen & Hall). split; [exact Hodd|]. split.
    + cbn [List.length]. rewrite Hlen.
      change (2 + List.length l)%nat with (1 * 2 + List.length l)%nat.
      rewrite Nat.div_add_l by lia. lia.
    + constructor; [apply int16_of_bytes_range | exact Hall].
Qed.

Lemma unit_sample_int16 v :
  (-32768 <= v < 32768)%Z -> unit_sample (inject_Z v / 32768).
Proof.
  intros [Hlo Hhi]. rewrite Zle_Qle in Hlo. rewrite Zlt_Qlt in Hhi.
  change (inject_Z (-32768)) with (-32768 # 1) in Hlo.
  change (inject_Z 32768) with (32768 # 1) in Hhi.
  unfold unit_sample. split; qlra.
Qed.

Lemma decodeAudioData_facts data ctx rate nc buf :
  decodeAudioData data ctx rate nc = Some buf ->
  numberOfChannels buf = nc /\
  GeminiPcm.sampleRate buf = rate /\
  GeminiPcm.length buf = (List.length (buffer data) / 2 / nc)%nat /\
  (0 < GeminiPcm.length buf)%nat /\
  List.length (channelData buf) = nc /\
  Forall (fun ch => List.length ch = GeminiPcm.length buf /\ Forall unit_sample ch)
         (channelData buf) /\
  0 < duration buf.
Proof.
  unfold decodeAudioData.
  pose proof (Int16Array_of_spec (buffer data)) as Hspec.
  destruct (Int16Array_of (buffer data)) as [l|]; [|discriminate].
  destruct Hspec as (_ & Hlen & Hall).
  destruct (createBuffer ctx nc (List.length l / nc) rate) as [created|] eqn:Hb;
    [|discriminate].
  assert (Hok : ~ (nc = 0%nat \/ (maxChannels ctx < nc)%nat \/
                   (List.length l / nc)%nat = 0%nat \/
                   rate < minRate ctx \/ maxRate ctx < rate)).
  { intros H. apply createBuffer_None in H. congruence. }
  intros [= <-].
  cbn [numberOfChannels GeminiPcm.sampleRate GeminiPcm.length channelData].
  split; [reflexivity|]. split; [reflexivity|]. split; [now rewrite Hlen|].
  split; [lia|]. split; [now rewrite length_map, length_seq|]. split.
  - apply Forall_map, Forall_forall. intros channel _.
    split; [now rewrite length_map, length_seq|].
    apply Forall_map, Forall_forall. intros i _.
    apply unit_sample_int16.
    destruct (nth_in_or_default (i * nc + channel) l 0%Z) as [Hin|Hdef].
    + rewrite Forall_forall in Hall. apply Hall. exact Hin.
    + rewrite Hdef. lia.
  - unfold duration. cbn [GeminiPcm.length GeminiPcm.sampleRate].
    destruct (supports_rates ctx) as (Hpos & _).
    assert (Hrate : 0 < rate).
    { destruct (Qlt_le_dec rate (minRate ctx)) as [Hlt|Hle]; [tauto|].
      eapply Qlt_le_trans; eassumption. }
    apply Qlt_shift_div_l; [exact Hrate|].
    rewrite Qmult_0_l. change 0 with (inject_Z 0). rewrite <- Zlt_Qlt. lia.
Qed.

(** X7.  [decodeAudioData] reads the whole buffer under its array, not the
    window the array is.  It throws exactly when the byte count of that
    buffer is odd, when there are fewer 16-bit samples than channels (the
    empty buffer included), or when the channel count or the rate is
    outside what the context supports (zero channels included).  Otherwise
    the buffer has the requested channels and rate, [bytes / 2 / channels]
    frames (at least one) in every channel, a positive duration, and every
    sample in [-1, 1). *)
Theorem decodeAudioData_buffer (data : Uint8Array) (ctx : AudioContext)
    (rate : Q) (nc : nat) :
  decodeAudioData data ctx rate nc
    = decodeAudioData (Uint8Array_of (buffer data)) ctx rate nc /\
  (decodeAudioData data ctx rate nc = None <->
     Nat.odd (List.length (buffer data)) = true \/
     (List.length (buffer data) / 2 < nc)%nat \/
     nc = 0%nat \/ (maxChannels ctx < nc)%nat \/
     rate < minRate ctx \/ maxRate ctx < rate) /\
  (forall buf,
     decodeAudioData data ctx rate nc = Some buf ->
     numberOfChannels buf = nc /\
     GeminiPcm.sampleRate buf = rate /\
     GeminiPcm.length buf = (List.length (buffer data) / 2 / nc)%nat /\
     (0 < GeminiPcm.length buf)%nat /\
     List.length (channelData buf) = nc /\
     Forall (fun ch => List.length ch = GeminiPcm.length buf /\ Forall unit_sample ch)
            (channelData buf) /\
     0 < duration buf).
Proof.
  split; [reflexivity|].
  split; [|intros buf; apply decodeAudioData_facts].
  unfold decodeAudioData.
  pose proof (Int16Array_of_spec (buffer data)) as Hspec.
  destruct (Int16Array_of (buffer data)) as [l|].
  - destruct Hspec as (Hodd & Hlen & _). rewrite Hlen.
    destruct (createBuffer ctx nc (List.length (buffer data) / 2 / nc) rate)
      as [created|] eqn:Hb.
    + split; [discriminate|]. intros H. exfalso.
      assert (Hn : createBuffer ctx nc (List.length (buffer data) / 2 / nc) rate = None).
      { apply createBuffer_None.
        destruct H as [H|[H|[H|[H|[H|H]]]]]; try congruence; auto.
        destruct (Nat.eq_dec nc 0) as [Hz|Hz]; [auto|].
        right. right. left. apply Nat.div_small_iff; assumption. }
      congruence.
    + split; [intros _|reflexivity].
      apply createBuffer_None in Hb.
      destruct Hb as [H|[H|[H|[H|H]]]]; auto 7.
      destruct (Nat.eq_dec nc 0) as [Hz|Hz]; [auto|].
      right. left. apply Nat.div_small_iff in H; assumption.
  - split; auto.
Qed.

Lemma decodeAudioData_buffer_witness :
  let window := {| buffer := [x00; x40; x00; xc0; x01; x00];
                   byteOffset := 2; byteLength := 2 |} in
  exists buf,
    decodeAudioData window Examples.required_context 24000 1 = Some buf /\
    channelData buf = [[16384 # 32768; -16384 # 32768; 1 # 32768]] /\
    0 < duration buf /\
    decodeAudioData window Examples.required_context 1 1 = None /\
    decodeAudioData window Examples.required_context 24000 33 = None.
Proof.
  intros window. eexists. split; [vm_compute; reflexivity|].
  split; [reflexivity|]. split; [|split].
  - apply (proj2 (proj2 (decodeAudioData_buffer window Examples.required_context 24000 1))).
    vm_compute. reflexivity.
  - apply (proj1 (proj2 (decodeAudioData_buffer window Examples.required_context 1 1))).
    right. right. right. right. left. reflexivity.
  - apply (proj1 (proj2 (decodeAudioData_buffer window Examples.required_context 24000 33))).
    right. left. cbn. lia.
Defined.

Lemma receive_cons audio now b arrivals s :
  receive audio ((now, b) :: arrivals) s =
  receive audio arrivals
    (LiveAudio.handleAudioData now (option_map duration (decode audio b)) s).
Proof. reflexivity. Qed.

Lemma decode_duration audio b buf : decode audio b = Some buf -> 0 < duration buf.
Proof.
  unfold decode. destruct (decodeAudio b) as [bytes|]; [|discriminate].
  intros H. now apply decodeAudioData_facts in H.
Qed.

(** X8.  Fed with the buffers actually decoded from the inbound messages,
    on any audio context, the playback schedule needs no assumption on
    durations: a message that does not decode (bad base64, odd byte count,
    no sample) is skipped and leaves the state, the watermark included, as
    it is; every other message starts exactly one buffer of positive
    duration, not before the watermark; and no buffer starts before an
    earlier one has ended. *)
Theorem received_audio_never_overlaps (audio : AudioContext)
    (arrivals : list (Q * jsstring)) (s : LiveAudio.Bridge) (ctx : nat) :
  LiveAudio.outputAudioContextRef s = Some ctx ->
  exists plays,
    LiveAudio.started (receive audio arrivals s) = (LiveAudio.started s ++ plays)%list /\
    List.length plays =
      List.length (filter (fun a => match decode audio (snd a) with
                                    | Some _ => true | None => false end)
                          arrivals) /\
    Forall (fun p => LiveAudio.nextStartTimeRef s <= fst p /\ 0 < snd p) plays /\
    no_overlap plays /\
    (plays = [] -> receive audio arrivals s = s).
Proof.
  revert s ctx.
  induction arrivals as [|[now b] arrivals IH]; intros s ctx Hctx.
  - exists []. cbn. rewrite app_nil_r. auto.
  - rewrite receive_cons. cbn [filter snd].
    destruct (decode audio b) as [buf|] eqn:Hb; cbn [option_map].
    + pose proof (decode_duration _ _ Hb) as Hd.
      set (s1 := LiveAudio.handleAudioData now (Some (duration buf)) s).
      assert (H1 : LiveAudio.outputAudioContextRef s1 = Some ctx /\
                   LiveAudio.started s1 =
                     (LiveAudio.started s ++
                      [(LiveAudio.Math_max now (LiveAudio.nextStartTimeRef s),
                        duration buf)])%list /\
                   LiveAudio.nextStartTimeRef s1 =
                     LiveAudio.Math_max now (LiveAudio.nextStartTimeRef s) + duration buf).
      { subst s1. unfold LiveAudio.handleAudioData. rewrite Hctx. cbn. auto. }
      destruct H1 as (Hctx1 & Hst1 & Hwm1).
      destruct (IH s1 ctx Hctx1) as (plays & Hst & Hlen & Hall & Hno & _).
      pose proof (Math_max_spec now (LiveAudio.nextStartTimeRef s)) as Hmax.
      eexists (_ :: plays). split; [|split; [|split; [|split]]].
      * rewrite Hst, Hst1, <- app_assoc. reflexivity.
      * cbn [List.length]. now rewrite Hlen.
      * constructor; [cbn [fst snd]; split; [tauto | exact Hd]|].
        eapply Forall_impl; [|exact Hall]. cbn beta. intros p [Hp Hq].
        split; [|exact Hq]. rewrite Hwm1 in Hp. lra.
      * cbn [no_overlap]. split; [|exact Hno].
        eapply Forall_impl; [|exact Hall]. cbn beta. intros p [Hp _].
        rewrite Hwm1 in Hp. exact Hp.
      * discriminate.
    + assert (Hs : LiveAudio.handleAudioData now None s = s).
      { unfold LiveAudio.handleAudioData. now rewrite Hctx. }
      rewrite Hs. apply (IH s ctx Hctx).
Qed.

Lemma received_audio_never_overlaps_witness :
  let s := LiveAudio.run [LiveAudio.EffectRun 1; LiveAudio.MediaGranted 1 7]
                         LiveAudio.init in
  let arrivals := [(0, lit "AEAAwA=="); (1 # 100000, lit "AA==");
                   (2 # 100000, lit "!"); (3 # 100000, lit "AEA=")] in
  LiveAudio.outputAudioContextRef s = Some 2%nat /\
  exists plays,
    LiveAudio.started (receive Examples.required_context arrivals s)
      = (LiveAudio.started s ++ plays)%list /\
    List.length plays = 2%nat /\
    no_overlap plays.
Proof.
  intros s arrivals.
  assert (Hctx : LiveAudio.outputAudioContextRef s = Some 2%nat) by reflexivity.
  split; [exact Hctx|].
  destruct (received_audio_never_overlaps Examples.required_context arrivals s Hctx)
    as (plays & Hst & Hlen & _ & Hno & _).
  exists plays. split; [exact Hst|]. split; [|exact Hno].
  etransitivity; [exact Hlen|]. vm_compute. reflexivity.
Defined.

End Pcm.

(** ** Data URLs: [split(',')[1]] *)

Section DataUrl.

Import GeminiService GeminiPcm.

Local Open Scope N_scope.

Lemma split_none sep s :
  Forall (fun c => c <> sep) s -> split sep s = [s].
Proof.
  induction 1 as [|c s Hc _ IH]; cbn [split]; [reflexivity|].
  apply N.eqb_neq in Hc. rewrite Hc, IH. reflexivity.
Qed.

Lemma split_at sep h rest :
  Forall (fun c => c <> sep) h ->
  split sep (h ++ sep :: rest) = h :: split sep rest.
Proof.
  induction 1 as [|c h Hc _ IH]; cbn [split app].
  - now rewrite N.eqb_refl.
  - apply N.eqb_neq in Hc. rewrite Hc, IH. reflexivity.
Qed.

(** X9.  [split(',')[1]] takes the payload out of a data URL: after a
    header without a comma it returns what follows the first comma up to
    the next one, so the whole payload when that has no comma, as a base64
    payload never has, and such a payload decodes to the bytes it encodes;
    on a string without a comma it returns undefined. *)
Theorem payload_of_data_url (header : jsstring) :
  Forall (fun c => c <> 44) header ->
  (forall rest, payload (header ++ 44 :: rest) = Some (hd [] (split 44 rest))) /\
  (forall p, Forall (fun c => c <> 44) p -> payload (header ++ 44 :: p) = Some p) /\
  (forall bytes, exists base64,
     encodeAudio bytes = Some base64 /\
     payload (header ++ 44 :: base64) = Some base64 /\
     decodeAudio base64 = Some bytes) /\
  payload header = None.
Proof.
  intros Hh.
  assert (Hp : forall p, Forall (fun c => c <> 44) p ->
                         payload (header ++ 44 :: p) = Some p).
  { intros p Hp. unfold payload. rewrite (split_at _ Hh), (split_none Hp).
    reflexivity. }
  split; [|split; [exact Hp|split]].
  - intros rest. unfold payload. rewrite (split_at _ Hh).
    destruct rest as [|c rest]; [reflexivity|]. cbn [split].
    destruct (c =? 44); [reflexivity|].
    destruct (split 44 rest); reflexivity.
  - intros bytes. destruct (encode_round_trip bytes) as (b64 & He & Hd & Hc).
    exists b64. split; [exact He|]. split; [apply Hp; exact Hc | exact Hd].
  - unfold payload. rewrite (split_none Hh). reflexivity.
Qed.

Lemma payload_of_data_url_witness :
  payload (lit "data:image/jpeg;base64,/9j/4AAQ") = Some (lit "/9j/4AAQ") /\
  payload (lit "data:,") = Some [] /\
  payload (lit "data:image/jpeg;base64") = None.
Proof.
  split; [|split].
  - apply (proj1 (proj2 (@payload_of_data_url (lit "data:image/jpeg;base64")
                           ltac:(vm_compute; repeat constructor; discriminate)))
             (lit "/9j/4AAQ")).
    vm_compute. repeat constructor; discriminate.
  - apply (proj1 (proj2 (@payload_of_data_url (lit "data:")
                           ltac:(vm_compute; repeat constructor; discriminate)))
             []).
    constructor.
  - apply (proj2 (proj2 (proj2 (@payload_of_data_url (lit "data:image/jpeg;base64")
                           ltac:(vm_compute; repeat constructor; discriminate))))).
Defined.

End DataUrl.

(** ** [sendMessage] and the live message handler *)

Section ServiceRequests.

Import GeminiChat.

(** X10.  The three mode flags of [sendMessage] are exclusive, in the order
    thinking, search, maps: a thinking budget is configured exactly when
    [useThinking] is set, and then no tool is; Google Search is the only
    tool exactly when [useSearch] is set without [useThinking]; Google Maps
    is the only tool exactly when [useMaps] is set without the other two;
    the location is sent exactly when Maps is the tool and a location was
    given.  At most one tool is ever configured, and the model is the
    search or maps model exactly with its tool. *)
Theorem sendMessage_modes (history : list Chat.ChatMessage) (newMessage : jsstring)
    (useThinking useSearch useMaps : bool) (location : option Location) :
  let r := sendMessage history newMessage useThinking useSearch useMaps location in
  (thinkingBudget (config r) = Some 32768%N <-> useThinking = true) /\
  (thinkingBudget (config r) = None <-> useThinking = false) /\
  (tools (config r) = Some [googleSearch] <->
     useThinking = false /\ useSearch = true) /\
  (tools (config r) = Some [googleMaps] <->
     useThinking = false /\ useSearch = false /\ useMaps = true) /\
  (tools (config r) = None <->
     useThinking = true \/ (useSearch = false /\ useMaps = false)) /\
  (toolConfig (config r) <> None <->
     tools (config r) = Some [googleMaps] /\ location <> None) /\
  (model r = MODEL_SEARCH <-> tools (config r) = Some [googleSearch]) /\
  (model r = MODEL_MAPS <-> tools (config r) = Some [googleMaps]) /\
  (model r = MODEL_CHAT_PRO <-> tools (config r) = None).
Proof.
  destruct useThinking, useSearch, useMaps, location as [l|]; cbn;
    repeat split; intros; try discriminate; try congruence;
    try tauto; try (intuition discriminate); try (intuition congruence).
Qed.

(** X11.  The request the chat form makes: whenever a submit sends a
    request, it goes to the chat model with no thinking budget, no tool and
    no location; the message is the input as typed; the history has one
    entry per message of the log before the submit, in order, each with
    that message's text as its only part and with role model for a model
    turn and role user for every other turn. *)
Theorem chat_form_request (now_id now_ts : N) (s s' : Chat.State) (r : Chat.Request) :
  Chat.handleChatSubmit now_id now_ts s = (s', Some r) ->
  let q := chat_request r in
  model q = MODEL_CHAT_PRO /\
  thinkingBudget (config q) = None /\
  tools (config q) = None /\
  toolConfig (config q) = None /\
  message q = Chat.userInput s /\
  map parts (history q) = map (fun m => [Chat.text m]) (Chat.chatMessages s) /\
  map co_role (history q) =
    map (fun m => match Chat.role m with
                  | Chat.model => "model"%string
                  | _ => "user"%string
                  end)
        (Chat.chatMessages s).
Proof.
  unfold Chat.handleChatSubmit.
  destruct (is_empty (Chat.trim (Chat.userInput s))); [discriminate|].
  intros [= _ <-]. cbn.
  repeat split.
  - rewrite map_map. reflexivity.
  - rewrite map_map. apply map_ext. intros m.
    destruct (Chat.role m); reflexivity.
Qed.

Lemma chat_form_request_witness :
  let s := {| Chat.chatMessages := [Chat.message Chat.model (lit "Hello") 1 1;
                                    Chat.message Chat.user (lit "Hi") 2 2];
              Chat.userInput := lit "Water?";
              Chat.isProcessing := false |} in
  exists s' r,
    Chat.handleChatSubmit 3 3 s = (s', Some r) /\
    map co_role (history (chat_request r)) = ["model"%string; "user"%string] /\
    tools (config (chat_request r)) = None.
Proof.
  intros s. eexists. eexists. split; [vm_compute; reflexivity|].
  match goal with
  | |- map co_role (history (chat_request ?r)) = _ /\ _ =>
      destruct (@chat_form_request 3 3 s _ r eq_refl)
        as (_ & _ & Ht & _ & _ & _ & Hr)
  end.
  split; [rewrite Hr; reflexivity | exact Ht].
Defined.

Import GeminiLive LiveMessageSpec.

Lemma answer_responses b fc :
  tool_responses (answer b fc) =
    (if is_capture fc then [(fc_id fc, lit "captureSnapshot")] else []) /\
  capture_triggers (answer b fc) =
    (if is_capture fc && b then 1%nat else 0%nat) /\
  media_actions (answer b fc) = [].
Proof.
  unfold answer, is_capture.
  destruct (jsstring_eqb (fc_name fc) (lit "captureSnapshot")) eqn:Hn.
  - apply jsstring_eqb_eq in Hn. rewrite Hn. destruct b; auto.
  - auto.
Qed.

Lemma answers_responses b calls :
  tool_responses (flat_map (answer b) calls) =
    map (fun fc => (fc_id fc, lit "captureSnapshot")) (filter is_capture calls) /\
  capture_triggers (flat_map (answer b) calls) =
    (if b then List.length (filter is_capture calls) else 0%nat) /\
  media_actions (flat_map (answer b) calls) = [].
Proof.
  induction calls as [|fc calls (IH1 & IH2 & IH3)].
  - destruct b; auto.
  - destruct (answer_responses b fc) as (H1 & H2 & H3).
    cbn [flat_map filter].
    unfold tool_responses, capture_triggers, media_actions in *.
    rewrite flat_map_app, !filter_app, length_app, H1, H2, H3, IH1, IH2, IH3.
    destruct (is_capture fc), b; auto.
Qed.

(** X12.  Of the function calls of a live message, exactly the
    [captureSnapshot] calls are answered: one tool response per such call,
    in call order, echoing the call's id; the capture callback runs once
    per such call when it was provided and never otherwise; a call of any
    other name gets no response and triggers nothing.  The audio and
    transcript callbacks do not depend on the tool calls: at most one audio
    chunk, then the model's transcript, then the user's, each only when its
    text is non-empty. *)
Theorem onmessage_answers_captures (hasCaptureTrigger : bool) (m : LiveServerMessage) :
  let acts := onmessage hasCaptureTrigger m in
  tool_responses acts =
    map (fun fc => (fc_id fc, lit "captureSnapshot"))
        (filter is_capture (functionCalls m)) /\
  capture_triggers acts =
    (if hasCaptureTrigger
     then List.length (filter is_capture (functionCalls m)) else 0%nat) /\
  media_actions acts =
    (match truthy (inlineData m) with Some a => [OnAudioData a] | None => [] end
     ++ match truthy (outputTranscription m) with
        | Some t => [OnTranscript t false] | None => [] end
     ++ match truthy (inputTranscription m) with
        | Some t => [OnTranscript t true] | None => [] end)%list.
Proof.
  cbn zeta. unfold onmessage, functionCalls.
  assert (Hcalls : forall calls,
    tool_responses (flat_map (answer hasCaptureTrigger) calls) =
      map (fun fc => (fc_id fc, lit "captureSnapshot")) (filter is_capture calls) /\
    capture_triggers (flat_map (answer hasCaptureTrigger) calls) =
      (if hasCaptureTrigger then List.length (filter is_capture calls) else 0%nat) /\
    media_actions (flat_map (answer hasCaptureTrigger) calls) = [])
    by (intros; apply answers_responses).
  destruct (toolCall m) as [calls|].
  - destruct (Hcalls calls) as (H1 & H2 & H3).
    unfold tool_responses, capture_triggers, media_actions in *.
    rewrite !flat_map_app, !filter_app, !length_app, H1, H2, H3.
    destruct (truthy (inlineData m)), (truthy (outputTranscription m)),
             (truthy (inputTranscription m)); cbn; auto.
  - unfold tool_responses, capture_triggers, media_actions.
    rewrite !flat_map_app, !filter_app, !length_app.
    destruct (truthy (inlineData m)), (truthy (outputTranscription m)),
             (truthy (inputTranscription m)), hasCaptureTrigger; cbn; auto.
Qed.

End ServiceRequests.

(** ** Zoom and pan of the camera feed *)

Section OpticsFacts.

Import Optics OpticsSpec.

Lemma Math_max_bounds a b :
  a <= Math_max a b /\ b <= Math_max a b /\ (Math_max a b = a \/ Math_max a b = b).
Proof.
  unfold Math_max. destruct (Qle_bool a b) eqn:E.
  - apply Qle_bool_iff in E. split; [lra|]. split; [lra|]. auto.
  - assert (~ a <= b) by (rewrite <- Qle_bool_iff; congruence).
    split; [lra|]. split; [lra|]. auto.
Qed.

Lemma Math_min_bounds a b :
  Math_min a b <= a /\ Math_min a b <= b /\ (Math_min a b = a \/ Math_min a b = b).
Proof.
  unfold Math_min. destruct (Qle_bool a b) eqn:E.
  - apply Qle_bool_iff in E. split; [lra|]. split; [lra|]. auto.
  - assert (~ a <= b) by (rewrite <- Qle_bool_iff; congruence).
    split; [lra|]. split; [lra|]. auto.
Qed.

Lemma gt_true a b : gt a b = true <-> b < a.
Proof.
  unfold gt. destruct (Qle_bool a b) eqn:E; cbn.
  - apply Qle_bool_iff in E. split; [discriminate | lra].
  - assert (~ a <= b) by (rewrite <- Qle_bool_iff; congruence).
    split; [lra | reflexivity].
Qed.

Lemma zoom_step active errored e s :
  1 <= zoom s /\ zoom s <= 5 ->
  1 <= zoom (step active errored e s) /\ zoom (step active errored e s) <= 5.
Proof.
  intros Hz.
  destruct e as [d|cx cy|cx cy| | | | |]; cbn [step].
  - unfold handleWheel. destruct active; cbn [negb]; [|exact Hz].
    cbn [setZoom zoom].
    destruct (Math_max_bounds 1 (zoom s + - d * (1 # 1000))) as (H1 & H2 & _).
    destruct (Math_min_bounds (Math_max 1 (zoom s + - d * (1 # 1000))) 5)
      as (H3 & H4 & [H5|H5]); rewrite H5 at 1; split; lra.
  - unfold handleMouseDown. destruct (gt (zoom s) 1); exact Hz.
  - unfold handleMouseMove. destruct (isDragging s && gt (zoom s) 1); exact Hz.
  - exact Hz.
  - exact Hz.
  - destruct (active && negb errored && negb (Qle_bool 5 (zoom s))); [|exact Hz].
    cbn [setZoom zoom].
    destruct (Math_min_bounds 5 (zoom s + (1 # 2))) as (H3 & H4 & [H5|H5]);
      rewrite H5 at 1; split; lra.
  - destruct (active && negb errored && negb (Qle_bool (zoom s) 1)); [|exact Hz].
    cbn [setZoom zoom].
    destruct (Math_max_bounds 1 (zoom s - (1 # 2))) as (H3 & H4 & [H5|H5]);
      rewrite H5 at 2; split; lra.
  - destruct (active && negb errored && gt (zoom s) 1); [|exact Hz].
    cbn [zoom]. split; lra.
Qed.

Lemma optics_run_cons e es s :
  run (e :: es) s = run es (step (fst (fst e)) (snd (fst e)) (snd e) s).
Proof. reflexivity. Qed.

Lemma zoom_run es :
  forall s, 1 <= zoom s /\ zoom s <= 5 ->
            1 <= zoom (run es s) /\ zoom (run es s) <= 5.
Proof.
  induction es as [|e es IH]; intros s Hz; [exact Hz|].
  rewrite optics_run_cons. apply IH. apply zoom_step. exact Hz.
Qed.

Lemma zoom_inactive errored e s : zoom (step false errored e s) = zoom s.
Proof.
  destruct e as [d|cx cy|cx cy| | | | |]; cbn [step andb]; try reflexivity.
  - unfold handleMouseDown. destruct (gt (zoom s) 1); reflexivity.
  - unfold handleMouseMove. destruct (isDragging s && gt (zoom s) 1); reflexivity.
Qed.

(** X13.  Whatever the pointer does, in whatever order, the zoom factor
    stays between 1 and 5; and while the feed is inactive nothing changes
    it (the wheel is ignored and the zoom hub is not rendered), so the
    zoom reached before a deactivation is still there afterwards. *)
Theorem zoom_stays_in_range (es : list (bool * bool * event)) :
  (1 <= zoom (run es init) /\ zoom (run es init) <= 5) /\
  (forall s, Forall (fun e => fst (fst e) = false) es -> zoom (run es s) = zoom s).
Proof.
  split.
  - apply zoom_run. cbn. split; lra.
  - induction es as [|[[a err] e] es IH]; intros s Hall; [reflexivity|].
    inversion_clear Hall as [|? ? Ha Hes]. cbn in Ha. subst a.
    rewrite optics_run_cons. cbn [fst snd].
    rewrite (IH _ Hes). apply zoom_inactive.
Qed.

Lemma zoom_stays_in_range_witness :
  let es := [(true, false, Wheel (-9000)); (true, false, ClickZoomIn)] in
  zoom (run es init) = 5 /\
  zoom (run [(false, false, Wheel 9000); (false, false, ClickZoomOut)] (run es init))
    = zoom (run es init).
Proof.
  intros es. split; [vm_compute; reflexivity|].
  apply (proj2 (zoom_stays_in_range
                  [(false, false, Wheel 9000); (false, false, ClickZoomOut)])).
  repeat constructor.
Defined.

(** X14.  The pan offset changes only under a zoom above 1: the wheel and
    the two zoom buttons never touch it, and at zoom 1 (or below) no event
    at all changes it, so an offset left over when the view is zoomed back
    out by wheel or button stays, and neither dragging nor the reset
    button, which is then not rendered, can remove it. *)
Theorem pan_fixed_at_zoom_one (active errored : bool) (e : event) (s : State) :
  (is_mouse e = false -> e <> ClickReset ->
     pan (step active errored e s) = pan s) /\
  (zoom s <= 1 -> pan (step active errored e s) = pan s).
Proof.
  split.
  - intros Hm Hr.
    destruct e as [d|cx cy|cx cy| | | | |]; try discriminate; try congruence;
      cbn [step].
    + unfold handleWheel. destruct (negb active); reflexivity.
    + destruct (active && negb errored && negb (Qle_bool 5 (zoom s))); reflexivity.
    + destruct (active && negb errored && negb (Qle_bool (zoom s) 1)); reflexivity.
  - intros Hz.
    assert (Hgt : gt (zoom s) 1 = false).
    { destruct (gt (zoom s) 1) eqn:E; [|reflexivity].
      apply gt_true in E. lra. }
    destruct e as [d|cx cy|cx cy| | | | |]; cbn [step].
    + unfold handleWheel. destruct (negb active); reflexivity.
    + unfold handleMouseDown. rewrite Hgt. reflexivity.
    + unfold handleMouseMove. rewrite Hgt, andb_false_r. reflexivity.
    + reflexivity.
    + reflexivity.
    + destruct (active && negb errored && negb (Qle_bool 5 (zoom s))); reflexivity.
    + destruct (active && negb errored && negb (Qle_bool (zoom s) 1)); reflexivity.
    + rewrite Hgt, andb_false_r. reflexivity.
Qed.

Lemma pan_fixed_at_zoom_one_witness :
  let dragged := drag true false {| x := 10; y := 10 |} [{| x := 40; y := 25 |}]
                      (run [(true, false, ClickZoomIn)] init) in
  let s := run [(true, false, MouseUp); (true, false, ClickZoomOut)] dragged in
  zoom s == 1 /\ x (pan s) == 30 /\ y (pan s) == 15 /\
  pan (step true false ClickReset s) = pan s /\
  pan (step true false (MouseMove 0 0) (step true false (MouseDown 5 5) s)) = pan s.
Proof.
  intros dragged s.
  assert (Hz : zoom s <= 1) by (vm_compute; discriminate).
  split; [vm_compute; reflexivity|]. split; [vm_compute; reflexivity|].
  split; [vm_compute; reflexivity|]. split.
  - apply (proj2 (pan_fixed_at_zoom_one true false ClickReset s) Hz).
  - transitivity (pan (step true false (MouseDown 5 5) s)).
    + apply (proj2 (pan_fixed_at_zoom_one true false (MouseMove 0 0)
                      (step true false (MouseDown 5 5) s))).
      vm_compute. discriminate.
    + apply (proj2 (pan_fixed_at_zoom_one true false (MouseDown 5 5) s) Hz).
Defined.

Lemma drag_state active errored p0 path :
  forall s,
    1 < zoom s ->
    zoom (drag active errored p0 path s) = zoom s /\
    isDragging (drag active errored p0 path s) = true /\
    dragStart (drag active errored p0 path s) =
      {| x := x p0 - x (pan s); y := y p0 - y (pan s) |} /\
    pan (drag active errored p0 path s) =
      match rev path with
      | [] => pan s
      | p1 :: _ => {| x := x p1 - (x p0 - x (pan s)); y := y p1 - (y p0 - y (pan s)) |}
      end.
Proof.
  induction path as [|p1 path IH] using rev_ind; intros s Hz.
  - unfold drag. cbn [map run fold_left fst snd step].
    unfold handleMouseDown. apply gt_true in Hz. rewrite Hz. cbn. auto.
  - destruct (IH s Hz) as (Hzoom & Hdrag & Hstart & _).
    unfold drag in *. rewrite map_app, app_comm_cons.
    unfold run in *. rewrite fold_left_app.
    set (s1 := fold_left _ _ s) in *.
    cbn [map fold_left fst snd step]. unfold handleMouseMove.
    rewrite Hdrag. assert (Hg : gt (zoom s1) 1 = true)
      by (apply gt_true; rewrite Hzoom; exact Hz).
    rewrite Hg. cbn [andb zoom isDragging dragStart pan].
    rewrite rev_app_distr. cbn [rev app]. rewrite Hstart. cbn [x y]. auto.
Qed.

(** X15.  Under a zoom above 1, pressing the button at [p0] and moving the
    pointer, by whatever path, to [p1] moves the pan offset by exactly
    [p1 - p0]; the zoom is untouched and the drag is still on. *)
Theorem drag_translates_pan (active errored : bool) (p0 p1 : Point)
    (path : list Point) (s : State) :
  1 < zoom s ->
  let s' := drag active errored p0 (path ++ [p1]) s in
  x (pan s') == x (pan s) + (x p1 - x p0) /\
  y (pan s') == y (pan s) + (y p1 - y p0) /\
  zoom s' = zoom s /\ isDragging s' = true.
Proof.
  intros Hz s'. subst s'.
  destruct (@drag_state active errored p0 (path ++ [p1]) s Hz)
    as (Hzoom & Hdrag & _ & Hpan).
  rewrite rev_app_distr in Hpan. cbn [rev app] in Hpan.
  rewrite Hpan. cbn [x y]. repeat split; try assumption; ring.
Qed.

Lemma drag_translates_pan_witness :
  let s := run [(true, false, ClickZoomIn)] init in
  let s' := drag true false {| x := 10; y := 10 |}
                 [{| x := 20; y := 5 |}; {| x := 40; y := 25 |}] s in
  1 < zoom s /\ x (pan s') == 30 /\ y (pan s') == 15.
Proof.
  intros s s'.
  assert (Hz : 1 < zoom s) by (vm_compute; reflexivity).
  split; [exact Hz|].
  destruct (@drag_translates_pan true false {| x := 10; y := 10 |}
              {| x := 40; y := 25 |} [{| x := 20; y := 5 |}] s Hz)
    as (Hx & Hy & _).
  split; (eapply Qeq_trans; [first [exact Hx | exact Hy]|]); vm_compute; reflexivity.
Defined.

End OpticsFacts.

(** ** The camera stream over time *)

Section CameraStreamFacts.

Import CameraFeed CameraStream CameraStreamSpec.

Local Ltac cases_or :=
  repeat match goal with H : _ \/ _ |- _ => destruct H end;
  subst; try contradiction; try congruence.

Lemma camera_run_cons e es s : CameraStream.run (e :: es) s = CameraStream.run es (step e s).
Proof. reflexivity. Qed.

Lemma camera_run_app es1 es2 s :
  CameraStream.run (es1 ++ es2) s = CameraStream.run es2 (CameraStream.run es1 s).
Proof. unfold CameraStream.run. apply fold_left_app. Qed.

(** A call of [startCamera] that settles at once, on a mounted component. *)
Lemma startCamera_settled a s :
  mounted s = true ->
  let s' := startCamera_end a (startCamera_begin s) in
  mounted s' = true /\
  released s' = match srcObject s with
                | Some old => (released s ++ [old])%list
                | None => released s
                end /\
  srcObject s' = match a with
                 | Granted stream _ => Some stream
                 | Thrown _ => None
                 end.
Proof.
  intros Hm. unfold startCamera_end, startCamera_begin, rerender, srcObject.
  cbn [mounted error video released]. rewrite Hm.
  destruct a as [stream torch|name]; destruct (video s) as [[old|]|]; cbn;
    repeat split; reflexivity.
Qed.

Lemma accounted_startCamera streams a s :
  mounted s = true ->
  accounted streams s ->
  accounted (streams ++ match a with Granted stream _ => [stream] | Thrown _ => [] end)
            (startCamera_end a (startCamera_begin s)).
Proof.
  intros Hm H. destruct (@startCamera_settled a s Hm) as (_ & Hrel & Hsrc).
  unfold accounted in *. rewrite Hrel, Hsrc. apply Forall_app. split.
  - eapply Forall_impl; [|exact H]. cbn beta. intros st [Hin|Hcur]; left.
    + destruct (srcObject s); auto using in_or_app.
    + rewrite Hcur. apply in_or_app. right. left. reflexivity.
  - destruct a as [stream torch|name]; constructor; [|constructor].
    right. reflexivity.
Qed.

Lemma accounted_deactivate streams s :
  accounted streams s ->
  Forall (fun stream => In stream (released (deactivate s))) streams /\
  srcObject (deactivate s) = None /\
  mounted (deactivate s) = mounted s.
Proof.
  unfold accounted, deactivate. intros H.
  destruct (srcObject s) as [cur|] eqn:Hcur; cbn [released mounted].
  - split; [|split; reflexivity]. eapply Forall_impl; [|exact H]. cbn beta.
    intros st [Hin|[= <-]]; apply in_or_app; [left; exact Hin | right; left; reflexivity].
  - split; [|split; [exact Hcur | reflexivity]].
    eapply Forall_impl; [|exact H]. cbn beta.
    intros st [Hin|Hc]; [exact Hin | discriminate].
Qed.

Lemma sequential_accounted :
  forall es streams s,
    sequential es -> mounted s = true -> accounted streams s ->
    mounted (CameraStream.run es s) = true /\
    accounted (streams ++ granted es) (CameraStream.run es s).
Proof.
  fix IH 1. intros [|e es] streams s Hseq Hm Hacc.
  - cbn. rewrite app_nil_r. auto.
  - destruct e as [|a| |].
    + destruct es as [|[|a| |] es]; try contradiction.
      cbn [sequential] in Hseq.
      rewrite !camera_run_cons.
      assert (Hm1 : mounted (step Begin s) = true).
      { unfold step. rewrite Hm. unfold startCamera_begin, rerender. cbn. exact Hm. }
      assert (E : step (End_ a) (step Begin s)
                  = startCamera_end a (startCamera_begin s)).
      { unfold step at 1. rewrite Hm1. unfold step. rewrite Hm. reflexivity. }
      rewrite E.
      change (granted (Begin :: End_ a :: es))
        with (match a with Granted stream _ => [stream] | Thrown _ => [] end
              ++ granted es).
      rewrite app_assoc. apply IH; [exact Hseq | |].
      * apply (@startCamera_settled a s Hm).
      * apply accounted_startCamera; assumption.
    + contradiction.
    + cbn [sequential] in Hseq. rewrite camera_run_cons.
      unfold step. rewrite Hm.
      change (granted (Deactivate :: es)) with (granted es).
      destruct (accounted_deactivate Hacc) as (Hrel & _ & Hm').
      apply IH; [exact Hseq | congruence |].
      eapply Forall_impl; [|exact Hrel]. cbn beta. auto.
    + contradiction.
Qed.

Lemma unmounted_run es :
  forall s, mounted s = false -> CameraStream.run es s = s.
Proof.
  induction es as [|e es IH]; intros s Hm; [reflexivity|].
  rewrite camera_run_cons. unfold step. rewrite Hm. apply IH. exact Hm.
Qed.

Lemma unmount_state s :
  mounted s = true ->
  mounted (step Unmount s) = false /\
  srcObject (step Unmount s) = None /\
  released (step Unmount s) = released s.
Proof.
  intros Hm. unfold step. rewrite Hm. unfold unmount, rerender, srcObject. cbn.
  destruct (error s); auto.
Qed.

(** X16.  While the component stays mounted and every call of
    [startCamera] settles before the next call or deactivation, no camera
    stream is lost: after any such history of starts (granted or failed),
    retries and deactivations, every stream that was handed out has had
    its tracks stopped, except at most the one the video element shows,
    and a deactivation at the end stops that one too.  An unmount, as
    [App] makes whenever it shows a playback frame, is different: the
    effect returns no cleanup, so the stream the video element shows at
    that moment is not stopped then and by nothing that happens
    afterwards, and no video element shows it any more. *)
Theorem streams_released_until_unmount (es : list event) :
  sequential es ->
  accounted (granted es) (CameraStream.run es CameraStream.init) /\
  (let s := CameraStream.run (es ++ [Deactivate]) CameraStream.init in
   srcObject s = None /\
   Forall (fun stream => In stream (released s)) (granted es)) /\
  (forall stream later,
     srcObject (CameraStream.run es CameraStream.init) = Some stream ->
     ~ In stream (released (CameraStream.run es CameraStream.init)) ->
     lost stream (CameraStream.run (es ++ Unmount :: later) CameraStream.init)).
Proof.
  intros Hseq.
  destruct (@sequential_accounted es [] CameraStream.init Hseq eq_refl)
    as [Hm Hacc]; [constructor|].
  cbn [app] in Hacc.
  split; [exact Hacc|]. split.
  - cbn zeta. rewrite camera_run_app. cbn [CameraStream.run fold_left].
    unfold step. fold (CameraStream.run es CameraStream.init). rewrite Hm.
    destruct (accounted_deactivate Hacc) as (Hrel & Hnone & _). auto.
  - intros stream later Hsrc Hrel.
    rewrite camera_run_app, camera_run_cons.
    destruct (unmount_state _ Hm) as (Hm' & Hsrc' & Hrel').
    rewrite (unmounted_run later _ Hm').
    unfold lost. rewrite Hrel', Hsrc'. split; [exact Hrel | discriminate].
Qed.

Lemma streams_released_until_unmount_witness :
  let es := [Begin; End_ (Granted 1 false); Begin; End_ (Thrown (lit "NotFoundError"));
             Begin; End_ (Granted 2 true)] in
  sequential es /\
  srcObject (CameraStream.run es CameraStream.init) = Some 2%nat /\
  released (CameraStream.run (es ++ [Deactivate]) CameraStream.init) = [1%nat; 2%nat] /\
  lost 2%nat (CameraStream.run (es ++ [Unmount; End_ (Granted 3 false)])
                               CameraStream.init).
Proof.
  intros es.
  assert (Hseq : sequential es) by exact I.
  split; [exact Hseq|]. split; [reflexivity|]. split; [reflexivity|].
  destruct (streams_released_until_unmount es Hseq) as (_ & _ & Hlost).
  apply (Hlost 2%nat [End_ (Granted 3 false)]).
  - reflexivity.
  - cbn. intros [H|H]; [discriminate | exact H].
Defined.

Lemma begin_fields s :
  mounted s = true ->
  mounted (step Begin s) = true /\
  error (step Begin s) = None /\
  video (step Begin s) = Some (srcObject s) /\
  released (step Begin s)
    = (released s ++ match srcObject s with Some old => [old] | None => [] end)%list.
Proof.
  intros Hm. unfold step. rewrite Hm.
  unfold startCamera_begin, rerender, srcObject. cbn [mounted error video released].
  rewrite Hm.
  destruct (video s) as [[old|]|]; cbn [app]; rewrite ?app_nil_r;
    repeat split; reflexivity.
Qed.

Lemma granted_fields stream torch s v :
  mounted s = true -> error s = None -> video s = Some v ->
  mounted (step (End_ (Granted stream torch)) s) = true /\
  error (step (End_ (Granted stream torch)) s) = None /\
  video (step (End_ (Granted stream torch)) s) = Some (Some stream) /\
  released (step (End_ (Granted stream torch)) s) = released s.
Proof.
  intros Hm He Hv. unfold step. rewrite Hm.
  unfold startCamera_end, rerender. cbn [mounted error video released].
  rewrite Hm, He, Hv. repeat split; reflexivity.
Qed.

Lemma deactivate_fields s :
  mounted s = true -> error s = None ->
  mounted (step Deactivate s) = true /\
  error (step Deactivate s) = None /\
  (video s <> None -> video (step Deactivate s) = Some None) /\
  released (step Deactivate s)
    = (released s ++ match srcObject s with Some cur => [cur] | None => [] end)%list.
Proof.
  intros Hm He. unfold step. rewrite Hm. unfold deactivate, srcObject.
  destruct (video s) as [[cur|]|] eqn:Hv; cbn [mounted error video released app];
    rewrite ?app_nil_r;
    (split; [assumption|]); (split; [assumption|]); (split; [|reflexivity]);
    intros H; try reflexivity; try assumption.
  exfalso. apply H. reflexivity.
Qed.

(** X17.  A pending [getUserMedia] is never cancelled, so overlapping
    calls lose streams.  If [startCamera] is called again before the first
    call has settled and both are granted, the second stream replaces the
    first in the video element without the first being stopped; a later
    deactivation stops only the second.  If the feed is deactivated while a
    call is pending, the stream granted afterwards is attached to the
    video element and keeps running although the feed is inactive.  And a
    stream granted after the unmount is dropped as it is. *)
Theorem overlapping_starts_leak (s : State) (a b : nat) (ta tb : bool) :
  ~ In a (released s) -> srcObject s <> Some a -> a <> b ->
  (mounted s = true ->
   (let s' := CameraStream.run
                [Begin; Begin; End_ (Granted a ta); End_ (Granted b tb); Deactivate] s in
    srcObject s' = None /\ ~ In a (released s') /\ In b (released s')) /\
   (let s' := CameraStream.run [Begin; Deactivate; End_ (Granted a ta)] s in
    srcObject s' = Some a /\ ~ In a (released s'))) /\
  (mounted s = false ->
   lost a (CameraStream.run [End_ (Granted a ta)] s)).
Proof.
  intros Hrel Hcur Hab. split.
  - intros Hm.
    assert (Hold : ~ In a match srcObject s with Some old => [old] | None => [] end).
    { destruct (srcObject s) as [old|]; cbn; [|tauto].
      intros [H|H]; [congruence|exact H]. }
    destruct (begin_fields s Hm) as (Hm1 & He1 & Hv1 & Hr1).
    set (s1 := step Begin s) in *.
    assert (Hs1 : srcObject s1 = srcObject s)
      by (unfold srcObject at 1; rewrite Hv1; destruct (srcObject s); reflexivity).
    split.
    + unfold CameraStream.run. cbn [fold_left]. fold s1.
      destruct (begin_fields s1 Hm1) as (Hm2 & He2 & Hv2 & Hr2).
      set (s2 := step Begin s1) in *.
      destruct (granted_fields a ta s2 Hm2 He2 Hv2) as (Hm3 & He3 & Hv3 & Hr3).
      set (s3 := step (End_ (Granted a ta)) s2) in *.
      destruct (granted_fields b tb s3 Hm3 He3 Hv3) as (Hm4 & He4 & Hv4 & Hr4).
      set (s4 := step (End_ (Granted b tb)) s3) in *.
      destruct (deactivate_fields s4 Hm4 He4) as (_ & _ & Hv5 & Hr5).
      assert (Hs4 : srcObject s4 = Some b) by (unfold srcObject; now rewrite Hv4).
      split.
      * unfold srcObject. rewrite Hv5 by congruence. reflexivity.
      * rewrite Hr5, Hs4, Hr4, Hr3, Hr2, Hs1, Hr1. split.
        -- rewrite !in_app_iff. cbn [In]. intros H. cases_or.
        -- apply in_or_app. right. left. reflexivity.
    + unfold CameraStream.run. cbn [fold_left]. fold s1.
      destruct (deactivate_fields s1 Hm1 He1) as (Hm2 & He2 & Hv2 & Hr2).
      set (s2 := step Deactivate s1) in *.
      assert (Hv2' : video s2 = Some None) by (apply Hv2; congruence).
      destruct (granted_fields a ta s2 Hm2 He2 Hv2') as (_ & _ & Hv3 & Hr3).
      split.
      * unfold srcObject. rewrite Hv3. reflexivity.
      * rewrite Hr3, Hr2, Hs1, Hr1. rewrite !in_app_iff. intros H. cases_or.
  - intros Hm. rewrite (unmounted_run _ _ Hm). split; assumption.
Qed.

Lemma overlapping_starts_leak_witness :
  let s' := CameraStream.run
              [Begin; Begin; End_ (Granted 1 false); End_ (Granted 2 false); Deactivate]
              CameraStream.init in
  srcObject s' = None /\ ~ In 1%nat (released s') /\ released s' = [2%nat].
Proof.
  intros s'.
  destruct (@overlapping_starts_leak CameraStream.init 1 2 false false)
    as (Hmounted & _).
  - cbn. tauto.
  - discriminate.
  - discriminate.
  - destruct (Hmounted eq_refl) as ((Hn & Ha & _) & _).
    split; [exact Hn|]. split; [exact Ha | reflexivity].
Defined.

End CameraStreamFacts.

(** ** The timer table over arbitrary histories *)

Section SchedulerInvariant.

Import App Scheduler SchedulerSpec SchedulerInv.

Local Open Scope N_scope.

Lemma intervals_cleared h ts :
  Forall (fun t => handle t = h) (filter is_interval ts) ->
  filter is_interval (filter (fun t => negb (handle t =? h)%nat) ts) = [].
Proof.
  induction ts as [|t ts IH]; cbn [filter]; [reflexivity|].
  destruct (is_interval t) eqn:Hi.
  - intros H. inversion_clear H as [|? ? Ht Hts].
    rewrite Ht, Nat.eqb_refl. cbn [negb]. apply IH. exact Hts.
  - intros H. destruct (negb (handle t =? h)%nat); cbn [filter];
      rewrite ?Hi; apply IH; exact H.
Qed.

Lemma intervals_kept_empty (f : timer -> bool) ts :
  filter is_interval ts = [] -> filter is_interval (filter f ts) = [].
Proof.
  induction ts as [|t ts IH]; cbn [filter]; [reflexivity|].
  destruct (is_interval t) eqn:Hi; [discriminate|].
  intros H. destruct (f t); cbn [filter]; rewrite ?Hi; apply IH; exact H.
Qed.

Lemma intervals_after_cleanup s :
  single_interval s \/ filter is_interval (timers s) = [] ->
  filter is_interval (timers (cleanup s)) = [].
Proof.
  unfold cleanup, clearInterval, single_interval.
  intros [H|H].
  - destruct (active s).
    + destruct H as (h & d & Hf & Href & _). rewrite Href. cbn [timers].
      apply intervals_cleared. rewrite Hf. repeat constructor.
    + destruct (intervalRef s); [|exact H]. cbn [timers].
      apply intervals_kept_empty. exact H.
  - destruct (intervalRef s); [|exact H]. cbn [timers].
    apply intervals_kept_empty. exact H.
Qed.

Lemma effect_single s :
  filter is_interval (timers s) = [] -> single_interval (effect s).
Proof.
  intros H. unfold effect, single_interval.
  destruct (active s) eqn:Ha.
  - destruct (List.length (images s) =? 0)%nat;
      cbn [setTimeout setInterval register snd set_intervalRef active timers
           intervalRef clock next_handle];
      rewrite Ha; rewrite ?filter_app, H; cbn [filter is_interval period app];
      eexists; eexists; (split; [reflexivity|]); (split; [reflexivity|]);
      unfold period_ms, intervalMs, set_intervalRef; cbn [intervalHours clock];
      split; lia.
  - destruct (intervalRef s) as [h|]; [|rewrite Ha; exact H].
    unfold clearInterval. cbn [active timers]. rewrite Ha.
    apply intervals_kept_empty. exact H.
Qed.

Lemma intervals_rearm now ts :
  filter is_interval (flat_map (rearm now) ts)
  = flat_map (rearm now) (filter is_interval ts).
Proof.
  induction ts as [|t ts IH]; [reflexivity|].
  cbn [flat_map filter]. rewrite filter_app, IH.
  assert (Ht : filter is_interval (rearm now t)
               = if is_interval t then rearm now t else []).
  { destruct (is_interval t) eqn:Hi; pose proof Hi as Hi';
      unfold rearm; unfold is_interval in Hi';
      destruct (is_due now t), (period t) eqn:Hp; try discriminate;
      cbn [filter]; rewrite ?Hi; reflexivity. }
  rewrite Ht. destruct (is_interval t); reflexivity.
Qed.

Lemma tick_single f s : single_interval s -> single_interval (tick f s).
Proof.
  unfold single_interval, tick. cbn [active timers intervalRef clock].
  unfold period_ms, intervalMs. cbn [intervalHours].
  destruct (active s).
  - intros (h & d & Hf & Href & Hhi & Hlo).
    rewrite intervals_rearm, Hf. cbn [flat_map app]. rewrite app_nil_r.
    unfold rearm, is_due. cbn [due period handle].
    unfold period_ms, intervalMs in *.
    destruct (d <=? N.succ (clock s)) eqn:Hd;
      [apply N.leb_le in Hd | apply N.leb_gt in Hd];
      eexists; eexists; (split; [reflexivity|]); (split; [exact Href|]);
      split; lia.
  - intros H. rewrite intervals_rearm, H. reflexivity.
Qed.

Lemma rerun_single s s' :
  single_interval s \/ filter is_interval (timers s) = [] ->
  timers s' = timers s -> intervalRef s' = intervalRef s ->
  single_interval (rerun s').
Proof.
  intros H Ht Hr. unfold rerun. apply effect_single.
  unfold cleanup, clearInterval. rewrite Hr.
  pose proof (@intervals_after_cleanup s H) as Hc.
  unfold cleanup, clearInterval in Hc.
  destruct (intervalRef s); cbn [timers] in *; rewrite Ht; exact Hc.
Qed.

Lemma step_single e s : single_interval s -> single_interval (step e s).
Proof.
  intros H. destruct e as [f| |h| |f]; cbn [step].
  - apply tick_single. exact H.
  - eapply rerun_single; [left; exact H | reflexivity | reflexivity].
  - destruct (Qeq_bool h (intervalHours s)); [exact H|].
    eapply rerun_single; [left; exact H | reflexivity | reflexivity].
  - exact H.
  - exact H.
Qed.

(** X18.  At every moment of every history of the component (clock ticks,
    Start and Stop, interval changes, purges and manual captures, in any
    order from mount) the timer table holds exactly one periodic capture
    timer while the scheduler is active and none while it is inactive; the
    one timer is the one [intervalRef] names, it has the period of the
    current interval setting, and it is due within one period. *)
Theorem one_interval_timer (es : list event) :
  single_interval (run es init).
Proof.
  assert (H : forall s, single_interval s -> single_interval (run es s)).
  { induction es as [|e es IH]; intros s Hs; [exact Hs|].
    cbn [run fold_left]. apply IH. apply step_single. exact Hs. }
  apply H. reflexivity.
Qed.

End SchedulerInvariant.

(** ** The timeline over time and its cards *)

Section StoreFacts.

Import App Store StoreSpec.

Lemma store_run_app es1 es2 images :
  Store.run (es1 ++ es2) images = Store.run es2 (Store.run es1 images).
Proof. unfold Store.run. apply fold_left_app. Qed.

Lemma captured_sound f img :
  captured f = Some img -> sound img /\ as_captured img = img.
Proof.
  unfold captured. destruct (shot f) as [url|]; [|discriminate].
  destruct (is_empty url) eqn:He; [discriminate|]. intros [= <-].
  split; [|reflexivity]. unfold sound. cbn.
  split; [|auto]. intros ->. discriminate.
Qed.

Lemma merge_sound img text :
  sound img ->
  sound (merge img text (parseMetaData text)) /\
  as_captured (merge img text (parseMetaData text)) = as_captured img.
Proof.
  intros (Hurl & Hg & Ha & Ht & _). split; [|reflexivity].
  unfold sound. cbn. repeat split; assumption || reflexivity.
Qed.

Lemma step_sound e (P : CapturedImage -> Prop) images :
  (forall f, e = Capture f -> forall img, captured f = Some img -> P img) ->
  Forall (fun img => sound img /\ P (as_captured img)) images ->
  (forall img, P img -> P (as_captured img)) ->
  Forall (fun img => sound img /\ P (as_captured img)) (Store.step e images).
Proof.
  intros Hnew Hall Hidem.
  destruct e as [f|f r|]; cbn [Store.step].
  - unfold capture_begin. destruct (captured f) as [img|] eqn:Hc; [|exact Hall].
    unfold append. apply Forall_app. split; [exact Hall|].
    constructor; [|constructor].
    destruct (captured_sound _ Hc) as [Hs Hid]. split; [exact Hs|].
    rewrite Hid. eapply Hnew; [reflexivity | exact Hc].
  - destruct (captured f) as [img|]; [|exact Hall].
    destruct r as [|[text|]]; cbn [capture_finish]; try exact Hall.
    unfold enrich. apply Forall_map.
    eapply Forall_impl; [|exact Hall]. cbn beta. intros im [Hs Hp].
    destruct (jsstring_eqb (Types.id im) (Types.id img)); [|auto].
    destruct (merge_sound text Hs) as [Hs' Hid]. split; [exact Hs'|].
    rewrite Hid. exact Hp.
  - constructor.
Qed.

Lemma store_sound es :
  Forall (fun img => sound img /\ from_capture es img) (Store.run es []).
Proof.
  induction es as [|e es IH] using rev_ind; [constructor|].
  rewrite store_run_app. cbn [Store.run fold_left].
  apply (@step_sound e
           (fun img0 => exists f, In (Capture f) (es ++ [e]) /\ captured f = Some img0)).
  - intros f -> img Hc. exists f. split; [|exact Hc].
    apply in_or_app. right. left. reflexivity.
  - eapply Forall_impl; [|exact IH]. cbn beta.
    intros img [Hs (f & Hin & Hc)]. split; [exact Hs|].
    exists f. split; [apply in_or_app; left; exact Hin | exact Hc].
  - intros img (f & Hin & Hc). exists f. split; [exact Hin|].
    destruct (captured_sound _ Hc) as [_ Hid]. rewrite Hid. exact Hc.
Qed.

Lemma step_length e images :
  (List.length (Store.step e images)
   <= List.length images + match e with Capture _ => 1 | _ => 0 end)%nat.
Proof.
  destruct e as [f|f r|]; cbn [Store.step].
  - unfold capture_begin, append. destruct (captured f); [|lia].
    rewrite length_app. cbn. lia.
  - destruct (captured f); [|lia].
    destruct r as [|[text|]]; cbn [capture_finish]; try lia.
    unfold enrich. rewrite length_map. lia.
  - cbn. lia.
Qed.

(** X19.  Every artifact of the timeline, after any history of captures,
    returning analyses (in any order, also for purged or unknown captures)
    and purges, has a non-empty image, the identifier, timestamp and image
    of one of the captures made, and no growth stage, advice or event tags;
    its confidence and health status are unset while it has no analysis and
    otherwise are exactly what [parseMetaData] reads in its own analysis
    text.  The timeline never holds more artifacts than captures were
    made. *)
Theorem timeline_artifacts_sound (es : list event) :
  Forall (fun img => sound img /\ from_capture es img) (Store.run es []) /\
  (List.length (Store.run es []) <= captures es)%nat.
Proof.
  split; [apply store_sound|].
  induction es as [|e es IH] using rev_ind; [cbn; lia|].
  rewrite store_run_app. cbn [Store.run fold_left].
  pose proof (step_length e (fold_left (fun images e0 => Store.step e0 images) es []))
    as Hs.
  unfold Store.run in *. unfold captures in *.
  rewrite filter_app, length_app. cbn [filter].
  destruct e; cbn [List.length] in *; lia.
Qed.

Import Timeline TimelineView TimelineSpec.

Lemma render_cards toLowerCase images :
  cards_of (render toLowerCase images) = map (card toLowerCase) (rev images).
Proof.
  unfold render. destruct images as [|img images]; [reflexivity|].
  reflexivity.
Qed.

(** X20.  The timeline strip shows the placeholder exactly for the empty
    timeline and otherwise one card per artifact, newest first: a capture
    puts its card in front of the cards there were, and a returning
    analysis leaves the order and the identifiers of the cards as they
    are.  In every timeline the application can reach, every card has an
    image and none carries a stage badge, whatever the analyses said. *)
Theorem timeline_newest_first (toLowerCase : jsstring -> jsstring) :
  (forall images, render toLowerCase images = NoSnapshots <-> images = []) /\
  (forall images f img,
     captured f = Some img ->
     render toLowerCase (capture_begin f images)
       = Strip (card toLowerCase img :: map (card toLowerCase) (rev images))) /\
  (forall images img r,
     map key (cards_of (render toLowerCase (capture_finish img r images)))
       = map key (cards_of (render toLowerCase images))) /\
  (forall es,
     Forall (fun c => stageBadge c = None /\ src c <> [])
            (cards_of (render toLowerCase (Store.run es [])))).
Proof.
  split; [|split; [|split]].
  - intros images. unfold render. destruct images; split; try discriminate; auto.
  - intros images f img Hc. unfold capture_begin, append. rewrite Hc.
    unfold render. rewrite length_app. cbn [List.length].
    replace (List.length images + 1 =? 0)%nat with false
      by (symmetry; apply Nat.eqb_neq; lia).
    rewrite rev_app_distr. reflexivity.
  - intros images img r. rewrite !render_cards.
    destruct r as [|[text|]]; cbn [capture_finish]; try reflexivity.
    unfold enrich. rewrite <- !map_rev, !map_map. apply map_ext.
    intros im. destruct (jsstring_eqb (Types.id im) (Types.id img)); reflexivity.
  - intros es. rewrite render_cards. apply Forall_map, Forall_rev.
    eapply Forall_impl; [|apply store_sound]. cbn beta.
    intros img [(Hurl & Hg & _) _]. unfold card. cbn [stageBadge src].
    rewrite Hg. auto.
Qed.

Lemma timeline_newest_first_witness :
  let img := newImage 1700000005000 1700000005000 (lit "data:image/jpeg;base64,CCCC") in
  let images := Store.run [Capture Examples.frame_a] [] in
  captured Examples.frame_c = Some img /\
  map label (cards_of (render Examples.ascii_lower (capture_begin Examples.frame_c images)))
    = [lit "ID-5000"; lit "ID-0000"].
Proof.
  intros img images.
  assert (Hc : captured Examples.frame_c = Some img) by reflexivity.
  split; [exact Hc|].
  rewrite (proj1 (proj2 (timeline_newest_first Examples.ascii_lower)) images _ _ Hc).
  vm_compute. reflexivity.
Defined.

(** X21.  An explicit health status decides the colour of a card: for an
    artifact merged from an analysis text with a health tag, the border is
    the colour of the status spelled in a health tag of the text (red for
    CRITICAL, yellow for STRESSED, green for HEALTHY), whatever keywords
    the text contains and whatever [toLowerCase] does. *)
Theorem explicit_status_decides_color (toLowerCase : jsstring -> jsstring)
    (img : CapturedImage) (text : jsstring) :
  contains health_tag text ->
  exists v st,
    contains (health_tag_of v) text /\ status_of v st /\
    getHealthColor toLowerCase (merge img text (parseMetaData text)) = status_color st.
Proof.
  intros H. destruct (proj2 (tagged_set text) H) as (v & st & Hv & Hst & Hmd).
  exists v, st. split; [exact Hv|]. split; [exact Hst|].
  unfold getHealthColor. cbn [merge healthStatus]. rewrite Hmd.
  destruct st; reflexivity.
Qed.

Lemma explicit_status_decides_color_witness :
  let text := lit "[HEALTH: HEALTHY] no pest, no disease" in
  let img := merge (newImage 1 1 (lit "data:,")) text (parseMetaData text) in
  contains health_tag text /\
  keywordColor Examples.ascii_lower text = RED /\
  getHealthColor Examples.ascii_lower img = GREEN /\
  exists st, getHealthColor Examples.ascii_lower img = status_color st.
Proof.
  intros text img.
  assert (Th : contains health_tag text).
  { apply health_found. vm_compute. discriminate. }
  split; [exact Th|]. split; [vm_compute; reflexivity|].
  split; [vm_compute; reflexivity|].
  destruct (@explicit_status_decides_color Examples.ascii_lower
              (newImage 1 1 (lit "data:,")) text Th) as (v & st & _ & _ & Hcol).
  exists st. exact Hcol.
Defined.

End StoreFacts.

(** ** A live session closed before it came up *)

Section LiveEarlyClose.

Import LiveAudio LiveSpec LiveEarlySpec.

Local Open Scope nat_scope.

Local Ltac step_cases :=
  repeat match goal with
         | |- context [match ?x with _ => _ end] => destruct x eqn:?
         end.

Lemma closed_early_orphaned r st sess :
  orphaned st (run (closed_early r st sess) init).
Proof.
  unfold closed_early, run. cbn [fold_left].
  unfold step at 1. cbn [cleaned init set_stopped release streamRef].
  cbn. rewrite Nat.eqb_refl. cbn. repeat split.
Qed.

Lemma orphaned_step st e s :
  streaming_event e = true -> orphaned st s -> orphaned st (step e s).
Proof.
  intros He (H1 & H2 & H3 & H4 & H5 & H6 & H7 & H8 & H9 & H10).
  unfold orphaned.
  destruct e as [r0|r0 st0|r0|r0 sess0|ctx|h ready|ok|now decoded|sess0| |r0|r0];
    try discriminate He; unfold step, handleAudioData.
  - rewrite H5, H6. cbn. repeat split; assumption.
  - rewrite H7. cbn. repeat split; assumption.
  - rewrite H9. repeat split; assumption.
  - rewrite H4. destruct decoded; cbn; repeat split; assumption.
  - cbn. rewrite realtime_app, H10. cbn. repeat split; assumption.
  - cbn. repeat split; assumption.
  - destruct (existsb (Nat.eqb r0) (cleaned s)); cbn; repeat split; assumption.
Qed.

Lemma orphaned_run st es :
  forall s,
    forallb streaming_event es = true -> orphaned st s -> orphaned st (run es s).
Proof.
  induction es as [|e es IH]; intros s Hes H; [exact H|].
  cbn [forallb] in Hes. apply andb_true_iff in Hes. destruct Hes as [He Hes].
  rewrite live_run_cons. apply IH; [exact Hes|].
  now apply orphaned_step.
Qed.

(** X22.  A live view closed while [getUserMedia] is still pending leaves
    its media running: the cleanup finds nothing to release, and when the
    media is granted afterwards the stream is stored and both audio
    contexts are created all the same.  From then on, whatever the
    transport and the timers do, the stream is never stopped and the
    contexts are never closed; no session is stored, no interval or
    processor exists, and no audio chunk or video frame is ever sent. *)
Theorem early_close_leaves_media_running (r st sess : nat) (es : list event) :
  forallb streaming_event es = true ->
  let s := run (closed_early r st sess ++ es) init in
  streamRef s = Some st /\ stopped s = [] /\
  inputAudioContextRef s = Some 1 /\ outputAudioContextRef s = Some 2 /\
  closed s = [] /\
  sessionRef s = None /\ intervals s = [] /\ processors s = [] /\
  realtime (sent s) = [].
Proof.
  intros Hes s. subst s. rewrite live_run_app.
  destruct (@orphaned_run st es _ Hes (closed_early_orphaned r st sess))
    as (H1 & H2 & H3 & H4 & H5 & H6 & H7 & H8 & _ & H10).
  repeat split; assumption.
Qed.

Lemma early_close_leaves_media_running_witness :
  let s := run (closed_early 1 7 9
                  ++ [AudioProcess 1; VideoTick 3 true; AudioData 0 (Some (1 # 2));
                      TransportClosed 1])
               init in
  streamRef s = Some 7 /\ stopped s = [] /\ closed s = [] /\
  realtime (sent s) = [] /\ started s = [(0%Q, 1 # 2)].
Proof.
  intros s.
  destruct (@early_close_leaves_media_running 1 7 9
              [AudioProcess 1; VideoTick 3 true; AudioData 0 (Some (1 # 2));
               TransportClosed 1] eq_refl)
    as (H1 & H2 & _ & _ & H5 & _ & _ & _ & H9).
  split; [exact H1|]. split; [exact H2|]. split; [exact H5|].
  split; [exact H9|]. reflexivity.
Defined.

End LiveEarlyClose.

(** ** Live feed or playback frame *)

Section ViewerFacts.

Import App Viewer.

Lemma viewer_run_cons e es s : Viewer.run (e :: es) s = Viewer.run es (Viewer.step e s).
Proof. reflexivity. Qed.

Lemma stranded_step img e s :
  playbackMode s = true -> selectedImage s = Some img -> images s = [] ->
  playbackMode (Viewer.step e s) = true /\
  selectedImage (Viewer.step e s) = Some img /\
  images (Viewer.step e s) = [].
Proof.
  intros Hp Hs Hi.
  destruct e as [|k|idx|f|f r| |]; cbn [Viewer.step].
  - rewrite Hi. cbn. auto.
  - rewrite Hi. cbn [rev]. destruct k; cbn; auto.
  - unfold Playback.armed. rewrite Hi, Hp. cbn. auto.
  - unfold cameraRef_set, render. rewrite Hp, Hs. auto.
  - destruct (captured f) as [im|]; [|auto].
    cbn [set_images playbackMode selectedImage images]. rewrite Hi.
    destruct r as [|[text|]]; cbn; auto.
  - cbn. auto.
  - cbn. auto.
Qed.

(** X23.  While the main panel shows a playback frame the camera feed is
    not mounted, so every call of [captureAndProcess] (timer, snapshot
    button, voice command) is skipped without a trace.  Hence a purge made
    while a frame is on screen strands the viewer: the timeline is empty
    and stays empty, the purged frame stays on screen, and no click, timer
    or capture brings the live feed back, because the Playback button is
    disabled on an empty timeline and the strip has no card to click. *)
Theorem purge_during_playback_strands_viewer (img : CapturedImage) (s : Viewer.State) :
  (render s = SelectedFrame img ->
   forall fs, Viewer.run (map Capture fs) s = s) /\
  (playbackMode s = true -> selectedImage s = Some img -> images s = [] ->
   forall es,
     render (Viewer.run es s) = SelectedFrame img /\ images (Viewer.run es s) = []).
Proof.
  split.
  - intros Hr fs. induction fs as [|f fs IH]; [reflexivity|].
    cbn [map]. rewrite viewer_run_cons. cbn [Viewer.step].
    unfold cameraRef_set. rewrite Hr. exact IH.
  - intros Hp Hs Hi es. revert s Hp Hs Hi.
    induction es as [|e es IH]; intros s Hp Hs Hi.
    + cbn. unfold render. rewrite Hp, Hs. auto.
    + rewrite viewer_run_cons.
      destruct (@stranded_step img e s Hp Hs Hi) as (Hp' & Hs' & Hi').
      apply IH; assumption.
Qed.

Lemma purge_during_playback_strands_viewer_witness :
  let img := newImage 1700000000000 1700000000000 (lit "data:image/jpeg;base64,AAAA") in
  let s := Viewer.run [Capture Examples.frame_a; ClickPlayback; PlaybackTick 0; Purge]
                      Viewer.init in
  playbackMode s = true /\ selectedImage s = Some img /\ images s = [] /\
  render (Viewer.run [ClickPlayback; Capture Examples.frame_c; ClickCard 0;
                      PlaybackTick 0; ToggleAutoAdvance] s)
    = SelectedFrame img.
Proof.
  intros img s.
  assert (Hp : playbackMode s = true) by reflexivity.
  assert (Hs : selectedImage s = Some img) by reflexivity.
  assert (Hi : images s = []) by reflexivity.
  split; [exact Hp|]. split; [exact Hs|]. split; [exact Hi|].
  apply (proj2 (purge_during_playback_strands_viewer img s) Hp Hs Hi).
Defined.

End ViewerFacts.
